(** * eth2-nft-challenge: a shallow embedding of [src/index.ts]

    The script scans a beacon node for the blocks of a slot range, logs
    them into a CSV file, filters the log by graffiti, and resolves the
    matching proposers' deposit addresses.

    Conventions of the embedding.
    - A JavaScript string is the list of its UTF-16 code units.
    - A JavaScript number that holds an integer is [Num z]; the only other
      number the script can produce is [NaN].  The embedding is exact on
      the safe-integer range; [-0] is identified with [0].
    - The file system, the console and the two HTTP services are the
      fields of a [world] that every operation threads explicitly; an
      operation either returns a value or throws.  A file is the text
      that [readFileSync(path, "utf8")] returns for it; what a write
      adds to it is the written string as its UTF-8 bytes decode.
    - The write stream of the record is asynchronous: [addEntry] queues a
      chunk, and a queued chunk reaches the file only while the script
      awaits or after it has returned. *)

From Equations Require Import Equations.
From Stdlib Require Import ZArith NArith List Ascii String Bool Lia.
Import ListNotations.

Local Open Scope Z_scope.

(** ** Strings *)

Definition char := N.
Definition jsstring := list char.

(** A string literal of the source, as code units. *)
Definition str (s : string) : jsstring :=
  map N_of_ascii (list_ascii_of_string s).
Arguments str s%_string.

Definition chr (a : ascii) : char := N_of_ascii a.
Arguments chr a%_char.

Definition char_eqb (a b : char) : bool := N.eqb a b.

Fixpoint jsstring_eqb (a b : jsstring) : bool :=
  match a, b with
  | [], [] => true
  | x :: a', y :: b' => char_eqb x y && jsstring_eqb a' b'
  | _, _ => false
  end.

(** ECMAScript's WhiteSpace and LineTerminator code points: what
    [String.prototype.trim] strips and what [parseInt] skips. *)
Definition is_whitespace (c : char) : bool :=
  existsb (N.eqb c)
    [0x09; 0x0A; 0x0B; 0x0C; 0x0D; 0x20; 0xA0; 0x1680;
     0x2000; 0x2001; 0x2002; 0x2003; 0x2004; 0x2005; 0x2006; 0x2007;
     0x2008; 0x2009; 0x200A; 0x2028; 0x2029; 0x202F; 0x205F; 0x3000;
     0xFEFF]%N.

Fixpoint trimStart (s : jsstring) : jsstring :=
  match s with
  | [] => []
  | c :: r => if is_whitespace c then trimStart r else s
  end.

Fixpoint trimEnd (s : jsstring) : jsstring :=
  match s with
  | [] => []
  | c :: r =>
      match trimEnd r with
      | [] => if is_whitespace c then [] else [c]
      | r' => c :: r'
      end
  end.

(** [s.trim()] *)
Definition trim (s : jsstring) : jsstring := trimStart (trimEnd s).

(** [s.split(sep)] for a separator of one code unit, which is what both
    separators of the source are ("\n" and ","). *)
Fixpoint split (sep : char) (s : jsstring) : list jsstring :=
  match s with
  | [] => [[]]
  | c :: r =>
      if char_eqb c sep then [] :: split sep r
      else match split sep r with
           | [] => [[c]]
           | p :: ps => (c :: p) :: ps
           end
  end.

(** [a.join(sep)] on an array of strings. *)
Fixpoint join (sep : jsstring) (l : list jsstring) : jsstring :=
  match l with
  | [] => []
  | [x] => x
  | x :: r => x ++ sep ++ join sep r
  end.

Definition newline : char := chr "010".
Definition comma : char := chr ",".

(** ** Numbers *)

Inductive number : Type :=
| Num (z : Z)
| NaN.

Definition number_eqb (a b : number) : bool :=
  match a, b with
  | Num x, Num y => Z.eqb x y
  | NaN, NaN => true
  | _, _ => false
  end.

(** The relational operators: every comparison with [NaN] is false. *)
Definition num_le (a b : number) : bool :=
  match a, b with
  | Num x, Num y => Z.leb x y
  | _, _ => false
  end.

Definition num_ge (a b : number) : bool := num_le b a.

Definition num_lt (a b : number) : bool :=
  match a, b with
  | Num x, Num y => Z.ltb x y
  | _, _ => false
  end.

(** [a + b], exact on integers: the source's result as long as the
    integers are safe integers, as the statements that depend on it
    assume. *)
Definition num_add (a b : number) : number :=
  match a, b with
  | Num x, Num y => Num (x + y)
  | _, _ => NaN
  end.

(** *** Number to string *)

Definition digit_char (d : N) : char := (48 + d)%N.

(** Case analysis that remembers the equation, for the termination
    proofs of the loops below. *)
Definition inspect {A : Type} (a : A) : {b : A | a = b} :=
  exist _ a eq_refl.

(** The decimal digits of a natural number, most significant first. *)
Equations? to_digits (n : N) : list N by wf (N.to_nat n) lt :=
  to_digits n with inspect (N.ltb n 10) => {
    | exist _ true _ := [n];
    | exist _ false Hge := to_digits (n / 10) ++ [(n mod 10)%N] }.
Proof.
  apply N.ltb_ge in Hge.
  assert (Hd : (n / 10 < n)%N) by (apply N.div_lt; lia).
  lia.
Qed.

(** [Number::toString] on the numbers of the embedding.  (An integer of
    magnitude 10^21 or more prints in exponent notation in JavaScript;
    the statements below stay within the safe-integer range.) *)
Definition number_to_string (x : number) : jsstring :=
  match x with
  | NaN => str "NaN"
  | Num z =>
      if z <? 0 then chr "-" :: map digit_char (to_digits (Z.to_N (- z)))
      else map digit_char (to_digits (Z.to_N z))
  end.

(** *** parseInt *)

Definition digit_value (radix : N) (c : char) : option N :=
  let v :=
    if ((48 <=? c) && (c <=? 57))%N then Some (c - 48)%N
    else if ((97 <=? c) && (c <=? 122))%N then Some (c - 87)%N
    else if ((65 <=? c) && (c <=? 90))%N then Some (c - 55)%N
    else None in
  match v with
  | Some d => if (d <? radix)%N then Some d else None
  | None => None
  end.

(** The longest prefix of radix-[radix] digits, as digit values. *)
Fixpoint digit_prefix (radix : N) (s : jsstring) : list N :=
  match s with
  | [] => []
  | c :: r =>
      match digit_value radix c with
      | Some d => d :: digit_prefix radix r
      | None => []
      end
  end.

Definition digits_value (radix : N) (ds : list N) : N :=
  fold_left (fun acc d => (acc * radix + d)%N) ds 0%N.

(** The sign of the number and the text after it. *)
Definition parse_sign (s : jsstring) : Z * jsstring :=
  match s with
  | c :: r =>
      if char_eqb c (chr "-") then (-1, r)
      else if char_eqb c (chr "+") then (1, r)
      else (1, s)
  | [] => (1, s)
  end.

(** The radix, 16 after a [0x] or [0X] prefix and 10 otherwise, and the
    text after the prefix. *)
Definition parse_radix (s : jsstring) : N * jsstring :=
  match s with
  | c0 :: cx :: r =>
      if char_eqb c0 (chr "0") && (char_eqb cx (chr "x") || char_eqb cx (chr "X"))
      then (16%N, r) else (10%N, s)
  | _ => (10%N, s)
  end.

(** [parseInt(s)] with no radix argument (ECMAScript 19.2.5): skip
    leading white space, read a sign, switch to radix 16 on a [0x]
    prefix, read the longest run of digits; no digit gives [NaN].  The
    value is the exact integer, which is the source's result when it is
    a safe integer (beyond that range JavaScript rounds to a double). *)
Definition parseInt (s : jsstring) : number :=
  let '(sign, s2) := parse_sign (trimStart s) in
  let '(radix, s3) := parse_radix s2 in
  match digit_prefix radix s3 with
  | [] => NaN
  | ds => Num (sign * Z.of_N (digits_value radix ds))
  end.

(** [parseInt] of a destructured array element: a missing element is
    [undefined], which converts to the string "undefined". *)
Definition parseInt_elem (o : option jsstring) : number :=
  match o with
  | Some s => parseInt s
  | None => parseInt (str "undefined")
  end.


(** ** Buffers: base64 and UTF-8 *)

Definition buffer := list Byte.byte.

Definition byte_of_N (n : N) : Byte.byte :=
  match Byte.of_N (n mod 256) with
  | Some b => b
  | None => Byte.x00
  end.

(** Node's base64 decoder looks at the low byte of each code unit. *)
Definition low_byte (c : char) : N := (c mod 256)%N.

(** The value of a base64 character, given its low byte; Node also reads
    the URL-safe alphabet. *)
Definition unbase64 (c : N) : option N :=
  if ((65 <=? c) && (c <=? 90))%N then Some (c - 65)%N
  else if ((97 <=? c) && (c <=? 122))%N then Some (c - 71)%N
  else if ((48 <=? c) && (c <=? 57))%N then Some (c + 4)%N
  else if (c =? 43)%N || (c =? 45)%N then Some 62%N
  else if (c =? 47)%N || (c =? 95)%N then Some 63%N
  else None.

(** The 6-bit groups of a base64 text: decoding stops at the padding
    character and skips what is outside the alphabet. *)
Fixpoint sextets (s : jsstring) : list N :=
  match s with
  | [] => []
  | c :: r =>
      if N.eqb (low_byte c) (chr "=") then []
      else match unbase64 (low_byte c) with
           | Some v => v :: sextets r
           | None => sextets r
           end
  end.

Fixpoint bytes_of_sextets (l : list N) : buffer :=
  match l with
  | a :: b :: c :: d :: r =>
      byte_of_N (a * 4 + b / 16)
      :: byte_of_N (b mod 16 * 16 + c / 4)
      :: byte_of_N (c mod 4 * 64 + d)
      :: bytes_of_sextets r
  | [a; b; c] =>
      [byte_of_N (a * 4 + b / 16); byte_of_N (b mod 16 * 16 + c / 4)]
  | [a; b] => [byte_of_N (a * 4 + b / 16)]
  | _ => []
  end%N.

(** [Buffer.from(s, "base64")] *)
Definition Buffer_from_base64 (s : jsstring) : buffer :=
  bytes_of_sextets (sextets s).

(** The UTF-16 code units of a code point. *)
Definition code_units (cp : N) : jsstring :=
  if (cp <? 0x10000)%N then [cp]
  else [(0xD800 + (cp - 0x10000) / 0x400)%N; (0xDC00 + (cp - 0x10000) mod 0x400)%N].

Definition replacement : char := 0xFFFD%N.

(** The state of the UTF-8 decoder inside a multi-byte sequence: the
    code point read so far, the continuation bytes still needed, and the
    range the next byte must lie in. *)
Record utf8_state : Type := mk_utf8_state {
  u_cp : N;
  u_needed : nat;
  u_lower : N;
  u_upper : N
}.

(** The decoder on the first byte of a sequence: what it emits and the
    state it enters. *)
Definition utf8_lead (b : N) : jsstring * option utf8_state :=
  if (b <? 0x80)%N then ([b], None)
  else if ((0xC2 <=? b) && (b <=? 0xDF))%N
    then ([], Some (mk_utf8_state (b - 0xC0) 1 0x80 0xBF))
  else if ((0xE0 <=? b) && (b <=? 0xEF))%N
    then ([], Some (mk_utf8_state (b - 0xE0) 2
                      (if (b =? 0xE0)%N then 0xA0 else 0x80)
                      (if (b =? 0xED)%N then 0x9F else 0xBF)))
  else if ((0xF0 <=? b) && (b <=? 0xF4))%N
    then ([], Some (mk_utf8_state (b - 0xF0) 3
                      (if (b =? 0xF0)%N then 0x90 else 0x80)
                      (if (b =? 0xF4)%N then 0x8F else 0xBF)))
  else ([replacement], None).

Fixpoint utf8_decode_from (st : option utf8_state) (bs : list N) : jsstring :=
  match bs with
  | [] => match st with Some _ => [replacement] | None => [] end
  | b :: r =>
      match st with
      | None =>
          let '(out, st') := utf8_lead b in out ++ utf8_decode_from st' r
      | Some s =>
          if ((u_lower s <=? b) && (b <=? u_upper s))%N then
            let cp := (u_cp s * 64 + (b - 0x80))%N in
            match u_needed s with
            | 1%nat => code_units cp ++ utf8_decode_from None r
            | n => utf8_decode_from
                     (Some (mk_utf8_state cp (Nat.pred n) 0x80 0xBF)) r
            end
          else
            let '(out, st') := utf8_lead b in
            replacement :: out ++ utf8_decode_from st' r
      end
  end.

(** [buff.toString("utf8")]: ill-formed input decodes to U+FFFD, one per
    maximal ill-formed subsequence. *)
Definition Buffer_toString_utf8 (b : buffer) : jsstring :=
  utf8_decode_from None (map Byte.to_N b).

(** The UTF-8 bytes of a code point. *)
Definition utf8_bytes_of (cp : N) : list N :=
  (if cp <? 0x80 then [cp]
   else if cp <? 0x800 then [0xC0 + cp / 64; 0x80 + cp mod 64]
   else if cp <? 0x10000 then
     [0xE0 + cp / 4096; 0x80 + (cp / 64) mod 64; 0x80 + cp mod 64]
   else
     [0xF0 + cp / 262144; 0x80 + (cp / 4096) mod 64;
      0x80 + (cp / 64) mod 64; 0x80 + cp mod 64])%N.

Definition is_high_surrogate (c : char) : bool :=
  ((0xD800 <=? c) && (c <=? 0xDBFF))%N.
Definition is_low_surrogate (c : char) : bool :=
  ((0xDC00 <=? c) && (c <=? 0xDFFF))%N.

(** A code unit that is a code point by itself. *)
Definition is_bmp_scalar (c : char) : bool :=
  ((c <? 0xD800) || ((0xE000 <=? c) && (c <? 0x10000)))%N.

(** The UTF-8 bytes that Node writes for a string: a surrogate pair is
    one code point, a surrogate without its partner is written as
    U+FFFD.  (A number that is no code unit at all is treated like an
    unpaired surrogate.) *)
Fixpoint utf8_encode (s : jsstring) : list N :=
  match s with
  | [] => []
  | c :: r =>
      if is_high_surrogate c then
        match r with
        | l :: r' =>
            if is_low_surrogate l then
              utf8_bytes_of (0x10000 + (c - 0xD800) * 0x400 + (l - 0xDC00))%N
              ++ utf8_encode r'
            else utf8_bytes_of replacement ++ utf8_encode r
        | [] => utf8_bytes_of replacement
        end
      else if is_bmp_scalar c then utf8_bytes_of c ++ utf8_encode r
      else utf8_bytes_of replacement ++ utf8_encode r
  end.

(** The text that [readFileSync(path, "utf8")] returns for what a write
    of the string [s] put into a file. *)
Definition written_text (s : jsstring) : jsstring :=
  utf8_decode_from None (utf8_encode s).

(** [buff.slice(0, i)]: the end index is clamped to the length. *)
Definition Buffer_slice0 (b : buffer) (i : nat) : buffer := firstn i b.

(** [buff.entries()]: the pairs of index and byte. *)
Fixpoint entries_from (i : nat) (b : buffer) : list (nat * Byte.byte) :=
  match b with
  | [] => []
  | x :: r => (i, x) :: entries_from (S i) r
  end.

Definition Buffer_entries (b : buffer) : list (nat * Byte.byte) :=
  entries_from 0 b.

(** [parseGraffiti]: the iterator runs over the buffer first decoded,
    while the variable [buff] is rebound to ever shorter views of it. *)
Definition parseGraffiti (base64 : jsstring) : jsstring :=
  let buff0 := Buffer_from_base64 base64 in
  let buff :=
    fold_left
      (fun (buff : buffer) (e : nat * Byte.byte) =>
         let '(i, byte) := e in
         if N.eqb (Byte.to_N byte) 0 then Buffer_slice0 buff i else buff)
      (Buffer_entries buff0) buff0 in
  Buffer_toString_utf8 buff.


(** ** Configuration *)

Definition fromSlot : number := Num 327600.
Definition toSlot : number := Num 442799.

(** [/dappnode/i] *)
Definition graffitiToMatch : jsstring := str "dappnode".

Definition separator : jsstring := str ",".
Definition header : jsstring :=
  join separator [str "slot"; str "proposerIndex"; str "graffiti"].

(** ** Regular expression: a literal pattern with the [i] flag *)

(** Canonicalize of a non-unicode, case-insensitive pattern, on the code
    units that can be equal to an ASCII letter after it: a code unit
    outside ASCII never canonicalizes to an ASCII one. *)
Definition canonicalize (c : char) : char :=
  if ((97 <=? c) && (c <=? 122))%N then (c - 32)%N else c.

Fixpoint matches_at (pat s : jsstring) : bool :=
  match pat, s with
  | [], _ => true
  | _ :: _, [] => false
  | p :: pat', c :: s' =>
      char_eqb (canonicalize p) (canonicalize c) && matches_at pat' s'
  end.

(** [/pat/i.test(s)]: the pattern matches at some position of [s]. *)
Fixpoint regexp_test_i (pat s : jsstring) : bool :=
  matches_at pat s ||
  match s with
  | [] => false
  | _ :: s' => regexp_test_i pat s'
  end.


(** ** The world and the monad of the script *)

Inductive error : Type :=
| ENOENT        (* reading a file that does not exist *)
| RequestError  (* a request that [got] rejects *).

Inductive result (A : Type) : Type :=
| Ok (a : A)
| Throw (e : error).
Arguments Ok {A} a.
Arguments Throw {A} e.

(** A row of the CSV. *)
Record Row : Type := mkRow {
  slot : number;
  proposerIndex : number;
  graffiti : jsstring
}.

(** A block of the beacon API's response, fields as received. *)
Record Block : Type := mkBlock {
  block_slot : jsstring;
  block_proposerIndex : jsstring;
  block_graffiti : jsstring
}.

(** A deposit of the explorer API's response; the amount is a JSON
    integer (Gwei). *)
Record Deposit : Type := mkDeposit {
  amount : Z;
  from_address : jsstring;
  publickey : jsstring;
  removed : bool;
  valid_signature : bool
}.

(** What the script reads and writes.  The three files are the ones at
    the constant paths [filepath], [indexedOutputPath] and
    [addressesOutputPath]; [None] is a file that does not exist.
    [io_schedule] is the operating system's part in the write stream: for
    each await to come, how many of the chunks queued in the stream have
    been written to the file when the script is resumed. *)
Record world : Type := mkWorld {
  record_file : option jsstring;
  indexes_file : option jsstring;
  addresses_file : option jsstring;
  record_stream : bool;            (* [this.stream] has been created *)
  stop : bool;                     (* the SIGINT flag *)
  console : list jsstring;         (* lines printed, oldest first *)
  beacon_log : list number;        (* slots asked of the beacon node *)
  explorer_log : list (list number); (* batches asked of the explorer *)
  io_schedule : list nat           (* stream writes done at each await *)
}.

Definition set_record_file (f : option jsstring) (w : world) : world :=
  mkWorld f (indexes_file w) (addresses_file w) (record_stream w)
          (stop w) (console w) (beacon_log w) (explorer_log w)
          (io_schedule w).
Definition set_indexes_file (f : option jsstring) (w : world) : world :=
  mkWorld (record_file w) f (addresses_file w) (record_stream w)
          (stop w) (console w) (beacon_log w) (explorer_log w)
          (io_schedule w).
Definition set_addresses_file (f : option jsstring) (w : world) : world :=
  mkWorld (record_file w) (indexes_file w) f (record_stream w) (stop w)
          (console w) (beacon_log w) (explorer_log w) (io_schedule w).
Definition set_record_stream (b : bool) (w : world) : world :=
  mkWorld (record_file w) (indexes_file w) (addresses_file w) b (stop w)
          (console w) (beacon_log w) (explorer_log w) (io_schedule w).
Definition set_stop (b : bool) (w : world) : world :=
  mkWorld (record_file w) (indexes_file w) (addresses_file w)
          (record_stream w) b (console w) (beacon_log w)
          (explorer_log w) (io_schedule w).
Definition set_console (c : list jsstring) (w : world) : world :=
  mkWorld (record_file w) (indexes_file w) (addresses_file w)
          (record_stream w) (stop w) c (beacon_log w) (explorer_log w)
          (io_schedule w).
Definition set_beacon_log (l : list number) (w : world) : world :=
  mkWorld (record_file w) (indexes_file w) (addresses_file w)
          (record_stream w) (stop w) (console w) l (explorer_log w)
          (io_schedule w).
Definition set_explorer_log (l : list (list number)) (w : world) : world :=
  mkWorld (record_file w) (indexes_file w) (addresses_file w)
          (record_stream w) (stop w) (console w) (beacon_log w) l
          (io_schedule w).

Definition set_io_schedule (l : list nat) (w : world) : world :=
  mkWorld (record_file w) (indexes_file w) (addresses_file w)
          (record_stream w) (stop w) (console w) (beacon_log w)
          (explorer_log w) l.

Definition M (A : Type) : Type := world -> result A * world.

Definition ret {A : Type} (a : A) : M A := fun w => (Ok a, w).

Definition bind {A B : Type} (m : M A) (k : A -> M B) : M B :=
  fun w =>
    match m w with
    | (Ok a, w') => k a w'
    | (Throw e, w') => (Throw e, w')
    end.

Notation "x <- m ;; k" := (bind m (fun x => k))
  (at level 61, m at next level, right associativity).
Notation "m ;;; k" := (bind m (fun _ => k))
  (at level 61, right associativity).

(** [for (const x of l) body(x)], for a body that updates a value [s]
    of the script. *)
Fixpoint for_of {A S : Type} (l : list A) (body : A -> S -> M S) (s : S)
  : M S :=
  match l with
  | [] => ret s
  | x :: r => s' <- body x s ;; for_of r body s'
  end.

(** [console.log(line)] *)
Definition console_log (line : jsstring) : M unit :=
  fun w => (Ok tt, set_console (console w ++ [line]) w).

(** ** The CSV record (class [CsvRecord]) *)

(** [new CsvRecord(filepath)] *)
Definition CsvRecord_new : M unit :=
  fun w =>
    match record_file w with
    | None => (Ok tt, set_record_file (Some (header ++ [newline])) w)
    | Some _ => (Ok tt, w)
    end.

(** [[slot, proposerIndex, graffiti].join(separator)] *)
Definition row_line (r : Row) : jsstring :=
  join separator
    [number_to_string (slot r); number_to_string (proposerIndex r); graffiti r].

(** *** The write stream

    [fs.createWriteStream] opens the file and writes to it
    asynchronously: [stream.write(chunk)] only queues the chunk.  The
    chunks queued and not yet written are the state of [this.stream];
    the functions that write to the stream or await take them and return
    them, oldest first. *)
Definition pending : Type := list jsstring.

(** The text that chunks add to the file when they are written. *)
Definition pending_text (chunks : pending) : jsstring :=
  List.concat (map written_text chunks).

(** The stream's writes of [chunks] complete: they are appended to the
    file (the append mode creates a missing file).  A chunk of the
    script starts with an ASCII character, so the bytes before it decode
    to the same text whether or not the chunk follows them. *)
Definition write_chunks (chunks : pending) (w : world) : world :=
  match chunks with
  | [] => w
  | _ =>
      let old := match record_file w with Some c => c | None => [] end in
      set_record_file (Some (old ++ pending_text chunks)) w
  end.

(** The script awaits: the event loop runs, and the stream writes as
    many of its queued chunks as the schedule says. *)
Definition event_loop_turn (q : pending) (w : world) : pending * world :=
  match io_schedule w with
  | [] => (q, w)
  | n :: rest =>
      (skipn n q, set_io_schedule rest (write_chunks (firstn n q) w))
  end.

(** The stream drains: every queued chunk is written.  This is what has
    happened when the process ends after [runScript] has returned. *)
Definition drain (q : pending) : M unit :=
  fun w => (Ok tt, write_chunks q w).

(** [addEntry]: the stream is created on the first call, in append
    mode, and the line is queued in it. *)
Definition addEntry (r : Row) (q : pending) : M pending :=
  fun w =>
    let row := row_line r in
    let w1 := if record_stream w then w else set_record_stream true w in
    (Ok (q ++ [row ++ [newline]]), w1).

(** [fs.readFileSync(filepath, "utf8")] *)
Definition readFileSync_record : M jsstring :=
  fun w =>
    match record_file w with
    | Some c => (Ok c, w)
    | None => (Throw ENOENT, w)
    end.

(** [rows[rows.length - 1]] *)
Definition last_elem {A : Type} (l : list A) : option A :=
  nth_error l (List.length l - 1)%nat.

(** [getLastSlot]: [None] is [null]. *)
Definition getLastSlot : M (option number) :=
  content <- readFileSync_record ;;
  let rows := split newline (trim content) in
  let lastRow := option_map trim (last_elem rows) in
  match lastRow with
  | None => ret None
  | Some lastRow =>
      if match lastRow with [] => true | _ => false end
         || jsstring_eqb lastRow header
      then ret None
      else ret (Some (parseInt_elem (hd_error (split comma lastRow))))
  end.

(** One iteration of the loop of [readEntries]. *)
Definition parse_row (row : jsstring) : Row :=
  let fields := split comma row in
  mkRow (parseInt_elem (nth_error fields 0))
        (parseInt_elem (nth_error fields 1))
        (join separator (skipn 2 fields)).

(** [readEntries] *)
Definition readEntries : M (list Row) :=
  content <- readFileSync_record ;;
  let rows := split newline (trim content) in
  ret (map parse_row rows).

(** ** Sets in insertion order *)

(** [Set.prototype.add] on the list of a set's values in insertion
    order: a value already present (SameValueZero, so [NaN] is equal to
    itself) leaves the set as it is. *)
Definition Set_add {A : Type} (eqb : A -> A -> bool) (s : list A) (x : A) : list A :=
  if existsb (eqb x) s then s else s ++ [x].

(** [new Set(l)], as its values in insertion order. *)
Definition Set_of {A : Type} (eqb : A -> A -> bool) (l : list A) : list A :=
  fold_left (Set_add eqb) l [].

(** ** The script *)

(** The test of lines 39-43 of [runScript]. *)
Definition selected (entry : Row) : bool :=
  num_ge (slot entry) fromSlot
  && num_le (slot entry) toSlot
  && regexp_test_i graffitiToMatch (graffiti entry).

(** Lines 36-48: the set of proposer indexes of the selected entries,
    then [Array.from] of its values. *)
Definition collectProposerIndexes (entries : list Row) : list number :=
  fold_left
    (fun (proposerIndexes : list number) (entry : Row) =>
       if selected entry
       then Set_add number_eqb proposerIndexes (proposerIndex entry)
       else proposerIndexes)
    entries [].

Definition step : nat := 100.

(** [a.slice(i, j)] for [i <= j] *)
Definition slice {A : Type} (a : list A) (i j : nat) : list A :=
  firstn (j - i) (skipn i a).

(** The test of lines 170-174 of [fetchDepositAddresses]; an amount is a
    JSON integer. *)
Definition bad_deposit (deposit : Deposit) : bool :=
  (amount deposit <? 32000000000)
  || removed deposit
  || negb (valid_signature deposit).

(** Lines 169-179: the loop over the deposits of one response. *)
Fixpoint check_deposits (data : list Deposit) (addresses : list jsstring)
  : M (list jsstring) :=
  match data with
  | [] => ret addresses
  | deposit :: rest =>
      if bad_deposit deposit then
        console_log (str "Bad deposit for pubkey: " ++ publickey deposit) ;;;
        check_deposits rest addresses
      else check_deposits rest (addresses ++ [from_address deposit])
  end.

Definition writeFileSync_indexes (data : jsstring) : M unit :=
  fun w => (Ok tt, set_indexes_file (Some data) w).

Definition writeFileSync_addresses (data : jsstring) : M unit :=
  fun w => (Ok tt, set_addresses_file (Some data) w).

Section Script.

(** The beacon node: the blocks it answers for a slot, or a failed
    request; and whether a SIGINT is delivered while the script awaits
    the answer. *)
Variable beacon : number -> result (list Block) * bool.

(** The explorer: the deposits it answers for a batch of validator
    indexes, or a failed request. *)
Variable explorer : list number -> result (list Deposit).

(** [await fetchBlock(slot)]: the request is sent, and while the script
    awaits the answer the event loop turns. *)
Definition fetchBlock (slot : number) (q : pending)
  : M (list Block * pending) :=
  fun w =>
    let w1 := set_beacon_log (beacon_log w ++ [slot]) w in
    let '(res, sigint) := beacon slot in
    let '(q', w2) := event_loop_turn q w1 in
    let w3 := set_stop (stop w2 || sigint) w2 in
    (match res with
     | Ok blocks => Ok (blocks, q')
     | Throw e => Throw e
     end, w3).

(** Lines 25-33: the body of the scan loop. *)
Definition scan_slot (slot : number) (q : pending) : M pending :=
  answer <- fetchBlock slot q ;;
  for_of (fst answer) (fun block q =>
    q' <- addEntry (mkRow (parseInt (block_slot block))
                          (parseInt (block_proposerIndex block))
                          (parseGraffiti (block_graffiti block))) q ;;
    console_log (str "slot " ++ block_slot block) ;;;
    ret q') (snd answer).

Definition slots_left (slot : number) : nat :=
  match slot, toSlot with
  | Num z, Num t => Z.to_nat (t + 1 - z)
  | _, _ => 0%nat
  end.

(** Lines 24-34: [for (slot = ...; slot <= toSlot && !stop; slot++)]. *)
Equations? scan_loop (slot : number) (q : pending) (w : world)
  : result pending * world by wf (slots_left slot) lt :=
  scan_loop slot q w with inspect (num_le slot toSlot && negb (stop w)) => {
    | exist _ false _ := (Ok q, w);
    | exist _ true Hgo with scan_slot slot q w => {
        | (Ok q', w') := scan_loop (num_add slot (Num 1)) q' w';
        | (Throw e, w') := (Throw e, w') } }.
Proof.
  apply andb_prop in Hgo. destruct Hgo as [Hle _].
  match type of Hle with num_le ?s _ = true => destruct s as [z|] end;
    [|discriminate Hle].
  unfold num_le, toSlot in Hle. apply Z.leb_le in Hle.
  unfold slots_left, num_add, toSlot.
  apply Z2Nat.inj_lt; lia.
Qed.

(** [got(url).json()] for a batch of the deposit resolver.  (What the
    stream writes during this await changes nothing that the script
    reads afterwards.) *)
Definition got_deposits (indexes : list number) : M (list Deposit) :=
  fun w => (explorer indexes, set_explorer_log (explorer_log w ++ [indexes]) w).

(** Lines 163-180: [for (let i = 0; i < validatorIndexes.length; i += step)]. *)
Equations? deposits_loop (validatorIndexes : list number) (i : nat)
  (addresses : list jsstring) (w : world) : result (list jsstring) * world
  by wf (List.length validatorIndexes - i)%nat lt :=
  deposits_loop validatorIndexes i addresses w with
    inspect (Nat.ltb i (List.length validatorIndexes)) => {
    | exist _ false _ := (Ok addresses, w);
    | exist _ true Hlt with
        (data <- got_deposits (slice validatorIndexes i (i + step)) ;;
         check_deposits data addresses) w => {
        | (Ok addresses', w') :=
            deposits_loop validatorIndexes (i + step) addresses' w';
        | (Throw e, w') := (Throw e, w') } }.
Proof.
  apply Nat.ltb_lt in Hlt. unfold step. lia.
Qed.

(** [fetchDepositAddresses] *)
Definition fetchDepositAddresses (validatorIndexes : list number)
  : M (list jsstring) :=
  deposits_loop validatorIndexes 0 [].

(** Lines 21-34 of [runScript]: open the record and scan.  The result
    is what is still queued in the stream of [record]. *)
Definition scan_phase_record : M pending :=
  CsvRecord_new ;;;
  last <- getLastSlot ;;
  let lastSlot := match last with Some n => n | None => fromSlot end in
  scan_loop (num_add lastSlot (Num 1)) [].

(** The same lines, for what follows them in [runScript]: nothing below
    line 34 writes to the stream. *)
Definition scan_phase : M unit :=
  scan_phase_record ;;; ret tt.

Definition length_string {A : Type} (l : list A) : jsstring :=
  number_to_string (Num (Z.of_nat (List.length l))).

(** [runScript].  After the scan the script does not write to the
    stream and does not read the record file beyond line 38; what the
    stream writes from then on is left to [drain]. *)
Definition runScript : M unit :=
  scan_phase ;;;
  entries <- readEntries ;;
  let validatorIndexes := collectProposerIndexes entries in
  console_log (str "Proposer indexes: " ++ length_string validatorIndexes) ;;;
  writeFileSync_indexes
    (join [newline] (map number_to_string validatorIndexes)) ;;;
  addresses <- fetchDepositAddresses validatorIndexes ;;
  let addressesUnique := Set_of jsstring_eqb addresses in
  console_log (str "Eth1 addresses: " ++ length_string addressesUnique
               ++ str " (total " ++ length_string addresses ++ str ")") ;;;
  writeFileSync_addresses (join [newline] addressesUnique).

End Script.

(** * Specification-side definitions *)

(** The text of the record file, a missing file being empty. *)
Definition store_text (w : world) : jsstring :=
  match record_file w with
  | Some c => c
  | None => []
  end.

(** A world with no file, nothing printed and nothing requested, in
    which no stream write completes while the script awaits. *)
Definition empty_world : world :=
  mkWorld None None None false false [] [] [] [].

(** A world whose record file holds [content]. *)
Definition world_with_record (content : jsstring) : world :=
  set_record_file (Some content) empty_world.

(** What [readEntries] makes of the header line. *)
Definition header_row : Row := mkRow NaN NaN (str "graffiti").

Definition is_decimal_digit (c : char) : bool :=
  ((48 <=? c) && (c <=? 57))%N.

(** A field that does not read as a number: after leading white space
    and an optional sign it does not start with a decimal digit.  A
    missing field ([None]) does not read as a number either. *)
Definition non_numeric (field : option jsstring) : Prop :=
  match field with
  | None => True
  | Some f =>
      match snd (parse_sign (trimStart f)) with
      | [] => True
      | c :: _ => is_decimal_digit c = false
      end
  end.

(** The [i]-th comma-separated field of a line. *)
Definition field (i : nat) (line : jsstring) : option jsstring :=
  nth_error (split comma line) i.

(** A store with one malformed line after the header. *)
Definition malformed_store : jsstring :=
  header ++ [newline] ++ str "abc,def,x" ++ [newline].

(** The values of a list in the order of their first occurrence. *)
Fixpoint first_seen {A : Type} (eqb : A -> A -> bool) (l : list A) : list A :=
  match l with
  | [] => []
  | x :: r => x :: filter (fun y => negb (eqb y x)) (first_seen eqb r)
  end.

(** The slot of a row lies in the window [fromSlot, toSlot]. *)
Definition in_window (r : Row) : Prop :=
  match slot r, fromSlot, toSlot with
  | Num s, Num lo, Num hi => lo <= s <= hi
  | _, _, _ => False
  end.

Definition to_lower (c : char) : char :=
  if ((65 <=? c) && (c <=? 90))%N then (c + 32)%N else c.

(** Two code units that are equal up to the case of an ASCII letter. *)
Definition same_letter (p c : char) : Prop := to_lower p = to_lower c.

(** [s] contains an occurrence of [pat], case ignored. *)
Definition contains_ci (pat s : jsstring) : Prop :=
  exists pre mid post,
    s = pre ++ mid ++ post /\ Forall2 same_letter pat mid.

(** A beacon node that answers, for every slot, one block whose proposer
    index does not read as a number and whose graffiti is "dappnode";
    the script is interrupted while it awaits the first answer. *)
Definition beacon_odd_index (s : number) : result (list Block) * bool :=
  (Ok [mkBlock (number_to_string s) (str "n/a") (str "ZGFwcG5vZGUAAAAA")],
   true).

(** A store with one row after the header, as the scan writes it for
    such a block at slot 327601. *)
Definition store_odd_index : jsstring :=
  header ++ [newline] ++ str "327601,NaN,dappnode" ++ [newline].

(** An explorer that knows of no deposit. *)
Definition explorer_none (indexes : list number) : result (list Deposit) :=
  Ok [].

(** An integer in the range where every integer is a JavaScript number
    and arithmetic on it is exact; the embedding is meant for this range
    only. *)
Definition safe_integer (z : Z) : Prop := Z.abs z <= 2 ^ 53 - 1.

(** The last code unit of a text is white space. *)
Definition ends_in_whitespace (s : jsstring) : Prop :=
  exists p c, s = p ++ [c] /\ is_whitespace c = true.

(** A store text that is empty or whose last line is terminated, as the
    constructor and [addEntry] leave it. *)
Definition line_complete (text : jsstring) : Prop :=
  text = [] \/ exists p, text = p ++ [newline].

(** A row whose graffiti contains the separator. *)
Definition row_with_commas : Row :=
  mkRow (Num 327601) (Num 11516) (str "dappnode, x,y").

(** The base64 character of a 6-bit value (RFC 4648, standard
    alphabet). *)
Definition base64_char (v : N) : char :=
  (if v <? 26 then 65 + v
   else if v <? 52 then 71 + v
   else if v <? 62 then v - 4
   else if v =? 62 then 43 else 47)%N.

(** The padded base64 text of a byte string. *)
Fixpoint base64_encode (bs : buffer) : jsstring :=
  match bs with
  | a :: b :: c :: r =>
      let x := Byte.to_N a in
      let y := Byte.to_N b in
      let z := Byte.to_N c in
      base64_char (x / 4)
      :: base64_char (x mod 4 * 16 + y / 16)
      :: base64_char (y mod 16 * 4 + z / 64)
      :: base64_char (z mod 64)
      :: base64_encode r
  | [a; b] =>
      let x := Byte.to_N a in
      let y := Byte.to_N b in
      [base64_char (x / 4); base64_char (x mod 4 * 16 + y / 16);
       base64_char (y mod 16 * 4); chr "="]
  | [a] =>
      let x := Byte.to_N a in
      [base64_char (x / 4); base64_char (x mod 4 * 16); chr "="; chr "="]
  | [] => []
  end%N.

(** The bytes before the first zero byte. *)
Fixpoint until_zero (bs : buffer) : buffer :=
  match bs with
  | [] => []
  | b :: r => if N.eqb (Byte.to_N b) 0 then [] else b :: until_zero r
  end.

(** The bytes of an ASCII literal. *)
Definition bytes (s : string) : buffer :=
  map byte_of_ascii (list_ascii_of_string s).
Arguments bytes s%_string.

Definition nul : Byte.byte := Byte.x00.

(** The [j]-th batch of a list of validator indexes. *)
Definition batch (validatorIndexes : list number) (j : nat) : list number :=
  firstn step (skipn (step * j) validatorIndexes).

(** The batches of a list: consecutive runs of [step] indexes, the last
    one possibly shorter. *)
Definition batches (validatorIndexes : list number) : list (list number) :=
  map (batch validatorIndexes)
      (seq 0 ((List.length validatorIndexes + (step - 1)) / step)%nat).

(** The resolver as an iteration over a list of batches: one request per
    batch, the first failed request ending the iteration. *)
Fixpoint resolve (explorer : list number -> result (list Deposit))
  (bs : list (list number)) (addresses : list jsstring) (w : world)
  : result (list jsstring) * world :=
  match bs with
  | [] => (Ok addresses, w)
  | b :: rest =>
      match (data <- got_deposits explorer b ;; check_deposits data addresses) w with
      | (Ok addresses', w') => resolve explorer rest addresses' w'
      | (Throw e, w') => (Throw e, w')
      end
  end.

(** A deposit is valid. *)
Definition valid_deposit (d : Deposit) : Prop :=
  32000000000 <= amount d /\ removed d = false /\ valid_signature d = true.

(** The line printed for a bad deposit. *)
Definition bad_deposit_line (d : Deposit) : jsstring :=
  str "Bad deposit for pubkey: " ++ publickey d.

(** The deposits the explorer answers for the batches of a list, failed
    requests counting for none. *)
Definition answered (explorer : list number -> result (list Deposit))
  (bs : list (list number)) : list Deposit :=
  flat_map (fun b => match explorer b with Ok data => data | Throw _ => [] end) bs.

(** Every request for a batch of the list succeeds. *)
Definition all_answered (explorer : list number -> result (list Deposit))
  (bs : list (list number)) : Prop :=
  forall b, In b bs -> exists data, explorer b = Ok data.

(** The addresses collected from a response and the lines printed for
    it. *)
Definition collected (data : list Deposit) : list jsstring :=
  map from_address (filter (fun d => negb (bad_deposit d)) data).

Definition bad_lines (data : list Deposit) : list jsstring :=
  map bad_deposit_line (filter bad_deposit data).

(** An explorer that answers every batch with the same two deposits, one
    valid and one below the threshold. *)
Definition explorer_two (indexes : list number) : result (list Deposit) :=
  Ok [mkDeposit 32000000000 (str "0x27e1") (str "0xb067") false true;
      mkDeposit 31000000000 (str "0x9f05") (str "0xc323") false true].

(** [k] consecutive slots from [z] on. *)
Definition consecutive (z : Z) (k : nat) : list number :=
  map (fun i => Num (z + Z.of_nat i)) (seq 0 k).

(** A beacon node without blocks; the script is interrupted while it
    awaits the first answer. *)
Definition beacon_interrupted (s : number) : result (list Block) * bool :=
  (Ok [], true).

(** A store whose last row is for slot 5. *)
Definition store_at_5 : jsstring :=
  header ++ [newline] ++ str "5,1,x" ++ [newline].

(** An operation that asks nothing of the beacon node and leaves the
    interrupt flag as it is. *)
Definition keeps_requests {A : Type} (m : M A) : Prop :=
  forall w, beacon_log (snd (m w)) = beacon_log w
            /\ stop (snd (m w)) = stop w.

(** A store whose last row is for slot 442797, two slots before the end
    of the window. *)
Definition store_near_end : jsstring :=
  header ++ [newline] ++ str "442797,5,abc" ++ [newline].

(** A beacon node that answers, for every slot, one block proposed by
    validator 7 with the graffiti "dappnode, x". *)
Definition beacon_one_block (s : number) : result (list Block) * bool :=
  (Ok [mkBlock (number_to_string s) (str "7") (str "ZGFwcG5vZGUsIHgAAAA=")],
   false).

(** ** Vocabulary for the text of a file *)

(** A text with every surrogate that has no partner replaced by U+FFFD:
    what is left of a string after it went through UTF-8. *)
Fixpoint sanitize (s : jsstring) : jsstring :=
  match s with
  | [] => []
  | c :: r =>
      if is_high_surrogate c then
        match r with
        | l :: r' =>
            if is_low_surrogate l then c :: l :: sanitize r'
            else replacement :: sanitize r
        | [] => [replacement]
        end
      else if is_bmp_scalar c then c :: sanitize r
      else replacement :: sanitize r
  end.

(** Well-formed UTF-16: every surrogate is part of a pair. *)
Fixpoint well_formed_utf16 (s : jsstring) : bool :=
  match s with
  | [] => true
  | c :: r =>
      if is_high_surrogate c then
        match r with
        | l :: r' => is_low_surrogate l && well_formed_utf16 r'
        | [] => false
        end
      else is_bmp_scalar c && well_formed_utf16 r
  end.

(** The UTF-8 encoding of a text, as a buffer. *)
Definition utf8_buffer (s : jsstring) : buffer :=
  map byte_of_N (utf8_encode s).

(** A Unicode scalar value: a code point that is no surrogate. *)
Definition scalar_value (cp : N) : Prop :=
  (cp < 0xD800 \/ 0xE000 <= cp < 0x110000)%N.

(** The text the record file holds once the queued chunks are written. *)
Definition handed_text (w : world) (q : pending) : jsstring :=
  store_text w ++ pending_text q.

(** The lines of a text that is empty or ends with a newline, as
    [trim] and [split] read them when more text follows: leading white
    space is dropped, and the last newline ends the last line. *)
Definition complete_lines (text : jsstring) : list jsstring :=
  match trimStart text with
  | [] => []
  | t => split newline (removelast t)
  end.

(** The first two fields of the line of a row, with their commas. *)
Definition row_head (r : Row) : jsstring :=
  number_to_string (slot r)
  ++ comma :: number_to_string (proposerIndex r) ++ [comma].

(** ** Vocabulary for the scan *)

(** The row the scan records for a block. *)
Definition block_row (b : Block) : Row :=
  mkRow (parseInt (block_slot b)) (parseInt (block_proposerIndex b))
        (parseGraffiti (block_graffiti b)).

(** The chunks the scan hands to the write stream for the blocks of one
    answer, and the progress lines it prints for them. *)
Definition block_chunks (bs : list Block) : pending :=
  map (fun b => row_line (block_row b) ++ [newline]) bs.

Definition progress_lines (bs : list Block) : list jsstring :=
  map (fun b => str "slot " ++ block_slot b) bs.

(** The blocks the beacon node answers for a slot, a failed request
    counting for none. *)
Definition answer (beacon : number -> result (list Block) * bool)
  (s : number) : list Block :=
  match fst (beacon s) with
  | Ok bs => bs
  | Throw _ => []
  end.

(** The slot at which a run starts its scan: the one after the
    checkpoint of the store, or after [fromSlot] when the store has
    none. *)
Definition resume_slot (w : world) : number :=
  match fst (getLastSlot (snd (CsvRecord_new w))) with
  | Ok (Some n) => num_add n (Num 1)
  | _ => num_add fromSlot (Num 1)
  end.

(** What a part of the run leaves alone: the two output files and the
    log of explorer requests. *)
Definition same_outputs (w w' : world) : Prop :=
  indexes_file w' = indexes_file w
  /\ addresses_file w' = addresses_file w
  /\ explorer_log w' = explorer_log w.

(** The [i]-th slot from [z] on. *)
Definition slot_at (z : Z) (i : nat) : number := Num (z + Z.of_nat i).

(** How a scan that asked [k] slots from [z] on ended, read off the
    answer to the last slot it asked: with the error of that request, or
    normally. *)
Definition scan_outcome (beacon : number -> result (list Block) * bool)
  (z : Z) (k : nat) : result unit :=
  match k with
  | O => Ok tt
  | S k' =>
      match fst (beacon (slot_at z k')) with
      | Ok _ => Ok tt
      | Throw e => Throw e
      end
  end.

(** The result of a scan that ended with [outcome], the chunks [q]
    being still queued in the write stream. *)
Definition scan_result (outcome : result unit) (q : pending)
  : result pending :=
  match outcome with
  | Ok _ => Ok q
  | Throw e => Throw e
  end.

(** The chunks a scan hands to the write stream for the slots it
    asked. *)
Definition scan_chunks (beacon : number -> result (list Block) * bool)
  (fetched : list number) : pending :=
  flat_map (fun s => block_chunks (answer beacon s)) fetched.

(** Whether the interrupt flag is set after a scan that started with the
    flag clear and asked [k] slots from [z] on. *)
Definition scan_interrupted (beacon : number -> result (list Block) * bool)
  (z : Z) (k : nat) : bool :=
  match k with
  | O => false
  | S k' => snd (beacon (slot_at z k'))
  end.

(** The request for a slot was answered, and no interrupt arrived
    meanwhile. *)
Definition answered_quietly (beacon : number -> result (list Block) * bool)
  (s : number) : Prop :=
  exists bs, beacon s = (Ok bs, false).

(** A text of white space only. *)
Definition all_whitespace (s : jsstring) : Prop :=
  forallb is_whitespace s = true.

(** A store without rows: no file yet, a file of white space only, or
    the header line followed by white space only. *)
Definition no_rows (w : world) : Prop :=
  record_file w = None
  \/ (exists ws, record_file w = Some ws /\ all_whitespace ws)
  \/ (exists ws, record_file w = Some (header ++ ws) /\ all_whitespace ws).

(** A store whose last row does not start with a number. *)
Definition store_bad_checkpoint : jsstring :=
  header ++ [newline] ++ str "327700,5,dappnode" ++ [newline]
  ++ str "abc,1,x" ++ [newline].

(** A beacon node whose request for slot 442799 fails, and which answers
    every other slot with one block. *)
Definition beacon_failing_last (s : number) : result (list Block) * bool :=
  if number_eqb s (Num 442799) then (Throw RequestError, false)
  else (Ok [mkBlock (number_to_string s) (str "7") (str "ZGFwcG5vZGUsIHgAAAA=")],
        false).

(** ** Vocabulary for the record store *)

(** A row of two safe integers whose graffiti is well-formed UTF-16
    without a newline. *)
Definition well_formed_row (r : Row) : Prop :=
  exists s i,
    slot r = Num s /\ safe_integer s
    /\ proposerIndex r = Num i /\ safe_integer i
    /\ ~ In newline (graffiti r)
    /\ well_formed_utf16 (graffiti r) = true.

(** [for (const r of rows) record.addEntry(r)] *)
Definition addEntries (rows : list Row) (q : pending) : M pending :=
  for_of rows addEntry q.

(** Three rows; the graffiti of the second ends with a space and that of
    the third contains commas. *)
Definition three_rows : list Row :=
  [mkRow (Num 327601) (Num 5) (str "dappnode-x");
   mkRow (Num 327602) (Num 6) (str "other ");
   mkRow (Num 327604) (Num 5) (str "DAppNode, y,z")].

(** ** Vocabulary for the decoder and the resolver *)

(** Inside a multi-byte sequence the decoder cannot end on the code
    point zero: the code point read so far is positive, or the next byte
    must lie above [0x80]. *)
Definition utf8_state_ok (st : option utf8_state) : Prop :=
  match st with
  | None => True
  | Some s => (0 < u_cp s \/ 128 < u_lower s)%N
  end.

(** The check of a lead byte: nothing it emits is zero and the state it
    enters satisfies [utf8_state_ok]. *)
Definition utf8_lead_check (b : N) : bool :=
  N.eqb b 0
  || (negb (existsb (N.eqb 0) (fst (utf8_lead b)))
      && match snd (utf8_lead b) with
         | None => true
         | Some s => N.ltb 0 (u_cp s) || N.ltb 128 (u_lower s)
         end).

(** A store with two rows, the first selected by the filter, whose
    checkpoint is [toSlot]. *)
Definition store_finished : jsstring :=
  header ++ [newline] ++ str "327700,5,dappnode" ++ [newline]
  ++ str "442799,6,x" ++ [newline].

(** An explorer whose every request fails. *)
Definition explorer_down (indexes : list number) : result (list Deposit) :=
  Throw RequestError.

(** A beacon node without any block. *)
Definition beacon_empty (s : number) : result (list Block) * bool :=
  (Ok [], false).

(** * Evaluation on concrete inputs *)

Example parseInt_ex1 : parseInt (str " -12abc") = Num (-12).
Proof. reflexivity. Qed.
Example parseInt_ex2 : parseInt (str "0x1F,") = Num 31.
Proof. reflexivity. Qed.
Example parseInt_ex3 : parseInt (str "slot") = NaN.
Proof. reflexivity. Qed.
Example to_string_ex1 : number_to_string (Num (-3276)) = str "-3276".
Proof. reflexivity. Qed.
Example split_ex1 :
  split comma (str "1,2,a,b") = [str "1"; str "2"; str "a"; str "b"].
Proof. reflexivity. Qed.
Example trim_ex1 : trim (str "  a b
 ") = str "a b".
Proof. reflexivity. Qed.
Example parseGraffiti_ex1 : parseGraffiti (str "dGVzdAAAAAA=") = str "test".
Proof. reflexivity. Qed.
Example parseGraffiti_ex2 :
  parseGraffiti (str "QlRDUyBadWcgdmFsaWRhdG9yAAAAAAAAAAAAAAAAAAA=")
  = str "BTCS Zug validator".
Proof. reflexivity. Qed.
Example utf8_ex1 :
  utf8_decode_from None [0xE2; 0x82; 0xAC; 0xF0; 0x9F; 0x98; 0x80; 0xFF; 0xE2; 0x41]%N
  = [0x20AC; 0xD83D; 0xDE00; 0xFFFD; 0xFFFD; 0x41]%N.
Proof. reflexivity. Qed.
Example regexp_ex1 : regexp_test_i graffitiToMatch (str "xx DAppNode-y") = true.
Proof. reflexivity. Qed.
Example regexp_ex2 : regexp_test_i graffitiToMatch (str "dapp node") = false.
Proof. reflexivity. Qed.

(** * Properties *)

(** ** Strings *)

Lemma char_eqb_eq (a b : char) : char_eqb a b = true <-> a = b.
Proof. apply N.eqb_eq. Qed.

Lemma char_eqb_refl (a : char) : char_eqb a a = true.
Proof. apply N.eqb_refl. Qed.

Lemma char_eqb_neq (a b : char) : char_eqb a b = false <-> a <> b.
Proof. apply N.eqb_neq. Qed.

Lemma jsstring_eqb_eq (a b : jsstring) : jsstring_eqb a b = true <-> a = b.
Proof.
  revert b. induction a as [|x a IH]; intros [|y b]; simpl;
    try (split; [discriminate | congruence]); [tauto|].
  rewrite andb_true_iff, char_eqb_eq, IH.
  split; [intros [-> ->]; reflexivity | intros H; inversion H; auto].
Qed.

Lemma split_not_nil (c : char) (s : jsstring) : split c s <> [].
Proof.
  destruct s as [|x r]; simpl; [discriminate|].
  destruct (char_eqb x c); [discriminate|].
  destruct (split c r); discriminate.
Qed.

Lemma split_app (c : char) (a b : jsstring) :
  split c (a ++ c :: b) = split c a ++ split c b.
Proof.
  induction a as [|x a IH]; simpl.
  - rewrite char_eqb_refl. reflexivity.
  - destruct (char_eqb x c); rewrite IH; [reflexivity|].
    pose proof (split_not_nil c a) as Hne.
    destruct (split c a); [contradiction | reflexivity].
Qed.

Lemma split_no_sep (c : char) (s : jsstring) :
  ~ In c s -> split c s = [s].
Proof.
  induction s as [|x r IH]; simpl; intros Hn; [reflexivity|].
  destruct (char_eqb x c) eqn:E.
  - apply char_eqb_eq in E. exfalso. apply Hn. left. exact E.
  - rewrite IH; [reflexivity | tauto].
Qed.

Lemma split_pieces_no_sep (c : char) (s p : jsstring) :
  In p (split c s) -> ~ In c p.
Proof.
  revert p. induction s as [|x r IH]; simpl; intros p Hp.
  - destruct Hp as [<-|[]]. simpl. tauto.
  - destruct (char_eqb x c) eqn:E.
    + destruct Hp as [<-|Hp]; [simpl; tauto | apply IH; exact Hp].
    + apply char_eqb_neq in E.
      destruct (split c r) as [|q qs] eqn:Es.
      * destruct Hp as [<-|[]]. simpl. intros [H|[]]. congruence.
      * destruct Hp as [<-|Hp].
        -- simpl. intros [H|H]; [congruence|].
           apply (IH q); [left; reflexivity | exact H].
        -- apply IH. right. exact Hp.
Qed.

Lemma join_split (c : char) (s : jsstring) : join [c] (split c s) = s.
Proof.
  induction s as [|x r IH]; simpl; [reflexivity|].
  destruct (char_eqb x c) eqn:E.
  - apply char_eqb_eq in E. subst x.
    pose proof (split_not_nil c r) as Hne.
    destruct (split c r) as [|q qs]; [contradiction|].
    simpl in *. rewrite IH. reflexivity.
  - destruct (split c r) as [|q qs] eqn:Es.
    + exfalso. exact (split_not_nil c r Es).
    + simpl in *. destruct qs; simpl in *; rewrite <- IH; reflexivity.
Qed.

Lemma trimEnd_app (a b : jsstring) :
  trimEnd (a ++ b) =
  match trimEnd b with
  | [] => trimEnd a
  | _ => a ++ trimEnd b
  end.
Proof.
  induction a as [|x a IH]; simpl.
  - destruct (trimEnd b); reflexivity.
  - rewrite IH. destruct (trimEnd b); [reflexivity|].
    destruct a; reflexivity.
Qed.

Lemma trimEnd_fixed_app (a b : jsstring) :
  b <> [] -> trimEnd b = b -> trimEnd (a ++ b) = a ++ b.
Proof.
  intros Hne Hb. rewrite trimEnd_app, Hb.
  destruct b; [contradiction | reflexivity].
Qed.

Lemma trimStart_app (a b : jsstring) :
  trimStart b = b -> trimStart (a ++ b) = trimStart a ++ b.
Proof.
  intros Hb. induction a as [|x a IH]; simpl; [exact Hb|].
  destruct (is_whitespace x); [exact IH | reflexivity].
Qed.

(** What [trimStart] leaves is a suffix. *)
Lemma trimStart_suffix (s : jsstring) :
  exists p, s = p ++ trimStart s /\ forallb is_whitespace p = true.
Proof.
  induction s as [|x r (p & Hp & Hw)]; simpl.
  - exists []. split; reflexivity.
  - destruct (is_whitespace x) eqn:E.
    + exists (x :: p). simpl. rewrite E, Hw. split; [congruence | reflexivity].
    + exists []. split; reflexivity.
Qed.

Lemma trimStart_idem (s : jsstring) : trimStart (trimStart s) = trimStart s.
Proof.
  induction s as [|x r IH]; simpl; [reflexivity|].
  destruct (is_whitespace x) eqn:E; [exact IH | simpl; rewrite E; reflexivity].
Qed.

Lemma In_split_piece (c x : char) (s p : jsstring) :
  In p (split c s) -> In x p -> In x s.
Proof.
  revert p. induction s as [|y r IH]; simpl; intros p Hp Hx.
  - destruct Hp as [<-|[]]. exact Hx.
  - destruct (char_eqb y c).
    + destruct Hp as [<-|Hp]; [destruct Hx | right; eapply IH; eassumption].
    + destruct (split c r) as [|q qs].
      * destruct Hp as [<-|[]]. destruct Hx as [->|[]]. left. reflexivity.
      * destruct Hp as [<-|Hp].
        -- destruct Hx as [->|Hx]; [left; reflexivity|].
           right. apply (IH q); [left; reflexivity | exact Hx].
        -- right. apply (IH p); [right; exact Hp | exact Hx].
Qed.

Lemma In_join (x : char) (sep : jsstring) (l : list jsstring) :
  In x (join sep l) -> In x sep \/ exists p, In p l /\ In x p.
Proof.
  induction l as [|p l IH]; simpl; [tauto|].
  destruct l as [|q l].
  - intros H. right. exists p. split; [left; reflexivity | exact H].
  - intros H. apply in_app_or in H. destruct H as [H|H].
    + right. exists p. split; [left; reflexivity | exact H].
    + apply in_app_or in H. destruct H as [H|H]; [left; exact H|].
      destruct (IH H) as [H'|(p' & Hp' & Hx)]; [left; exact H'|].
      right. exists p'. split; [right; exact Hp' | exact Hx].
Qed.

Lemma In_skipn {A : Type} (n : nat) (l : list A) (x : A) :
  In x (skipn n l) -> In x l.
Proof.
  revert l. induction n as [|n IH]; intros [|y l]; simpl; auto.
Qed.

(** ** The record store *)

Lemma addEntry_run (r : Row) (q : pending) (w : world) :
  addEntry r q w
  = (Ok (q ++ [row_line r ++ [newline]]),
     if record_stream w then w else set_record_stream true w).
Proof. reflexivity. Qed.

Lemma pending_text_app (a b : pending) :
  pending_text (a ++ b) = pending_text a ++ pending_text b.
Proof. unfold pending_text. rewrite map_app, concat_app. reflexivity. Qed.

Lemma store_text_write_chunks (chunks : pending) (w : world) :
  store_text (write_chunks chunks w) = store_text w ++ pending_text chunks.
Proof.
  destruct chunks as [|c chunks].
  - cbn [write_chunks]. unfold pending_text. cbn [map List.concat].
    rewrite app_nil_r. reflexivity.
  - reflexivity.
Qed.

Lemma record_file_write_chunks (chunks : pending) (w : world) :
  chunks <> [] ->
  record_file (write_chunks chunks w)
  = Some (store_text w ++ pending_text chunks).
Proof. destruct chunks; [contradiction | reflexivity]. Qed.

(** The file once a row was appended and the stream has drained. *)
Lemma append_drain_file (r : Row) (q : pending) (w : world) :
  record_file (snd ((q' <- addEntry r q ;; drain q') w))
  = Some (handed_text w q ++ written_text (row_line r ++ [newline])).
Proof.
  unfold bind. rewrite addEntry_run. unfold drain. cbn [snd].
  rewrite record_file_write_chunks by (destruct q; discriminate).
  rewrite pending_text_app. unfold handed_text, pending_text at 2.
  cbn [map List.concat]. rewrite app_nil_r, app_assoc.
  destruct (record_stream w); reflexivity.
Qed.

Lemma readEntries_run (w : world) (content : jsstring) :
  record_file w = Some content ->
  readEntries w = (Ok (map parse_row (split newline (trim content))), w).
Proof.
  intros H. unfold readEntries, bind, readFileSync_record, ret.
  rewrite H. reflexivity.
Qed.

Lemma readEntries_missing (w : world) :
  record_file w = None -> readEntries w = (Throw ENOENT, w).
Proof.
  intros H. unfold readEntries, bind, readFileSync_record. rewrite H.
  reflexivity.
Qed.

Lemma parse_row_graffiti_chars (row : jsstring) (x : char) :
  In x (graffiti (parse_row row)) -> In x row.
Proof.
  unfold parse_row. cbn [graffiti]. intros H.
  destruct (in_dec N.eq_dec comma row) as [Hc|Hc].
  - apply In_join in H. destruct H as [H|(p & Hp & Hx)].
    + destruct H as [<-|[]]. exact Hc.
    + apply In_skipn in Hp. eapply In_split_piece; eassumption.
  - rewrite (split_no_sep _ _ Hc) in H. destruct H.
Qed.

(** ** UTF-8: the decoder inverts the encoder *)

Ltac n_divmod := zify; Z.to_euclidean_division_equations; lia.

Lemma utf8_lead_1 (b : N) : (b < 0x80)%N -> utf8_lead b = ([b], None).
Proof.
  intros H. unfold utf8_lead.
  destruct (N.ltb_spec b 0x80); [reflexivity | lia].
Qed.

Lemma utf8_lead_2 (b : N) :
  (0xC2 <= b <= 0xDF)%N ->
  utf8_lead b = ([], Some (mk_utf8_state (b - 0xC0) 1 0x80 0xBF)).
Proof.
  intros H. unfold utf8_lead.
  destruct (N.ltb_spec b 0x80); [lia|].
  destruct (N.leb_spec 0xC2 b); [|lia].
  destruct (N.leb_spec b 0xDF); [reflexivity | lia].
Qed.

Lemma utf8_lead_3 (b : N) :
  (0xE0 <= b <= 0xEF)%N ->
  utf8_lead b
  = ([], Some (mk_utf8_state (b - 0xE0) 2
                 (if (b =? 0xE0)%N then 0xA0 else 0x80)
                 (if (b =? 0xED)%N then 0x9F else 0xBF))).
Proof.
  intros H. unfold utf8_lead.
  destruct (N.ltb_spec b 0x80); [lia|].
  destruct (N.leb_spec 0xC2 b); [|lia].
  destruct (N.leb_spec b 0xDF); [lia|]. cbn [andb].
  destruct (N.leb_spec 0xE0 b); [|lia].
  destruct (N.leb_spec b 0xEF); [reflexivity | lia].
Qed.

Lemma utf8_lead_4 (b : N) :
  (0xF0 <= b <= 0xF4)%N ->
  utf8_lead b
  = ([], Some (mk_utf8_state (b - 0xF0) 3
                 (if (b =? 0xF0)%N then 0x90 else 0x80)
                 (if (b =? 0xF4)%N then 0x8F else 0xBF))).
Proof.
  intros H. unfold utf8_lead.
  destruct (N.ltb_spec b 0x80); [lia|].
  destruct (N.leb_spec 0xC2 b); [|lia].
  destruct (N.leb_spec b 0xDF); [lia|]. cbn [andb].
  destruct (N.leb_spec 0xE0 b); [|lia].
  destruct (N.leb_spec b 0xEF); [lia|]. cbn [andb].
  destruct (N.leb_spec 0xF0 b); [|lia].
  destruct (N.leb_spec b 0xF4); [reflexivity | lia].
Qed.

(** A continuation byte in the range the decoder expects. *)
Lemma utf8_continue (cp : N) (n : nat) (lo hi b : N) (r : list N) :
  (lo <= b <= hi)%N ->
  utf8_decode_from (Some (mk_utf8_state cp (S n) lo hi)) (b :: r)
  = match n with
    | O => code_units (cp * 64 + (b - 0x80)) ++ utf8_decode_from None r
    | S _ =>
        utf8_decode_from
          (Some (mk_utf8_state (cp * 64 + (b - 0x80)) n 0x80 0xBF)) r
    end.
Proof.
  intros H. cbn [utf8_decode_from u_lower u_upper u_cp u_needed].
  destruct (N.leb_spec lo b); [|lia].
  destruct (N.leb_spec b hi); [|lia]. cbn [andb].
  destruct n; reflexivity.
Qed.

Lemma utf8_decode_lead (b : N) (r : list N) :
  utf8_decode_from None (b :: r)
  = fst (utf8_lead b) ++ utf8_decode_from (snd (utf8_lead b)) r.
Proof. cbn [utf8_decode_from]. destruct (utf8_lead b). reflexivity. Qed.

(** The decoder reads the bytes of a scalar value as that value. *)
Lemma decode_scalar_value (cp : N) (bs : list N) :
  scalar_value cp ->
  utf8_decode_from None (utf8_bytes_of cp ++ bs)
  = code_units cp ++ utf8_decode_from None bs.
Proof.
  unfold scalar_value, utf8_bytes_of. intros Hcp.
  destruct (N.ltb_spec cp 0x80) as [H1|H1].
  - cbn [app]. rewrite utf8_decode_lead, utf8_lead_1 by exact H1.
    cbn [fst snd app]. unfold code_units.
    destruct (N.ltb_spec cp 0x10000); [reflexivity | lia].
  - destruct (N.ltb_spec cp 0x800) as [H2|H2].
    + cbn [app]. rewrite utf8_decode_lead, utf8_lead_2 by n_divmod.
      cbn [fst snd app]. rewrite utf8_continue by n_divmod.
      replace ((0xC0 + cp / 64 - 0xC0) * 64 + (0x80 + cp mod 64 - 0x80))%N
        with cp by n_divmod.
      reflexivity.
    + destruct (N.ltb_spec cp 0x10000) as [H3|H3].
      * cbn [app]. rewrite utf8_decode_lead, utf8_lead_3 by n_divmod.
        cbn [fst snd app].
        rewrite utf8_continue.
        2:{ destruct (N.eqb_spec (0xE0 + cp / 4096) 0xE0);
            destruct (N.eqb_spec (0xE0 + cp / 4096) 0xED); n_divmod. }
        rewrite utf8_continue by n_divmod.
        replace (((0xE0 + cp / 4096 - 0xE0) * 64
                  + (0x80 + (cp / 64) mod 64 - 0x80)) * 64
                 + (0x80 + cp mod 64 - 0x80))%N with cp by n_divmod.
        reflexivity.
      * cbn [app]. rewrite utf8_decode_lead, utf8_lead_4 by n_divmod.
        cbn [fst snd app].
        rewrite utf8_continue.
        2:{ destruct (N.eqb_spec (0xF0 + cp / 262144) 0xF0);
            destruct (N.eqb_spec (0xF0 + cp / 262144) 0xF4); n_divmod. }
        rewrite utf8_continue by n_divmod.
        rewrite utf8_continue by n_divmod.
        replace ((((0xF0 + cp / 262144 - 0xF0) * 64
                   + (0x80 + (cp / 4096) mod 64 - 0x80)) * 64
                  + (0x80 + (cp / 64) mod 64 - 0x80)) * 64
                 + (0x80 + cp mod 64 - 0x80))%N with cp by n_divmod.
        reflexivity.
Qed.

Lemma bmp_scalar_bounds (c : char) :
  is_bmp_scalar c = true -> (c < 0xD800 \/ 0xE000 <= c < 0x10000)%N.
Proof.
  unfold is_bmp_scalar. intros H.
  apply orb_prop in H. destruct H as [H|H].
  - apply N.ltb_lt in H. left. exact H.
  - apply andb_prop in H. destruct H as [H1 H2].
    apply N.leb_le in H1. apply N.ltb_lt in H2. right. lia.
Qed.

Lemma code_units_bmp (c : char) : is_bmp_scalar c = true -> code_units c = [c].
Proof.
  intros H. apply bmp_scalar_bounds in H. unfold code_units.
  destruct (N.ltb_spec c 0x10000); [reflexivity | lia].
Qed.

Lemma bmp_scalar_value (c : char) : is_bmp_scalar c = true -> scalar_value c.
Proof.
  intros H. apply bmp_scalar_bounds in H. unfold scalar_value. lia.
Qed.

Lemma surrogate_bounds (h l : char) :
  is_high_surrogate h = true -> is_low_surrogate l = true ->
  (0xD800 <= h <= 0xDBFF /\ 0xDC00 <= l <= 0xDFFF)%N.
Proof.
  unfold is_high_surrogate, is_low_surrogate. intros Hh Hl.
  apply andb_prop in Hh. apply andb_prop in Hl.
  destruct Hh as [H1 H2]. destruct Hl as [H3 H4].
  apply N.leb_le in H1, H2, H3, H4. lia.
Qed.

Lemma code_units_pair (h l : char) :
  is_high_surrogate h = true -> is_low_surrogate l = true ->
  scalar_value (0x10000 + (h - 0xD800) * 0x400 + (l - 0xDC00))
  /\ code_units (0x10000 + (h - 0xD800) * 0x400 + (l - 0xDC00)) = [h; l].
Proof.
  intros Hh Hl. destruct (surrogate_bounds h l Hh Hl) as [Bh Bl].
  split; [right; lia|]. unfold code_units.
  destruct (N.ltb_spec (0x10000 + (h - 0xD800) * 0x400 + (l - 0xDC00)) 0x10000);
    [lia|].
  f_equal; [n_divmod|]. f_equal. n_divmod.
Qed.

Lemma decode_replacement (bs : list N) :
  utf8_decode_from None (utf8_bytes_of replacement ++ bs)
  = replacement :: utf8_decode_from None bs.
Proof.
  rewrite decode_scalar_value; [reflexivity|].
  right. unfold replacement. lia.
Qed.

(** Induction on a list two elements at a time. *)
Lemma list_pair_ind {A : Type} (P : list A -> Prop) :
  P [] ->
  (forall c, P [c]) ->
  (forall c l r, P r -> P (l :: r) -> P (c :: l :: r)) ->
  forall s, P s.
Proof.
  intros H0 H1 H2 s.
  assert (H : P s /\ forall c, P (c :: s)).
  { induction s as [|x s [IH1 IH2]].
    - split; [exact H0 | exact H1].
    - split; [apply IH2|]. intros c. apply H2; [exact IH1 | apply IH2]. }
  exact (proj1 H).
Qed.

(** Decoding what was encoded gives the text back, with U+FFFD for each
    surrogate that has no partner. *)
Lemma decode_encode (s : jsstring) :
  forall bs,
    utf8_decode_from None (utf8_encode s ++ bs)
    = sanitize s ++ utf8_decode_from None bs.
Proof.
  induction s as [|c|c l r IHr IHl] using list_pair_ind; intros bs.
  - reflexivity.
  - cbn [utf8_encode sanitize].
    destruct (is_high_surrogate c).
    + rewrite decode_replacement. reflexivity.
    + destruct (is_bmp_scalar c) eqn:Hc.
      * rewrite <- app_assoc, decode_scalar_value by (apply bmp_scalar_value; exact Hc).
        rewrite code_units_bmp by exact Hc. reflexivity.
      * rewrite <- app_assoc, decode_replacement. reflexivity.
  - change (utf8_encode (c :: l :: r)) with
      (if is_high_surrogate c then
         if is_low_surrogate l then
           utf8_bytes_of (0x10000 + (c - 0xD800) * 0x400 + (l - 0xDC00))%N
           ++ utf8_encode r
         else utf8_bytes_of replacement ++ utf8_encode (l :: r)
       else if is_bmp_scalar c then utf8_bytes_of c ++ utf8_encode (l :: r)
       else utf8_bytes_of replacement ++ utf8_encode (l :: r)).
    change (sanitize (c :: l :: r)) with
      (if is_high_surrogate c then
         if is_low_surrogate l then c :: l :: sanitize r
         else replacement :: sanitize (l :: r)
       else if is_bmp_scalar c then c :: sanitize (l :: r)
       else replacement :: sanitize (l :: r)).
    destruct (is_high_surrogate c) eqn:Hh.
    + destruct (is_low_surrogate l) eqn:Hl.
      * destruct (code_units_pair c l Hh Hl) as [Hs Hu].
        rewrite <- app_assoc, decode_scalar_value by exact Hs.
        rewrite Hu, IHr. reflexivity.
      * rewrite <- app_assoc, decode_replacement, IHl. reflexivity.
    + destruct (is_bmp_scalar c) eqn:Hc.
      * rewrite <- app_assoc, decode_scalar_value by (apply bmp_scalar_value; exact Hc).
        rewrite code_units_bmp by exact Hc. rewrite IHl. reflexivity.
      * rewrite <- app_assoc, decode_replacement, IHl. reflexivity.
Qed.

Lemma written_text_sanitize (s : jsstring) : written_text s = sanitize s.
Proof.
  unfold written_text.
  rewrite <- (app_nil_r (utf8_encode s)), decode_encode.
  apply app_nil_r.
Qed.

Lemma sanitize_well_formed (s : jsstring) :
  well_formed_utf16 s = true -> sanitize s = s.
Proof.
  induction s as [|c|c l r IHr IHl] using list_pair_ind.
  - reflexivity.
  - cbn [well_formed_utf16 sanitize].
    destruct (is_high_surrogate c); [discriminate|].
    destruct (is_bmp_scalar c); [reflexivity | discriminate].
  - change (well_formed_utf16 (c :: l :: r)) with
      (if is_high_surrogate c then is_low_surrogate l && well_formed_utf16 r
       else is_bmp_scalar c && well_formed_utf16 (l :: r)).
    change (sanitize (c :: l :: r)) with
      (if is_high_surrogate c then
         if is_low_surrogate l then c :: l :: sanitize r
         else replacement :: sanitize (l :: r)
       else if is_bmp_scalar c then c :: sanitize (l :: r)
       else replacement :: sanitize (l :: r)).
    destruct (is_high_surrogate c).
    + destruct (is_low_surrogate l); [|discriminate].
      cbn [andb]. intros H. rewrite IHr by exact H. reflexivity.
    + destruct (is_bmp_scalar c); [|discriminate].
      cbn [andb]. intros H. rewrite IHl by exact H. reflexivity.
Qed.

Lemma bmp_scalar_not_high (c : char) :
  is_bmp_scalar c = true -> is_high_surrogate c = false.
Proof.
  intros Hc. apply bmp_scalar_bounds in Hc. unfold is_high_surrogate.
  destruct (N.leb_spec 0xD800 c); [|reflexivity].
  destruct (N.leb_spec c 0xDBFF); [lia | reflexivity].
Qed.

Lemma bmp_scalar_not_low (c : char) :
  is_bmp_scalar c = true -> is_low_surrogate c = false.
Proof.
  intros Hc. apply bmp_scalar_bounds in Hc. unfold is_low_surrogate.
  destruct (N.leb_spec 0xDC00 c); [|reflexivity].
  destruct (N.leb_spec c 0xDFFF); [lia | reflexivity].
Qed.

(** A code unit that is no surrogate is kept, whatever is around it. *)
Lemma sanitize_cons_scalar (c : char) (s : jsstring) :
  is_bmp_scalar c = true -> sanitize (c :: s) = c :: sanitize s.
Proof.
  intros Hc. cbn [sanitize].
  rewrite (bmp_scalar_not_high c Hc), Hc. reflexivity.
Qed.

Lemma sanitize_app_scalar (a : jsstring) (c : char) (b : jsstring) :
  is_bmp_scalar c = true ->
  sanitize (a ++ c :: b) = sanitize a ++ c :: sanitize b.
Proof.
  intros Hc.
  induction a as [|x|x l r IHr IHl] using list_pair_ind.
  - apply sanitize_cons_scalar, Hc.
  - cbn [app]. change (sanitize (x :: c :: b)) with
      (if is_high_surrogate x then
         if is_low_surrogate c then x :: c :: sanitize b
         else replacement :: sanitize (c :: b)
       else if is_bmp_scalar x then x :: sanitize (c :: b)
       else replacement :: sanitize (c :: b)).
    rewrite (bmp_scalar_not_low c Hc), (sanitize_cons_scalar c b Hc).
    cbn [sanitize].
    destruct (is_high_surrogate x); [reflexivity|].
    destruct (is_bmp_scalar x); reflexivity.
  - cbn [app] in *.
    change (sanitize (x :: l :: r ++ c :: b)) with
      (if is_high_surrogate x then
         if is_low_surrogate l then x :: l :: sanitize (r ++ c :: b)
         else replacement :: sanitize (l :: r ++ c :: b)
       else if is_bmp_scalar x then x :: sanitize (l :: r ++ c :: b)
       else replacement :: sanitize (l :: r ++ c :: b)).
    change (sanitize (x :: l :: r)) with
      (if is_high_surrogate x then
         if is_low_surrogate l then x :: l :: sanitize r
         else replacement :: sanitize (l :: r)
       else if is_bmp_scalar x then x :: sanitize (l :: r)
       else replacement :: sanitize (l :: r)).
    rewrite IHr, IHl.
    destruct (is_high_surrogate x); [destruct (is_low_surrogate l)|
                                     destruct (is_bmp_scalar x)];
      reflexivity.
Qed.

(** A text of code units below 128. *)
Lemma sanitize_ascii_app (a b : jsstring) :
  Forall (fun c => (c < 128)%N) a -> sanitize (a ++ b) = a ++ sanitize b.
Proof.
  induction 1 as [|x a Hx Ha IH]; [reflexivity|].
  cbn [app]. rewrite sanitize_cons_scalar, IH; [reflexivity|].
  unfold is_bmp_scalar. apply orb_true_intro. left. apply N.ltb_lt. lia.
Qed.

Lemma In_sanitize (x : char) (s : jsstring) :
  In x (sanitize s) -> In x s \/ x = replacement.
Proof.
  induction s as [|c|c l r IHr IHl] using list_pair_ind.
  - intros [].
  - cbn [sanitize]. destruct (is_high_surrogate c).
    + intros [<-|[]]. right. reflexivity.
    + destruct (is_bmp_scalar c); intros [<-|[]];
        [left; left; reflexivity | right; reflexivity].
  - change (sanitize (c :: l :: r)) with
      (if is_high_surrogate c then
         if is_low_surrogate l then c :: l :: sanitize r
         else replacement :: sanitize (l :: r)
       else if is_bmp_scalar c then c :: sanitize (l :: r)
       else replacement :: sanitize (l :: r)).
    destruct (is_high_surrogate c); [destruct (is_low_surrogate l)|
                                     destruct (is_bmp_scalar c)].
    + intros [<-|[<-|H]]; [left; left; reflexivity
                          |left; right; left; reflexivity|].
      destruct (IHr H) as [H'|H']; [left; right; right; exact H' | right; exact H'].
    + intros [<-|H]; [right; reflexivity|].
      destruct (IHl H) as [H'|H']; [left; right; exact H' | right; exact H'].
    + intros [<-|H]; [left; left; reflexivity|].
      destruct (IHl H) as [H'|H']; [left; right; exact H' | right; exact H'].
    + intros [<-|H]; [right; reflexivity|].
      destruct (IHl H) as [H'|H']; [left; right; exact H' | right; exact H'].
Qed.

Lemma readEntries_fst (w : world) :
  fst (readEntries w)
  = match record_file w with
    | Some content => Ok (map parse_row (split newline (trim content)))
    | None => Throw ENOENT
    end.
Proof.
  unfold readEntries, bind, readFileSync_record, ret.
  destruct (record_file w); reflexivity.
Qed.

Lemma bind_assoc_fst {A B C : Type} (m : M A) (k : A -> M B) (h : M C)
  (w : world) :
  fst ((x <- m ;; k x ;;; h) w)
  = match (x <- m ;; k x) w with
    | (Ok _, w') => fst (h w')
    | (Throw e, _) => Throw e
    end.
Proof.
  unfold bind. destruct (m w) as [[a|e] w1]; [|reflexivity].
  destruct (k a w1) as [[b|e] w2]; reflexivity.
Qed.

(** A read in the same tick as the write does not see the row. *)
Lemma readEntries_at_once (r : Row) (q : pending) (w : world) :
  fst ((q' <- addEntry r q ;; readEntries) w) = fst (readEntries w).
Proof.
  unfold bind. rewrite addEntry_run. rewrite !readEntries_fst.
  destruct (record_stream w); reflexivity.
Qed.

Lemma readEntries_after_drain (r : Row) (q : pending) (w : world) :
  fst ((q' <- addEntry r q ;; drain q' ;;; readEntries) w)
  = Ok (map parse_row
          (split newline
             (trim (handed_text w q
                    ++ written_text (row_line r ++ [newline]))))).
Proof.
  rewrite bind_assoc_fst.
  pose proof (append_drain_file r q w) as Hfile.
  destruct ((q' <- addEntry r q ;; drain q') w) as [[[]|e] w'] eqn:E.
  - cbn [snd] in Hfile. rewrite readEntries_fst, Hfile. reflexivity.
  - unfold bind in E. rewrite addEntry_run in E. discriminate E.
Qed.

Lemma rows_read_have_no_newline (content : jsstring) (r : Row) :
  In r (map parse_row (split newline (trim content))) ->
  ~ In newline (graffiti r).
Proof.
  intros Hr Hn. apply in_map_iff in Hr. destruct Hr as (line & <- & Hline).
  apply parse_row_graffiti_chars in Hn.
  exact (split_pieces_no_sep _ _ _ Hline Hn).
Qed.

(** C2.  On a store that was just created, [readEntries] returns one
    row, the one it parsed from the header line. *)
Theorem readEntries_fresh_store :
  fst ((CsvRecord_new ;;; readEntries) empty_world) = Ok [header_row].
Proof. reflexivity. Qed.

Lemma digit_value_decimal (c : char) :
  digit_value 10 c = if is_decimal_digit c then Some (c - 48)%N else None.
Proof.
  unfold digit_value, is_decimal_digit.
  destruct ((48 <=? c) && (c <=? 57))%N eqn:E.
  - apply andb_prop in E. destruct E as [E1 E2].
    apply N.leb_le in E1. apply N.leb_le in E2.
    destruct (c - 48 <? 10)%N eqn:E3; [reflexivity|].
    apply N.ltb_ge in E3. lia.
  - destruct ((97 <=? c) && (c <=? 122))%N eqn:E1.
    + apply andb_prop in E1. destruct E1 as [E1 _]. apply N.leb_le in E1.
      destruct (c - 87 <? 10)%N eqn:E3; [|reflexivity].
      apply N.ltb_lt in E3. lia.
    + destruct ((65 <=? c) && (c <=? 90))%N eqn:E2; [|reflexivity].
      apply andb_prop in E2. destruct E2 as [E2 _]. apply N.leb_le in E2.
      destruct (c - 55 <? 10)%N eqn:E3; [|reflexivity].
      apply N.ltb_lt in E3. lia.
Qed.

Lemma parse_radix_no_zero (c : char) (r : jsstring) :
  c <> chr "0" -> parse_radix (c :: r) = (10%N, c :: r).
Proof.
  intros Hc. apply char_eqb_neq in Hc. unfold parse_radix.
  destruct r; [reflexivity|]. rewrite Hc. reflexivity.
Qed.

Lemma parseInt_non_numeric (f : option jsstring) :
  non_numeric f -> parseInt_elem f = NaN.
Proof.
  destruct f as [f|]; [|reflexivity].
  unfold non_numeric, parseInt_elem, parseInt.
  destruct (parse_sign (trimStart f)) as [sign s2]. simpl.
  destruct s2 as [|c r]; [reflexivity|]. intros Hc.
  rewrite parse_radix_no_zero by (intros ->; discriminate Hc).
  simpl. rewrite digit_value_decimal, Hc. reflexivity.
Qed.

Lemma NaN_slot_not_selected (r : Row) : slot r = NaN -> selected r = false.
Proof. intros H. unfold selected. rewrite H. reflexivity. Qed.

(** C3 as stated fails: a store with the malformed line [abc,def,x] is
    read back without any error. *)
Lemma malformed_line_counterexample :
  In (str "abc,def,x") (split newline (trim malformed_store))
  /\ non_numeric (field 0 (str "abc,def,x"))
  /\ non_numeric (field 1 (str "abc,def,x"))
  /\ ~ (exists e, fst (readEntries (world_with_record malformed_store)) = Throw e).
Proof.
  split; [right; left; reflexivity|].
  split; [reflexivity|]. split; [reflexivity|].
  intros [e He]. discriminate He.
Qed.

(** C3, amended.  Reading back an existing store never fails: it returns
    one record for each line of the trimmed text and leaves the world as
    it is; a slot or proposer index field that does not read as a number
    becomes [NaN], and a record whose slot is [NaN] is not selected by
    the aggregation. *)
Theorem readEntries_never_parse_error (w : world) (content : jsstring) :
  record_file w = Some content ->
  readEntries w = (Ok (map parse_row (split newline (trim content))), w)
  /\ forall line : jsstring,
       (non_numeric (field 0 line) -> slot (parse_row line) = NaN)
       /\ (non_numeric (field 1 line) -> proposerIndex (parse_row line) = NaN)
       /\ (slot (parse_row line) = NaN -> selected (parse_row line) = false).
Proof.
  intros Hfile. split; [apply readEntries_run; exact Hfile|].
  intros line. repeat split.
  - apply parseInt_non_numeric.
  - apply parseInt_non_numeric.
  - apply NaN_slot_not_selected.
Qed.

Lemma readEntries_never_parse_error_witness :
  readEntries (world_with_record malformed_store)
  = (Ok [header_row; mkRow NaN NaN (str "x")], world_with_record malformed_store)
  /\ forall line : jsstring,
       (non_numeric (field 0 line) -> slot (parse_row line) = NaN)
       /\ (non_numeric (field 1 line) -> proposerIndex (parse_row line) = NaN)
       /\ (slot (parse_row line) = NaN -> selected (parse_row line) = false).
Proof.
  apply (readEntries_never_parse_error
           (world_with_record malformed_store) malformed_store).
  reflexivity.
Defined.

(** ** Sets in insertion order *)

Section SetAdd.

Context {A : Type}.
Variable eqb : A -> A -> bool.
Hypothesis eqb_eq : forall a b, eqb a b = true <-> a = b.

Lemma existsb_eqb (x : A) (s : list A) :
  existsb (eqb x) s = true <-> In x s.
Proof.
  rewrite existsb_exists. split.
  - intros (y & Hy & E). apply eqb_eq in E. subst y. exact Hy.
  - intros H. exists x. split; [exact H | apply eqb_eq; reflexivity].
Qed.

Lemma eqb_sym (a b : A) : eqb a b = eqb b a.
Proof.
  destruct (eqb a b) eqn:E1, (eqb b a) eqn:E2; try reflexivity.
  - apply eqb_eq in E1. subst. rewrite (proj2 (eqb_eq b b) eq_refl) in E2.
    discriminate.
  - apply eqb_eq in E2. subst. rewrite (proj2 (eqb_eq a a) eq_refl) in E1.
    discriminate.
Qed.

Lemma filter_known (x : A) (acc t : list A) :
  existsb (eqb x) acc = true ->
  filter (fun y => negb (existsb (eqb y) acc))
    (filter (fun y => negb (eqb y x)) t)
  = filter (fun y => negb (existsb (eqb y) acc)) t.
Proof.
  intros E. induction t as [|y t IHt]; simpl; [reflexivity|].
  destruct (eqb y x) eqn:Eyx; simpl.
  - apply eqb_eq in Eyx. subst y. rewrite E. simpl. exact IHt.
  - destruct (existsb (eqb y) acc); simpl; [exact IHt|].
    f_equal. exact IHt.
Qed.

Lemma filter_new (x : A) (acc t : list A) :
  filter (fun y => negb (existsb (eqb y) (acc ++ [x]))) t
  = filter (fun y => negb (existsb (eqb y) acc))
      (filter (fun y => negb (eqb y x)) t).
Proof.
  induction t as [|y t IHt]; simpl; [reflexivity|].
  rewrite existsb_app. simpl. rewrite orb_false_r.
  destruct (eqb y x) eqn:Eyx; simpl.
  - rewrite orb_true_r. simpl. exact IHt.
  - rewrite orb_false_r.
    destruct (existsb (eqb y) acc); simpl; [exact IHt|].
    f_equal. exact IHt.
Qed.

(** The fold of [Set_add] from any set [acc]: the new values come after
    [acc], each once, in the order of their first occurrence. *)
Lemma fold_Set_add (l acc : list A) :
  fold_left (Set_add eqb) l acc
  = acc ++ filter (fun y => negb (existsb (eqb y) acc)) (first_seen eqb l).
Proof.
  revert acc. induction l as [|x l IH]; intros acc; simpl.
  - rewrite app_nil_r. reflexivity.
  - rewrite IH. unfold Set_add.
    destruct (existsb (eqb x) acc) eqn:E; simpl.
    + rewrite filter_known by exact E. reflexivity.
    + rewrite <- app_assoc. simpl. rewrite filter_new. reflexivity.
Qed.

Lemma Set_of_first_seen (l : list A) : Set_of eqb l = first_seen eqb l.
Proof.
  unfold Set_of. rewrite fold_Set_add. simpl.
  induction (first_seen eqb l) as [|y t IHt]; simpl; [reflexivity|].
  f_equal. exact IHt.
Qed.

Lemma In_first_seen (l : list A) (x : A) :
  In x (first_seen eqb l) <-> In x l.
Proof.
  induction l as [|y l IH]; simpl; [tauto|].
  rewrite filter_In, IH. split.
  - intros [H|[H _]]; auto.
  - intros [H|H]; [left; exact H|].
    destruct (eqb x y) eqn:E.
    + left. apply eqb_eq in E. auto.
    + right. split; [exact H | reflexivity].
Qed.

Lemma NoDup_first_seen (l : list A) : NoDup (first_seen eqb l).
Proof.
  induction l as [|y l IH]; simpl; [constructor|].
  constructor.
  - rewrite filter_In. intros [_ H].
    rewrite (proj2 (eqb_eq y y) eq_refl) in H. discriminate.
  - apply NoDup_filter. exact IH.
Qed.

End SetAdd.

Lemma number_eqb_eq (a b : number) : number_eqb a b = true <-> a = b.
Proof.
  destruct a as [x|], b as [y|]; simpl; try (split; [discriminate|congruence]).
  - rewrite Z.eqb_eq. split; [congruence | intros H; inversion H; reflexivity].
  - tauto.
Qed.

(** ** Filter and aggregate *)

Lemma collect_fold (entries : list Row) (acc : list number) :
  fold_left
    (fun (proposerIndexes : list number) (entry : Row) =>
       if selected entry
       then Set_add number_eqb proposerIndexes (proposerIndex entry)
       else proposerIndexes)
    entries acc
  = fold_left (Set_add number_eqb)
      (map proposerIndex (filter selected entries)) acc.
Proof.
  revert acc. induction entries as [|e entries IH]; intros acc; simpl;
    [reflexivity|].
  destruct (selected e); simpl; apply IH.
Qed.

Lemma collect_first_seen (entries : list Row) :
  collectProposerIndexes entries
  = first_seen number_eqb (map proposerIndex (filter selected entries)).
Proof.
  unfold collectProposerIndexes. rewrite collect_fold.
  apply (Set_of_first_seen number_eqb number_eqb_eq).
Qed.

Lemma In_collect (entries : list Row) (x : number) :
  In x (collectProposerIndexes entries)
  <-> exists e, In e entries /\ selected e = true /\ proposerIndex e = x.
Proof.
  rewrite collect_first_seen, (In_first_seen number_eqb number_eqb_eq).
  rewrite in_map_iff. split.
  - intros (e & He & Hin). apply filter_In in Hin. destruct Hin as [Hin Hs].
    exists e. auto.
  - intros (e & Hin & Hs & He). exists e. split; [exact He|].
    apply filter_In. auto.
Qed.

Lemma canonicalize_same_letter (p c : char) :
  char_eqb (canonicalize p) (canonicalize c) = true <-> same_letter p c.
Proof.
  rewrite char_eqb_eq. unfold same_letter, canonicalize, to_lower.
  repeat match goal with
         | |- context [N.leb ?a ?b] => destruct (N.leb_spec a b)
         end; simpl; lia.
Qed.

Lemma matches_at_spec (pat s : jsstring) :
  matches_at pat s = true
  <-> exists mid post, s = mid ++ post /\ Forall2 same_letter pat mid.
Proof.
  revert s. induction pat as [|p pat IH]; intros s; simpl.
  - split; [|reflexivity]. intros _. exists [], s. split; [reflexivity|constructor].
  - destruct s as [|c s].
    + split; [discriminate|]. intros (mid & post & Hs & Hf).
      inversion Hf; subst. discriminate Hs.
    + rewrite andb_true_iff, canonicalize_same_letter, IH. split.
      * intros (Hpc & mid & post & -> & Hf).
        exists (c :: mid), post. split; [reflexivity | constructor; assumption].
      * intros (mid & post & Hs & Hf). inversion Hf as [|p' c' pat' mid' Hpc Hf']; subst.
        simpl in Hs. inversion Hs; subst. split; [exact Hpc|].
        exists mid', post. split; [reflexivity | exact Hf'].
Qed.

Lemma regexp_test_i_spec (pat s : jsstring) :
  regexp_test_i pat s = true <-> contains_ci pat s.
Proof.
  unfold contains_ci. induction s as [|c s IH].
  - simpl. rewrite orb_false_r, matches_at_spec. split.
    + intros (mid & post & Hs & Hf). exists [], mid, post. auto.
    + intros (pre & mid & post & Hs & Hf).
      destruct pre; [|discriminate Hs]. exists mid, post. auto.
  - simpl. rewrite orb_true_iff, matches_at_spec, IH. split.
    + intros [(mid & post & Hs & Hf) | (pre & mid & post & Hs & Hf)].
      * exists [], mid, post. auto.
      * exists (c :: pre), mid, post. subst s. auto.
    + intros (pre & mid & post & Hs & Hf). destruct pre as [|c' pre].
      * left. exists mid, post. auto.
      * right. simpl in Hs. inversion Hs; subst. exists pre, mid, post. auto.
Qed.

Lemma selected_spec (e : Row) :
  selected e = true
  <-> in_window e /\ contains_ci graffitiToMatch (graffiti e).
Proof.
  unfold selected, in_window, num_ge, num_le, fromSlot, toSlot.
  rewrite !andb_true_iff, regexp_test_i_spec.
  destruct (slot e) as [s|].
  - rewrite !Z.leb_le. tauto.
  - split; [intros [[H _] _]; discriminate H | tauto].
Qed.


(** ** The header line *)

Lemma trimEnd_newline_cons (rest : jsstring) :
  trimEnd (newline :: rest) = [] \/ exists y, trimEnd (newline :: rest) = newline :: y.
Proof.
  simpl. destruct (trimEnd rest); [left | right; eexists]; reflexivity.
Qed.

Lemma lines_of_headed_store (rest : jsstring) :
  exists lines,
    split newline (trim (header ++ newline :: rest)) = header :: lines.
Proof.
  unfold trim. rewrite trimEnd_app.
  destruct (trimEnd_newline_cons rest) as [E | [y E]]; rewrite E.
  - exists []. reflexivity.
  - exists (split newline y).
    replace (trimStart (header ++ newline :: y)) with (header ++ newline :: y)
      by reflexivity.
    rewrite split_app. reflexivity.
Qed.

Lemma collect_skips_unselected (e : Row) (entries : list Row) :
  selected e = false ->
  collectProposerIndexes (e :: entries) = collectProposerIndexes entries.
Proof.
  intros H. unfold collectProposerIndexes. simpl. rewrite H. reflexivity.
Qed.

(** C9 as stated fails: a store can hold a row whose proposer index
    does not read as a number (the scan logs such a block with the index
    [NaN]); with a slot in the window and a matching graffiti the row is
    selected, and the run writes [NaN] into the file of validator
    indexes. *)
Lemma NaN_index_counterexample :
  exists w rows,
    runScript beacon_interrupted explorer_none
      (world_with_record store_odd_index) = (Ok tt, w)
    /\ fst (readEntries w) = Ok rows
    /\ In NaN (collectProposerIndexes rows)
    /\ indexes_file w = Some (str "NaN").
Proof.
  eexists. eexists. split; [vm_compute; reflexivity|].
  split; [vm_compute; reflexivity|].
  split; [vm_compute; left; reflexivity | reflexivity].
Qed.

(** C9, amended.  On a store that starts with the header line,
    [readEntries] returns first the row parsed from the header, whose slot
    and proposer index are [NaN]; the slot test rejects it, so it adds
    nothing to the index set.  [NaN] is in the index set exactly when a
    selected row after the header has a proposer index that is [NaN]. *)
Theorem header_row_never_selected (w : world) (rest : jsstring) :
  record_file w = Some (header ++ newline :: rest) ->
  exists rows,
    readEntries w = (Ok (header_row :: rows), w)
    /\ slot header_row = NaN /\ proposerIndex header_row = NaN
    /\ selected header_row = false
    /\ collectProposerIndexes (header_row :: rows) = collectProposerIndexes rows
    /\ (In NaN (collectProposerIndexes (header_row :: rows))
        <-> exists r, In r rows /\ selected r = true /\ proposerIndex r = NaN).
Proof.
  intros Hfile. destruct (lines_of_headed_store rest) as [lines Hlines].
  exists (map parse_row lines).
  split.
  - rewrite (readEntries_run _ _ Hfile), Hlines. reflexivity.
  - repeat split; try reflexivity.
    + rewrite collect_skips_unselected by reflexivity.
      apply In_collect.
    + rewrite collect_skips_unselected by reflexivity.
      apply In_collect.
Qed.

Lemma header_row_never_selected_witness :
  exists rows,
    readEntries (world_with_record (header ++ newline :: str "327700,8,DAppNode
"))
    = (Ok (header_row :: rows),
       world_with_record (header ++ newline :: str "327700,8,DAppNode
"))
    /\ slot header_row = NaN /\ proposerIndex header_row = NaN
    /\ selected header_row = false
    /\ collectProposerIndexes (header_row :: rows) = collectProposerIndexes rows
    /\ (In NaN (collectProposerIndexes (header_row :: rows))
        <-> exists r, In r rows /\ selected r = true /\ proposerIndex r = NaN).
Proof.
  apply (header_row_never_selected
           (world_with_record (header ++ newline :: str "327700,8,DAppNode
"))
           (str "327700,8,DAppNode
")).
  reflexivity.
Defined.

(** ** Printing and reading numbers *)

Lemma to_digits_eq (n : N) :
  to_digits n
  = if (n <? 10)%N then [n] else to_digits (n / 10) ++ [(n mod 10)%N].
Proof.
  funelim (to_digits n).
  - rewrite e. reflexivity.
  - rewrite Hge. reflexivity.
Qed.

Lemma to_digits_spec (n : N) :
  to_digits n <> []
  /\ Forall (fun d => (d < 10)%N) (to_digits n)
  /\ digits_value 10 (to_digits n) = n.
Proof.
  induction n as [n IH] using (well_founded_induction N.lt_wf_0).
  rewrite to_digits_eq. destruct (N.ltb_spec n 10) as [Hlt|Hge].
  - split; [discriminate|]. split; [constructor; [exact Hlt | constructor]|].
    unfold digits_value. simpl. lia.
  - assert (Hd : (n / 10 < n)%N) by (apply N.div_lt; lia).
    destruct (IH _ Hd) as (Hne & Hall & Hval).
    split; [intros H; apply app_eq_nil in H; destruct H; discriminate|].
    split.
    + apply Forall_app. split; [exact Hall|].
      constructor; [|constructor]. apply N.mod_lt. lia.
    + unfold digits_value in *. rewrite fold_left_app, Hval. simpl.
      pose proof (N.div_mod n 10). lia.
Qed.

Lemma is_whitespace_true (c : char) :
  is_whitespace c = true ->
  (c <= 32 \/ 160 <= c)%N /\ c <> chr "-" /\ c <> chr ",".
Proof.
  unfold is_whitespace. rewrite existsb_exists. intros (x & Hin & E).
  apply N.eqb_eq in E. subst x.
  change (chr "-") with 45%N. change (chr ",") with 44%N.
  simpl in Hin.
  repeat (destruct Hin as [<-|Hin]; [lia|]). destruct Hin.
Qed.

Lemma digit_not_whitespace (c : char) :
  is_decimal_digit c = true -> is_whitespace c = false.
Proof.
  unfold is_decimal_digit. intros H. apply andb_prop in H. destruct H as [H1 H2].
  apply N.leb_le in H1. apply N.leb_le in H2.
  destruct (is_whitespace c) eqn:E; [|reflexivity].
  apply is_whitespace_true in E. lia.
Qed.

Lemma digit_char_is_digit (d : N) :
  (d < 10)%N -> is_decimal_digit (digit_char d) = true.
Proof.
  intros H. unfold is_decimal_digit, digit_char.
  apply andb_true_intro. split; apply N.leb_le; lia.
Qed.

Lemma digit_prefix_digits (ds : list N) :
  Forall (fun d => (d < 10)%N) ds ->
  digit_prefix 10 (map digit_char ds) = ds.
Proof.
  induction 1 as [|d ds Hd _ IH]; simpl; [reflexivity|].
  rewrite digit_value_decimal, (digit_char_is_digit d Hd), IH.
  unfold digit_char. f_equal. lia.
Qed.

(** What [parseInt] does on a text that starts with a decimal digit whose
    second code unit, if any, is a digit too. *)
Lemma parse_radix_digits (ds : list N) :
  Forall (fun d => (d < 10)%N) ds ->
  parse_radix (map digit_char ds) = (10%N, map digit_char ds).
Proof.
  intros H. destruct H as [|d ds Hd H]; [reflexivity|].
  destruct H as [|d' ds' Hd' H]; [reflexivity|].
  unfold parse_radix. simpl map. cbv iota beta.
  replace (char_eqb (digit_char d') (chr "x")) with false.
  2: { symmetry. apply char_eqb_neq. change (chr "x") with 120%N.
       unfold digit_char. lia. }
  replace (char_eqb (digit_char d') (chr "X")) with false.
  2: { symmetry. apply char_eqb_neq. change (chr "X") with 88%N.
       unfold digit_char. lia. }
  cbn [orb]. rewrite andb_false_r. reflexivity.
Qed.

Lemma parse_sign_digit (c : char) (r : jsstring) :
  is_decimal_digit c = true -> parse_sign (c :: r) = (1, c :: r).
Proof.
  unfold is_decimal_digit. intros H. apply andb_prop in H. destruct H as [H1 H2].
  apply N.leb_le in H1. apply N.leb_le in H2. unfold parse_sign. cbv iota beta.
  replace (char_eqb c (chr "-")) with false
    by (symmetry; apply char_eqb_neq; change (chr "-") with 45%N; lia).
  replace (char_eqb c (chr "+")) with false
    by (symmetry; apply char_eqb_neq; change (chr "+") with 43%N; lia).
  reflexivity.
Qed.

Lemma parseInt_digits (sign : Z) (n : N) :
  match digit_prefix 10 (map digit_char (to_digits n)) with
  | [] => NaN
  | ds => Num (sign * Z.of_N (digits_value 10 ds))
  end = Num (sign * Z.of_N n).
Proof.
  destruct (to_digits_spec n) as (Hne & Hall & Hval).
  rewrite (digit_prefix_digits _ Hall).
  destruct (to_digits n) as [|d ds] eqn:E; [contradiction|].
  rewrite Hval. reflexivity.
Qed.

(** A number that holds an integer reads back from its decimal form. *)
Lemma parseInt_number_to_string (z : Z) :
  parseInt (number_to_string (Num z)) = Num z.
Proof.
  unfold number_to_string, parseInt.
  destruct (to_digits_spec (Z.to_N z)) as (Hne & Hall & _).
  destruct (to_digits_spec (Z.to_N (- z))) as (Hne' & Hall' & _).
  destruct (Z.ltb_spec z 0) as [Hneg|Hpos].
  - simpl trimStart. unfold parse_sign. rewrite char_eqb_refl.
    rewrite (parse_radix_digits _ Hall'), parseInt_digits. f_equal. lia.
  - destruct (to_digits (Z.to_N z)) as [|d ds] eqn:E; [contradiction|].
    inversion Hall as [|? ? Hd Hds]; subst.
    simpl map. simpl trimStart.
    rewrite (digit_not_whitespace _ (digit_char_is_digit d Hd)).
    rewrite (parse_sign_digit _ _ (digit_char_is_digit d Hd)).
    change (digit_char d :: map digit_char ds) with (map digit_char (d :: ds)).
    rewrite (parse_radix_digits _ Hall). rewrite <- E, parseInt_digits.
    f_equal. lia.
Qed.

(** ** Appending a row and reading it back *)

Lemma number_to_string_chars (z : Z) (c : char) :
  In c (number_to_string (Num z)) ->
  c = chr "-" \/ is_decimal_digit c = true.
Proof.
  assert (Hd : forall n, In c (map digit_char (to_digits n)) ->
                         is_decimal_digit c = true).
  { intros n Hin. apply in_map_iff in Hin. destruct Hin as (d & <- & Hin).
    apply digit_char_is_digit.
    destruct (to_digits_spec n) as (_ & Hall & _).
    rewrite Forall_forall in Hall. apply Hall. exact Hin. }
  unfold number_to_string. destruct (z <? 0).
  - intros [<-|Hin]; [left; reflexivity | right; eapply Hd; exact Hin].
  - intros Hin. right. eapply Hd. exact Hin.
Qed.

Lemma number_to_string_no (z : Z) (c : char) :
  c = comma \/ c = newline -> ~ In c (number_to_string (Num z)).
Proof.
  intros Hc Hin. apply number_to_string_chars in Hin.
  destruct Hc as [-> | ->], Hin as [H|H]; discriminate H.
Qed.

Lemma number_to_string_head (z : Z) :
  exists c r, number_to_string (Num z) = c :: r /\ is_whitespace c = false.
Proof.
  destruct (number_to_string (Num z)) as [|c r] eqn:E.
  - exfalso. unfold number_to_string in E.
    destruct (to_digits_spec (Z.to_N z)) as (Hne & _).
    destruct (z <? 0); [discriminate E|].
    apply map_eq_nil in E. contradiction.
  - exists c, r. split; [reflexivity|].
    assert (Hin : In c (number_to_string (Num z))) by (rewrite E; left; reflexivity).
    apply number_to_string_chars in Hin. destruct Hin as [-> | Hd].
    + reflexivity.
    + apply digit_not_whitespace. exact Hd.
Qed.

Lemma row_line_eq (r : Row) :
  row_line r
  = number_to_string (slot r)
    ++ comma :: (number_to_string (proposerIndex r) ++ comma :: graffiti r).
Proof. reflexivity. Qed.

(** A line written by [addEntry] for a row of integers parses back to
    the row, commas in the graffiti included. *)
Lemma parse_row_row_line (r : Row) (s i : Z) :
  slot r = Num s -> proposerIndex r = Num i ->
  parse_row (row_line r) = r.
Proof.
  intros Hs Hi. unfold parse_row. rewrite row_line_eq, Hs, Hi.
  rewrite !split_app.
  rewrite (split_no_sep comma (number_to_string (Num s)))
    by (apply number_to_string_no; left; reflexivity).
  rewrite (split_no_sep comma (number_to_string (Num i)))
    by (apply number_to_string_no; left; reflexivity).
  cbn [app nth_error skipn parseInt_elem].
  rewrite !parseInt_number_to_string.
  change separator with [comma]. rewrite join_split.
  destruct r as [rs ri rg]. simpl in *. subst. reflexivity.
Qed.

Lemma trimEnd_no_trailing_whitespace (s : jsstring) :
  ~ ends_in_whitespace s -> trimEnd s = s.
Proof.
  intros H. destruct s as [|x s'] using rev_ind; [reflexivity|].
  clear IHs'. rewrite trimEnd_app. simpl.
  destruct (is_whitespace x) eqn:E; [|reflexivity].
  exfalso. apply H. exists s', x. auto.
Qed.

Lemma row_line_trimEnd (r : Row) (s i : Z) :
  slot r = Num s -> proposerIndex r = Num i ->
  ~ ends_in_whitespace (graffiti r) ->
  trimEnd (row_line r) = row_line r.
Proof.
  intros Hs Hi Hg. rewrite row_line_eq.
  rewrite trimEnd_app. cbn [trimEnd].
  (* the text from the first comma on *)
  assert (Ht : trimEnd (number_to_string (proposerIndex r) ++ comma :: graffiti r)
               = number_to_string (proposerIndex r) ++ comma :: graffiti r).
  { rewrite trimEnd_app. cbn [trimEnd].
    rewrite (trimEnd_no_trailing_whitespace _ Hg).
    destruct (graffiti r); reflexivity. }
  fold (trimEnd (number_to_string (proposerIndex r) ++ comma :: graffiti r)).
  rewrite Ht.
  destruct (number_to_string (proposerIndex r) ++ comma :: graffiti r) eqn:E;
    [|reflexivity].
  apply app_eq_nil in E. destruct E as [_ E]. discriminate E.
Qed.

Lemma row_line_no_newline (r : Row) (s i : Z) :
  slot r = Num s -> proposerIndex r = Num i ->
  ~ In newline (graffiti r) ->
  ~ In newline (row_line r).
Proof.
  intros Hs Hi Hg. rewrite row_line_eq, Hs, Hi. intros Hin.
  apply in_app_or in Hin. destruct Hin as [Hin|[Hin|Hin]].
  - revert Hin. apply number_to_string_no. right. reflexivity.
  - discriminate Hin.
  - apply in_app_or in Hin. destruct Hin as [Hin|[Hin|Hin]].
    + revert Hin. apply number_to_string_no. right. reflexivity.
    + discriminate Hin.
    + exact (Hg Hin).
Qed.

Lemma number_to_string_no_newline (x : number) :
  ~ In newline (number_to_string x).
Proof.
  destruct x as [z|].
  - apply number_to_string_no. right. reflexivity.
  - simpl. intros H. repeat (destruct H as [H|H]; [discriminate H|]).
    destruct H.
Qed.

Lemma trimStart_line_complete (old : jsstring) :
  line_complete old ->
  trimStart old = [] \/ exists t, trimStart old = t ++ [newline].
Proof.
  intros Hold. destruct (trimStart_suffix old) as (p & Hp & _).
  destruct (trimStart old) as [|y t] eqn:Et using rev_ind; [left; reflexivity|].
  clear IHt. right. exists t. f_equal. f_equal.
  destruct Hold as [-> | [q Hq]].
  - destruct p, t; discriminate Hp.
  - rewrite Hq, app_assoc in Hp. apply app_inj_tail in Hp.
    destruct Hp as [_ Hp]. symmetry. exact Hp.
Qed.

Lemma complete_lines_spec (old : jsstring) :
  line_complete old ->
  (trimStart old = [] /\ complete_lines old = [])
  \/ exists t, trimStart old = t ++ [newline]
               /\ complete_lines old = split newline t.
Proof.
  intros Hold. unfold complete_lines.
  destruct (trimStart_line_complete old Hold) as [E | [t E]]; rewrite E.
  - left. split; reflexivity.
  - right. exists t. split; [reflexivity|].
    destruct (t ++ [newline]) as [|x l] eqn:E2; [destruct t; discriminate E2|].
    rewrite <- E2, removelast_last. reflexivity.
Qed.

Lemma trimEnd_after_fixed (a b : jsstring) :
  a <> [] -> trimEnd a = a -> trimEnd (a ++ b) = a ++ trimEnd b.
Proof.
  intros Hne Ha. rewrite trimEnd_app.
  destruct (trimEnd b); [rewrite app_nil_r; exact Ha | reflexivity].
Qed.

(** The lines read from a complete text followed by one chunk: a head
    that neither starts nor ends with white space, the rest of the
    chunk, and the newline that ends it. *)
Lemma lines_after_chunk (old head rest : jsstring) (c : char) (t : jsstring) :
  line_complete old ->
  head = c :: t -> is_whitespace c = false -> trimEnd head = head ->
  split newline (trim (old ++ (head ++ rest) ++ [newline]))
  = complete_lines old ++ split newline (head ++ trimEnd rest).
Proof.
  intros Hold Hhead Hc Hend. unfold trim.
  assert (Hne : head <> []) by (rewrite Hhead; discriminate).
  rewrite app_assoc, trimEnd_app.
  change (trimEnd [newline]) with (@nil char).
  rewrite app_assoc, trimEnd_after_fixed.
  2:{ intros E. apply app_eq_nil in E. destruct E as [_ E]. exact (Hne E). }
  2:{ apply trimEnd_fixed_app; assumption. }
  rewrite <- app_assoc.
  rewrite (trimStart_app old (head ++ trimEnd rest))
    by (rewrite Hhead; cbn [app trimStart]; rewrite Hc; reflexivity).
  destruct (complete_lines_spec old Hold) as [[-> ->] | (t0 & -> & ->)].
  - reflexivity.
  - rewrite <- app_assoc. cbn [app]. apply split_app.
Qed.

Lemma row_line_head (r : Row) : row_line r = row_head r ++ graffiti r.
Proof.
  rewrite row_line_eq. unfold row_head. rewrite <- !app_assoc. cbn [app].
  rewrite <- app_assoc. reflexivity.
Qed.

Lemma number_to_string_no_comma (x : number) :
  ~ In comma (number_to_string x).
Proof.
  destruct x as [z|].
  - apply number_to_string_no. left. reflexivity.
  - simpl. intros H. repeat (destruct H as [H|H]; [discriminate H|]).
    destruct H.
Qed.

Lemma number_to_string_starts (x : number) :
  exists c t, number_to_string x = c :: t /\ is_whitespace c = false.
Proof.
  destruct x as [z|]; [apply number_to_string_head|].
  eexists. eexists. split; reflexivity.
Qed.

Lemma parse_row_graffiti (a b g : jsstring) :
  ~ In comma a -> ~ In comma b ->
  graffiti (parse_row (a ++ comma :: b ++ comma :: g)) = g.
Proof.
  intros Ha Hb. unfold parse_row. cbn [graffiti].
  rewrite !split_app, (split_no_sep comma a Ha), (split_no_sep comma b Hb).
  cbn [app skipn]. change separator with [comma]. apply join_split.
Qed.

Lemma row_head_shape (r : Row) :
  (exists c t, row_head r = c :: t /\ is_whitespace c = false)
  /\ trimEnd (row_head r) = row_head r
  /\ ~ In newline (row_head r)
  /\ forall g, graffiti (parse_row (row_head r ++ g)) = g.
Proof.
  unfold row_head.
  destruct (number_to_string_starts (slot r)) as (c & t & Hhead & Hc).
  split; [|split; [|split]].
  - rewrite Hhead. eexists. eexists. split; [reflexivity | exact Hc].
  - rewrite app_comm_cons, app_assoc.
    apply trimEnd_fixed_app; [discriminate | reflexivity].
  - intros H. apply in_app_or in H. destruct H as [H|[H|H]].
    + revert H. apply number_to_string_no_newline.
    + discriminate H.
    + apply in_app_or in H. destruct H as [H|[H|[]]].
      * revert H. apply number_to_string_no_newline.
      * discriminate H.
  - intros g. rewrite <- !app_assoc. cbn [app]. rewrite <- app_assoc.
    cbn [app]. apply parse_row_graffiti; apply number_to_string_no_comma.
Qed.

Lemma number_to_string_ascii (x : number) :
  Forall (fun c => (c < 128)%N) (number_to_string x).
Proof.
  destruct x as [z|].
  - apply Forall_forall. intros c Hc.
    apply number_to_string_chars in Hc. destruct Hc as [-> | Hd].
    + reflexivity.
    + unfold is_decimal_digit in Hd. apply andb_prop in Hd.
      destruct Hd as [_ Hd]. apply N.leb_le in Hd. lia.
  - repeat constructor.
Qed.

Lemma comma_scalar : is_bmp_scalar comma = true.
Proof. reflexivity. Qed.

Lemma newline_scalar : is_bmp_scalar newline = true.
Proof. reflexivity. Qed.

(** What the file holds for the chunk of a row: the line of the row,
    with U+FFFD for each unpaired surrogate of the graffiti. *)
Lemma written_text_row_chunk (r : Row) :
  written_text (row_line r ++ [newline])
  = row_line (mkRow (slot r) (proposerIndex r) (sanitize (graffiti r)))
    ++ [newline].
Proof.
  rewrite written_text_sanitize, !row_line_eq. cbn [slot proposerIndex graffiti].
  rewrite <- !app_assoc.
  rewrite sanitize_ascii_app by apply number_to_string_ascii.
  cbn [app]. rewrite sanitize_cons_scalar by exact comma_scalar.
  rewrite <- !app_assoc.
  rewrite sanitize_ascii_app by apply number_to_string_ascii.
  cbn [app]. rewrite sanitize_cons_scalar by exact comma_scalar.
  rewrite sanitize_app_scalar by exact newline_scalar.
  reflexivity.
Qed.

Lemma written_text_row_chunk_well_formed (r : Row) :
  well_formed_utf16 (graffiti r) = true ->
  written_text (row_line r ++ [newline]) = row_line r ++ [newline].
Proof.
  intros H. rewrite written_text_row_chunk, sanitize_well_formed by exact H.
  destruct r; reflexivity.
Qed.

(** C4 as stated fails.  Read in the same tick, the appended record is
    not there: it is still queued in the write stream.  Read once the
    stream has drained, a record whose graffiti contains a newline, ends
    with a space, or holds an unpaired surrogate is not among the
    records read back. *)
Lemma round_trip_counterexample :
  fst ((CsvRecord_new ;;; q <- addEntry row_with_commas [] ;; readEntries)
         empty_world) = Ok [header_row]
  /\ (exists rows,
         fst ((CsvRecord_new ;;;
               q <- addEntry (mkRow (Num 1) (Num 2) (str "a
b")) [] ;;
               drain q ;;; readEntries) empty_world) = Ok rows
         /\ ~ In (mkRow (Num 1) (Num 2) (str "a
b")) rows)
  /\ (exists rows,
         fst ((CsvRecord_new ;;;
               q <- addEntry (mkRow (Num 1) (Num 2) (str "hi ")) [] ;;
               drain q ;;; readEntries) empty_world) = Ok rows
         /\ ~ In (mkRow (Num 1) (Num 2) (str "hi ")) rows)
  /\ fst ((CsvRecord_new ;;;
           q <- addEntry (mkRow (Num 1) (Num 2) [0xD800%N]) [] ;;
           drain q ;;; readEntries) empty_world)
     = Ok [header_row; mkRow (Num 1) (Num 2) [replacement]].
Proof.
  split; [reflexivity|].
  split; [|split]; [| |reflexivity];
    eexists; (split; [vm_compute; reflexivity|]).
  - intros [H|[H|[H|[]]]]; discriminate H.
  - intros [H|[H|[]]]; discriminate H.
Qed.

(** C4, amended.  For a record of two safe integers whose graffiti is
    well-formed UTF-16, has no newline and does not end with white
    space, appended to a store whose text, queued chunks included, is
    empty or ends with a newline: once the write stream has drained, the
    records read back are those of the store followed by one that is
    equal to the record in all three fields, whatever commas the
    graffiti contains. *)
Theorem append_read_round_trip (w : world) (q : pending) (r : Row) (s i : Z) :
  line_complete (handed_text w q) ->
  slot r = Num s -> safe_integer s ->
  proposerIndex r = Num i -> safe_integer i ->
  well_formed_utf16 (graffiti r) = true ->
  ~ In newline (graffiti r) ->
  ~ ends_in_whitespace (graffiti r) ->
  fst ((q' <- addEntry r q ;; drain q' ;;; readEntries) w)
  = Ok (map parse_row (complete_lines (handed_text w q)) ++ [r]).
Proof.
  intros Hold Hs _ Hi _ Hwf Hnl Hws.
  destruct (row_head_shape r) as ((c & t & Hhead & Hc) & Hend & _).
  rewrite readEntries_after_drain, written_text_row_chunk_well_formed
    by exact Hwf.
  rewrite row_line_head, (lines_after_chunk _ _ _ c t Hold Hhead Hc Hend).
  rewrite (trimEnd_no_trailing_whitespace _ Hws), <- row_line_head.
  rewrite (split_no_sep newline _ (row_line_no_newline r s i Hs Hi Hnl)).
  rewrite map_app. cbn [map].
  rewrite (parse_row_row_line r s i Hs Hi). reflexivity.
Qed.

Lemma append_read_round_trip_witness :
  fst ((q' <- addEntry row_with_commas [] ;; drain q' ;;; readEntries)
         (world_with_record (header ++ [newline])))
  = Ok (map parse_row
          (complete_lines
             (handed_text (world_with_record (header ++ [newline])) []))
        ++ [row_with_commas]).
Proof.
  apply (append_read_round_trip
           (world_with_record (header ++ [newline])) [] row_with_commas
           327601 11516).
  - right. exists header. reflexivity.
  - reflexivity.
  - unfold safe_integer. simpl. lia.
  - reflexivity.
  - unfold safe_integer. simpl. lia.
  - reflexivity.
  - simpl. intros H. repeat (destruct H as [H|H]; [discriminate H|]).
    destruct H.
  - intros (p & c & H & Hc).
    change (graffiti row_with_commas) with (str "dappnode, x," ++ [chr "y"]) in H.
    apply app_inj_tail in H. destruct H as [_ <-]. discriminate Hc.
Defined.

(** ** Graffiti decoding *)

(** A boolean property checked on every number below a bound. *)
Lemma forall_below (P : N -> bool) (k : nat) :
  forallb P (map N.of_nat (seq 0 k)) = true ->
  forall v, (v < N.of_nat k)%N -> P v = true.
Proof.
  intros H v Hv. rewrite forallb_forall in H. apply H.
  apply in_map_iff. exists (N.to_nat v). split; [apply N2Nat.id|].
  apply in_seq. lia.
Qed.

Lemma unbase64_base64_char (v : N) :
  (v < 64)%N ->
  unbase64 (low_byte (base64_char v)) = Some v
  /\ N.eqb (low_byte (base64_char v)) (chr "=") = false.
Proof.
  intros Hv.
  pose (P := fun v : N =>
               match unbase64 (low_byte (base64_char v)) with
               | Some v' => N.eqb v' v
               | None => false
               end && negb (N.eqb (low_byte (base64_char v)) (chr "="))).
  assert (HP : P v = true).
  { apply (forall_below P 64); [vm_compute; reflexivity | exact Hv]. }
  unfold P in HP. apply andb_prop in HP. destruct HP as [H1 H2].
  destruct (unbase64 (low_byte (base64_char v))) as [v'|]; [|discriminate H1].
  apply N.eqb_eq in H1. subst v'. split; [reflexivity|].
  apply negb_true_iff. exact H2.
Qed.

Lemma byte_of_to_N (b : Byte.byte) (n : N) :
  n = Byte.to_N b -> byte_of_N n = b.
Proof.
  intros ->. unfold byte_of_N.
  pose proof (Byte.to_N_bounded b) as Hb.
  rewrite N.mod_small by lia. rewrite Byte.of_to_N. reflexivity.
Qed.

Lemma sextets_char (v : N) (s : jsstring) :
  (v < 64)%N -> sextets (base64_char v :: s) = v :: sextets s.
Proof.
  intros Hv. destruct (unbase64_base64_char v Hv) as [H1 H2].
  cbn [sextets]. rewrite H2, H1. reflexivity.
Qed.

Lemma base64_group (x y z : N) :
  (x <= 255 -> y <= 255 -> z <= 255 ->
   (x / 4 < 64
    /\ x mod 4 * 16 + y / 16 < 64
    /\ y mod 16 * 4 + z / 64 < 64
    /\ z mod 64 < 64)
   /\ x / 4 * 4 + (x mod 4 * 16 + y / 16) / 16 = x
   /\ (x mod 4 * 16 + y / 16) mod 16 * 16 + (y mod 16 * 4 + z / 64) / 4 = y
   /\ (y mod 16 * 4 + z / 64) mod 4 * 64 + z mod 64 = z)%N.
Proof. intros Hx Hy Hz. repeat split; n_divmod. Qed.

Lemma Buffer_from_base64_encode (bs : buffer) :
  Buffer_from_base64 (base64_encode bs) = bs.
Proof.
  unfold Buffer_from_base64.
  assert (H : forall n (l : buffer), (List.length l <= n)%nat ->
              bytes_of_sextets (sextets (base64_encode l)) = l).
  { induction n as [|n IH]; intros l Hl.
    - destruct l; [reflexivity | simpl in Hl; lia].
    - destruct l as [|a [|b [|c r]]]; [reflexivity| | |].
      + destruct (base64_group (Byte.to_N a) 0 0 (Byte.to_N_bounded a))
          as ((H1 & H2 & _) & E1 & _); [lia | lia |].
        change (0 / 16)%N with 0%N in *. rewrite N.add_0_r in *.
        cbn [base64_encode]. cbv zeta.
        rewrite !sextets_char by assumption.
        cbn [sextets]. change (N.eqb (low_byte (chr "=")) (chr "=")) with true.
        cbv iota.
        cbn [bytes_of_sextets]. f_equal. apply byte_of_to_N. exact E1.
      + destruct (base64_group (Byte.to_N a) (Byte.to_N b) 0
                    (Byte.to_N_bounded a) (Byte.to_N_bounded b))
          as ((H1 & H2 & H3 & _) & E1 & E2 & _); [lia|].
        change (0 / 64)%N with 0%N in *. rewrite N.add_0_r in *.
        cbn [base64_encode]. cbv zeta.
        rewrite !sextets_char by assumption.
        cbn [sextets]. change (N.eqb (low_byte (chr "=")) (chr "=")) with true.
        cbv iota.
        cbn [bytes_of_sextets]. f_equal; [|f_equal]; apply byte_of_to_N;
          assumption.
      + destruct (base64_group (Byte.to_N a) (Byte.to_N b) (Byte.to_N c)
                    (Byte.to_N_bounded a) (Byte.to_N_bounded b)
                    (Byte.to_N_bounded c))
          as ((H1 & H2 & H3 & H4) & E1 & E2 & E3).
        cbn [base64_encode]. cbv zeta.
        rewrite !sextets_char by assumption.
        cbn [bytes_of_sextets].
        rewrite IH by (simpl in Hl; lia).
        f_equal; [|f_equal; [|f_equal]]; apply byte_of_to_N; assumption. }
  apply (H (List.length bs)). lia.
Qed.

Lemma scan_after_zero (rest : buffer) (i : nat) (q : buffer) :
  (List.length q <= i)%nat ->
  fold_left
    (fun (buff : buffer) (e : nat * Byte.byte) =>
       let '(i, byte) := e in
       if N.eqb (Byte.to_N byte) 0 then Buffer_slice0 buff i else buff)
    (entries_from i rest) q = q.
Proof.
  revert i q. induction rest as [|b r IH]; intros i q Hq; simpl;
    [reflexivity|].
  destruct (N.eqb (Byte.to_N b) 0).
  - unfold Buffer_slice0. rewrite firstn_all2 by exact Hq.
    apply IH. lia.
  - apply IH. lia.
Qed.

Lemma scan_before_zero (rest p : buffer) :
  fold_left
    (fun (buff : buffer) (e : nat * Byte.byte) =>
       let '(i, byte) := e in
       if N.eqb (Byte.to_N byte) 0 then Buffer_slice0 buff i else buff)
    (entries_from (List.length p) rest) (p ++ rest)
  = p ++ until_zero rest.
Proof.
  revert p. induction rest as [|b r IH]; intros p; simpl; [reflexivity|].
  destruct (N.eqb (Byte.to_N b) 0).
  - unfold Buffer_slice0. rewrite firstn_app, firstn_all, Nat.sub_diag.
    simpl. rewrite !app_nil_r. apply scan_after_zero. lia.
  - specialize (IH (p ++ [b])). rewrite length_app in IH. simpl in IH.
    rewrite Nat.add_1_r, <- !app_assoc in IH. exact IH.
Qed.

Lemma until_zero_app (p rest : buffer) :
  Forall (fun b => Byte.to_N b <> 0%N) p ->
  until_zero (p ++ nul :: rest) = p /\ until_zero p = p.
Proof.
  induction 1 as [|b p Hb Hp [IH1 IH2]]; [split; reflexivity|].
  cbn [app until_zero]. apply N.eqb_neq in Hb. rewrite Hb, IH1, IH2.
  split; reflexivity.
Qed.

Lemma to_N_byte_of_N (n : N) : (n < 256)%N -> Byte.to_N (byte_of_N n) = n.
Proof.
  intros Hn. unfold byte_of_N. rewrite N.mod_small by exact Hn.
  destruct (Byte.of_N n) as [b|] eqn:E.
  - apply Byte.to_of_N. exact E.
  - apply Byte.of_N_None_iff in E. lia.
Qed.

(** The bytes of a scalar value are bytes, and none is zero unless the
    value is. *)
Lemma utf8_bytes_of_bytes (cp : N) :
  scalar_value cp ->
  Forall (fun b => (b < 256)%N /\ (b = 0%N -> cp = 0%N)) (utf8_bytes_of cp).
Proof.
  unfold scalar_value, utf8_bytes_of. intros Hcp.
  destruct (N.ltb_spec cp 0x80); [|destruct (N.ltb_spec cp 0x800);
    [|destruct (N.ltb_spec cp 0x10000)]];
    repeat (constructor; [split; n_divmod|]); constructor.
Qed.

Lemma utf8_encode_bytes (text : jsstring) :
  Forall (fun b => (b < 256)%N /\ (b = 0%N -> In 0%N text))
         (utf8_encode text).
Proof.
  assert (Hcp : forall cp (t : jsstring),
             scalar_value cp -> (cp = 0%N -> In 0%N t) ->
             Forall (fun b => (b < 256)%N /\ (b = 0%N -> In 0%N t))
                    (utf8_bytes_of cp)).
  { intros cp t Hs Hz. eapply Forall_impl; [|apply utf8_bytes_of_bytes, Hs].
    cbv beta. intros b [H1 H2]. split; [exact H1|]. intros E. auto. }
  assert (Hrep : forall t : jsstring,
             Forall (fun b => (b < 256)%N /\ (b = 0%N -> In 0%N t))
                    (utf8_bytes_of replacement)).
  { intros t. apply Hcp; [right; unfold replacement; lia|].
    intros E. discriminate E. }
  assert (Hweak : forall (t t' : jsstring) (l : list N),
             (forall x, In x t -> In x t') ->
             Forall (fun b => (b < 256)%N /\ (b = 0%N -> In 0%N t)) l ->
             Forall (fun b => (b < 256)%N /\ (b = 0%N -> In 0%N t')) l).
  { intros t t' l Hsub. apply Forall_impl. intros b [H1 H2].
    split; [exact H1 | auto]. }
  induction text as [|c|c l r IHr IHl] using list_pair_ind.
  - constructor.
  - cbn [utf8_encode]. destruct (is_high_surrogate c); [apply Hrep|].
    destruct (is_bmp_scalar c) eqn:Hc; rewrite app_nil_r; [|apply Hrep].
    apply Hcp; [apply bmp_scalar_value, Hc|]. intros ->. left. reflexivity.
  - change (utf8_encode (c :: l :: r)) with
      (if is_high_surrogate c then
         if is_low_surrogate l then
           utf8_bytes_of (0x10000 + (c - 0xD800) * 0x400 + (l - 0xDC00))%N
           ++ utf8_encode r
         else utf8_bytes_of replacement ++ utf8_encode (l :: r)
       else if is_bmp_scalar c then utf8_bytes_of c ++ utf8_encode (l :: r)
       else utf8_bytes_of replacement ++ utf8_encode (l :: r)).
    assert (Hl : Forall (fun b => (b < 256)%N /\ (b = 0%N -> In 0%N (c :: l :: r)))
                        (utf8_encode (l :: r))).
    { apply (Hweak (l :: r)); [intros x Hx; right; exact Hx | exact IHl]. }
    destruct (is_high_surrogate c) eqn:Hh.
    + destruct (is_low_surrogate l) eqn:Hlow.
      * apply Forall_app. split.
        -- destruct (code_units_pair c l Hh Hlow) as [Hs _].
           apply Hcp; [exact Hs|]. intros E. exfalso.
           destruct (surrogate_bounds c l Hh Hlow). lia.
        -- apply (Hweak r); [intros x Hx; right; right; exact Hx | exact IHr].
      * apply Forall_app. split; [apply Hrep | exact Hl].
    + destruct (is_bmp_scalar c) eqn:Hc.
      * apply Forall_app. split; [|exact Hl].
        apply Hcp; [apply bmp_scalar_value, Hc|]. intros ->. left. reflexivity.
      * apply Forall_app. split; [apply Hrep | exact Hl].
Qed.

Lemma utf8_buffer_bytes (text : jsstring) :
  map Byte.to_N (utf8_buffer text) = utf8_encode text.
Proof.
  unfold utf8_buffer. rewrite map_map.
  pose proof (utf8_encode_bytes text) as H.
  induction H as [|b l [Hb _] _ IH]; [reflexivity|].
  cbn [map]. rewrite to_N_byte_of_N by exact Hb. rewrite IH. reflexivity.
Qed.

Lemma utf8_buffer_nonzero (text : jsstring) :
  ~ In 0%N text -> Forall (fun b => Byte.to_N b <> 0%N) (utf8_buffer text).
Proof.
  intros Hz. unfold utf8_buffer. apply Forall_map.
  eapply Forall_impl; [|apply utf8_encode_bytes].
  cbv beta. intros b [Hb Hb0]. rewrite to_N_byte_of_N by exact Hb.
  intros E. exact (Hz (Hb0 E)).
Qed.

Lemma Buffer_toString_utf8_buffer (text : jsstring) :
  Buffer_toString_utf8 (utf8_buffer text) = sanitize text.
Proof.
  unfold Buffer_toString_utf8. rewrite utf8_buffer_bytes.
  apply written_text_sanitize.
Qed.

(** C5.  [parseGraffiti] of the base64 text of a byte field is the UTF-8
    decoding of the bytes before the first zero byte.  The decoding is
    that of UTF-8: for every well-formed text without a NUL character,
    the base64 text of its UTF-8 encoding, NUL-padded or not, gives the
    text back.  In particular "dGVzdAAAAAA=", the base64 text of "test"
    and four NUL bytes, gives "test", a padded field of multi-byte
    sequences gives the characters they encode, and a byte that is not
    UTF-8 gives U+FFFD. *)
Theorem parseGraffiti_until_zero :
  (forall bs : buffer,
      parseGraffiti (base64_encode bs) = Buffer_toString_utf8 (until_zero bs))
  /\ (forall (text : jsstring) (padding : buffer),
        well_formed_utf16 text = true -> ~ In 0%N text ->
        parseGraffiti (base64_encode (utf8_buffer text ++ nul :: padding))
        = text
        /\ parseGraffiti (base64_encode (utf8_buffer text)) = text)
  /\ base64_encode (bytes "test" ++ [nul; nul; nul; nul]) = str "dGVzdAAAAAA="
  /\ parseGraffiti (str "dGVzdAAAAAA=") = str "test"
  /\ parseGraffiti (str "4oKsIPCfmIAAAAA=")
     = [0x20AC; 0x20; 0xD83D; 0xDE00]%N
  /\ parseGraffiti (str "/0EA") = [replacement; chr "A"].
Proof.
  assert (H : forall bs : buffer,
             parseGraffiti (base64_encode bs)
             = Buffer_toString_utf8 (until_zero bs)).
  { intros bs. unfold parseGraffiti. rewrite Buffer_from_base64_encode.
    unfold Buffer_entries.
    exact (f_equal Buffer_toString_utf8 (scan_before_zero bs [])). }
  split; [exact H|]. split; [|repeat split; reflexivity].
  intros text padding Hwf Hz. rewrite !H.
  destruct (until_zero_app (utf8_buffer text) padding
              (utf8_buffer_nonzero text Hz)) as [E1 E2].
  rewrite E1, E2, Buffer_toString_utf8_buffer.
  split; apply sanitize_well_formed, Hwf.
Qed.

(** ** The deposit resolver *)

Lemma deposits_loop_eq (explorer : list number -> result (list Deposit))
  (validatorIndexes : list number) (i : nat) (addresses : list jsstring)
  (w : world) :
  deposits_loop explorer validatorIndexes i addresses w
  = if Nat.ltb i (List.length validatorIndexes) then
      match (data <- got_deposits explorer
                       (slice validatorIndexes i (i + step)) ;;
             check_deposits data addresses) w with
      | (Ok addresses', w') =>
          deposits_loop explorer validatorIndexes (i + step) addresses' w'
      | (Throw e, w') => (Throw e, w')
      end
    else (Ok addresses, w).
Proof.
  funelim (deposits_loop explorer validatorIndexes i addresses w);
    repeat match goal with
           | H : Nat.ltb _ _ = _ |- _ => rewrite H
           | H : bind _ _ _ = _ |- _ => rewrite H
           end; reflexivity.
Qed.

Lemma bad_deposit_spec (d : Deposit) :
  bad_deposit d = false <-> valid_deposit d.
Proof.
  unfold bad_deposit, valid_deposit.
  rewrite !orb_false_iff, negb_false_iff, Z.ltb_ge. tauto.
Qed.

Lemma check_deposits_run (data : list Deposit) (addresses : list jsstring)
  (w : world) :
  check_deposits data addresses w
  = (Ok (addresses ++ collected data),
     set_console (console w ++ bad_lines data) w).
Proof.
  revert addresses w. induction data as [|d data IH]; intros addresses w.
  - unfold collected, bad_lines. simpl. rewrite !app_nil_r.
    destruct w; reflexivity.
  - cbn [check_deposits]. unfold collected, bad_lines in *. cbn [filter].
    destruct (bad_deposit d); cbn [negb map].
    + unfold bind, console_log. rewrite IH. cbn [console set_console].
      rewrite <- app_assoc. reflexivity.
    + rewrite IH, <- app_assoc. reflexivity.
Qed.

(** One request of the resolver and the check of its answer. *)
Lemma resolve_step (explorer : list number -> result (list Deposit))
  (b : list number) (addresses : list jsstring) (w : world) :
  (data <- got_deposits explorer b ;; check_deposits data addresses) w
  = match explorer b with
    | Ok data =>
        (Ok (addresses ++ collected data),
         set_console (console w ++ bad_lines data)
           (set_explorer_log (explorer_log w ++ [b]) w))
    | Throw e => (Throw e, set_explorer_log (explorer_log w ++ [b]) w)
    end.
Proof.
  unfold bind, got_deposits. destruct (explorer b) as [data|e];
    [|reflexivity].
  rewrite check_deposits_run. reflexivity.
Qed.

Lemma batch_count_spec (n j : nat) :
  (Nat.ltb (step * j) n = true <-> j < (n + (step - 1)) / step)%nat.
Proof.
  rewrite Nat.ltb_lt. unfold step. simpl (100 - 1)%nat.
  pose proof (Nat.div_mod_eq (n + 99) 100).
  pose proof (Nat.mod_upper_bound (n + 99) 100).
  lia.
Qed.

(** The loop over indexes is the iteration over the batches. *)
Lemma deposits_loop_resolve (explorer : list number -> result (list Deposit))
  (validatorIndexes : list number) (n j : nat) (addresses : list jsstring)
  (w : world) :
  ((List.length validatorIndexes + (step - 1)) / step - j = n)%nat ->
  deposits_loop explorer validatorIndexes (step * j) addresses w
  = resolve explorer
      (map (batch validatorIndexes)
           (seq j ((List.length validatorIndexes + (step - 1)) / step - j)))
      addresses w.
Proof.
  revert j addresses w. induction n as [|n IH]; intros j addresses w Hn;
    rewrite deposits_loop_eq;
    pose proof (batch_count_spec (List.length validatorIndexes) j) as Hc;
    destruct (Nat.ltb (step * j) (List.length validatorIndexes)).
  - exfalso. assert (j < (List.length validatorIndexes + (step - 1)) / step)%nat
      by (apply Hc; reflexivity). lia.
  - rewrite Hn. reflexivity.
  - rewrite Hn. cbn [seq map resolve].
    replace (slice validatorIndexes (step * j) (step * j + step))
      with (batch validatorIndexes j)
      by (unfold slice, batch; f_equal; lia).
    replace (step * j + step)%nat with (step * S j)%nat by lia.
    destruct ((data <- got_deposits explorer (batch validatorIndexes j) ;;
               check_deposits data addresses) w) as [[a'|e] w'];
      [|reflexivity].
    rewrite IH by lia.
    replace ((List.length validatorIndexes + (step - 1)) / step - S j)%nat
      with n by lia.
    reflexivity.
  - exfalso. assert (~ (j < (List.length validatorIndexes + (step - 1)) / step)%nat)
      by (intros H; apply Hc in H; discriminate H). lia.
Qed.

Lemma fetchDepositAddresses_resolve
  (explorer : list number -> result (list Deposit))
  (validatorIndexes : list number) (w : world) :
  fetchDepositAddresses explorer validatorIndexes w
  = resolve explorer (batches validatorIndexes) [] w.
Proof.
  unfold fetchDepositAddresses, batches.
  change 0%nat with (step * 0)%nat at 1.
  rewrite (deposits_loop_resolve explorer validatorIndexes _ 0 [] w eq_refl).
  rewrite Nat.sub_0_r. reflexivity.
Qed.

Lemma resolve_all_answered (explorer : list number -> result (list Deposit))
  (bs : list (list number)) (addresses : list jsstring) (w : world) :
  all_answered explorer bs ->
  resolve explorer bs addresses w
  = (Ok (addresses ++ collected (answered explorer bs)),
     set_console (console w ++ bad_lines (answered explorer bs))
       (set_explorer_log (explorer_log w ++ bs) w)).
Proof.
  revert addresses w. induction bs as [|b bs IH]; intros addresses w Hall.
  - simpl. unfold collected, bad_lines. simpl. rewrite !app_nil_r.
    destruct w; reflexivity.
  - cbn [resolve]. rewrite resolve_step.
    destruct (Hall b (or_introl eq_refl)) as [data Hdata].
    rewrite Hdata.
    rewrite IH by (intros b' Hb'; apply Hall; right; exact Hb').
    unfold answered. cbn [flat_map]. rewrite Hdata.
    unfold collected, bad_lines.
    rewrite !filter_app, !map_app, !app_assoc.
    cbn [console explorer_log set_console set_explorer_log].
    rewrite <- (app_assoc (explorer_log w) [b] bs). reflexivity.
Qed.

(** Whatever the explorer answers, the requests made are the batches in
    order, up to the first failed request. *)
Lemma resolve_log (explorer : list number -> result (list Deposit))
  (bs : list (list number)) (addresses : list jsstring) (w : world) :
  exists k,
    explorer_log (snd (resolve explorer bs addresses w))
    = explorer_log w ++ firstn k bs.
Proof.
  revert addresses w. induction bs as [|b bs IH]; intros addresses w.
  - exists 0%nat. simpl. rewrite app_nil_r. reflexivity.
  - cbn [resolve]. rewrite resolve_step.
    destruct (explorer b) as [data|e].
    + destruct (IH (addresses ++ collected data)
                  (set_console (console w ++ bad_lines data)
                     (set_explorer_log (explorer_log w ++ [b]) w)))
        as [k Hk].
      exists (S k). rewrite Hk. cbn [explorer_log set_console set_explorer_log firstn].
      rewrite <- app_assoc. reflexivity.
    + exists 1%nat. reflexivity.
Qed.

Lemma firstn_add_skipn {A : Type} (a b : nat) (l : list A) :
  firstn (a + b) l = firstn a l ++ firstn b (skipn a l).
Proof.
  revert l. induction a as [|a IH]; intros l; [reflexivity|].
  destruct l as [|x l]; simpl; [rewrite firstn_nil; reflexivity|].
  rewrite IH. reflexivity.
Qed.

Lemma concat_batches_from (validatorIndexes : list number) (n j : nat) :
  List.concat (map (batch validatorIndexes) (seq j n))
  = firstn (step * n) (skipn (step * j) validatorIndexes).
Proof.
  revert j. induction n as [|n IH]; intros j.
  - rewrite Nat.mul_0_r. reflexivity.
  - cbn [seq map List.concat]. rewrite IH. unfold batch.
    replace (step * S n)%nat with (step + step * n)%nat by lia.
    rewrite firstn_add_skipn, skipn_skipn.
    replace (step + step * j)%nat with (step * S j)%nat by lia.
    reflexivity.
Qed.

Lemma batch_length (validatorIndexes : list number) (j : nat) :
  List.length (batch validatorIndexes j)
  = Nat.min step (List.length validatorIndexes - step * j).
Proof. unfold batch. rewrite length_firstn, length_skipn. reflexivity. Qed.

Lemma batches_length (validatorIndexes : list number) :
  List.length (batches validatorIndexes)
  = ((List.length validatorIndexes + (step - 1)) / step)%nat.
Proof. unfold batches. rewrite length_map, length_seq. reflexivity. Qed.

Lemma nth_error_batches (validatorIndexes : list number) (j : nat)
  (b : list number) :
  nth_error (batches validatorIndexes) j = Some b ->
  b = batch validatorIndexes j
  /\ (j < (List.length validatorIndexes + (step - 1)) / step)%nat.
Proof.
  intros H.
  assert (Hj : (j < List.length (batches validatorIndexes))%nat)
    by (apply nth_error_Some; rewrite H; discriminate).
  rewrite batches_length in Hj. split; [|exact Hj].
  unfold batches in H. rewrite nth_error_map in H.
  destruct (nth_error (seq 0 ((List.length validatorIndexes + (step - 1)) / step)) j)
    as [j'|] eqn:E; [|discriminate H].
  simpl in H. injection H as <-.
  apply nth_error_nth with (d := 0%nat) in E.
  rewrite seq_nth in E by exact Hj. simpl in E. subst j'. reflexivity.
Qed.

(** C8.  The resolver asks the explorer for the batches of the index
    list, in order, one request each (all of them when no request
    fails, and otherwise those up to the failed one).  The batches are
    consecutive runs of the list: together they are the list, each holds
    between 1 and 100 indexes, and each but the last holds 100; a list of
    250 indexes gives batches of 100, 100 and 50. *)
Theorem resolver_batches (explorer : list number -> result (list Deposit))
  (validatorIndexes : list number) (w : world) :
  (exists k,
      explorer_log (snd (fetchDepositAddresses explorer validatorIndexes w))
      = explorer_log w ++ firstn k (batches validatorIndexes))
  /\ (all_answered explorer (batches validatorIndexes) ->
      explorer_log (snd (fetchDepositAddresses explorer validatorIndexes w))
      = explorer_log w ++ batches validatorIndexes)
  /\ List.concat (batches validatorIndexes) = validatorIndexes
  /\ (forall j b, nth_error (batches validatorIndexes) j = Some b ->
        b = slice validatorIndexes (step * j) (step * j + step)
        /\ (1 <= List.length b <= 100)%nat
        /\ (S j < List.length (batches validatorIndexes) ->
            List.length b = 100)%nat)
  /\ (List.length validatorIndexes = 250%nat ->
      map (@List.length number) (batches validatorIndexes)
      = [100; 100; 50]%nat).
Proof.
  rewrite fetchDepositAddresses_resolve.
  split; [apply resolve_log|]. split; [|split; [|split]].
  - intros Hall. rewrite (resolve_all_answered _ _ _ _ Hall). reflexivity.
  - unfold batches. rewrite concat_batches_from. simpl skipn.
    apply firstn_all2. unfold step. simpl (100 - 1)%nat.
    pose proof (Nat.div_mod_eq (List.length validatorIndexes + 99) 100).
    pose proof (Nat.mod_upper_bound (List.length validatorIndexes + 99) 100).
    lia.
  - intros j b Hb. apply nth_error_batches in Hb. destruct Hb as [-> Hj].
    split; [unfold slice, batch; f_equal; lia|].
    rewrite batches_length, batch_length. unfold step in *.
    simpl (100 - 1)%nat in *.
    pose proof (Nat.div_mod_eq (List.length validatorIndexes + 99) 100).
    pose proof (Nat.mod_upper_bound (List.length validatorIndexes + 99) 100).
    split; [lia|]. intros HS. lia.
  - intros Hlen. unfold batches. rewrite Hlen. cbn [map seq].
    change ((250 + (step - 1)) / step)%nat with 3%nat. cbn [map seq].
    rewrite !batch_length, Hlen. reflexivity.
Qed.

(** C6.  A deposit passes the test of the resolver exactly when its
    amount is at least 32000000000, it is not removed and its signature
    is valid.  From one response, the addresses of the valid deposits are
    collected, in order, and a line naming the public key is printed for
    each of the others; when no request fails, the resolver returns the
    addresses of the valid deposits of all the answers, however many
    deposits are bad. *)
Theorem deposit_validity :
  (forall d, bad_deposit d = false <-> valid_deposit d)
  /\ (forall data addresses w,
         check_deposits data addresses w
         = (Ok (addresses
                ++ map from_address (filter (fun d => negb (bad_deposit d)) data)),
            set_console
              (console w ++ map bad_deposit_line (filter bad_deposit data)) w))
  /\ (forall explorer validatorIndexes w,
         all_answered explorer (batches validatorIndexes) ->
         let data := answered explorer (batches validatorIndexes) in
         let out := fetchDepositAddresses explorer validatorIndexes w in
         fst out
         = Ok (map from_address (filter (fun d => negb (bad_deposit d)) data))
         /\ console (snd out)
            = console w ++ map bad_deposit_line (filter bad_deposit data)).
Proof.
  split; [exact bad_deposit_spec|]. split; [exact check_deposits_run|].
  intros explorer validatorIndexes w Hall. cbv zeta.
  rewrite fetchDepositAddresses_resolve, (resolve_all_answered _ _ _ _ Hall).
  split; reflexivity.
Qed.

Example deposit_validity_ex :
  bad_deposit (mkDeposit 32000000000 (str "0x27e1") (str "0xb067") false true)
  = false
  /\ bad_deposit (mkDeposit 31000000000 (str "0x9f05") (str "0xc323") false true)
     = true
  /\ fetchDepositAddresses explorer_two [Num 5; Num 6] empty_world
     = (Ok [str "0x27e1"],
        set_explorer_log [[Num 5; Num 6]]
          (set_console [str "Bad deposit for pubkey: 0xc323"] empty_world)).
Proof. repeat split. Qed.

Example resolver_batches_ex :
  map (@List.length number)
    (explorer_log
       (snd (fetchDepositAddresses explorer_none
               (map (fun i => Num (Z.of_nat i)) (seq 1 250)) empty_world)))
  = [100; 100; 50]%nat.
Proof. vm_compute. reflexivity. Qed.

(** ** The scan loop *)

Lemma scan_loop_eq (beacon : number -> result (list Block) * bool)
  (s : number) (q : pending) (w : world) :
  scan_loop beacon s q w
  = if num_le s toSlot && negb (stop w) then
      match scan_slot beacon s q w with
      | (Ok q', w') => scan_loop beacon (num_add s (Num 1)) q' w'
      | (Throw e, w') => (Throw e, w')
      end
    else (Ok q, w).
Proof.
  funelim (scan_loop beacon s q w);
    repeat match goal with
           | H : andb _ _ = _ |- _ => rewrite H
           | H : scan_slot _ _ _ _ = _ |- _ => rewrite H
           end; reflexivity.
Qed.

Lemma keeps_bind {A B : Type} (m : M A) (k : A -> M B) :
  keeps_requests m -> (forall a, keeps_requests (k a)) ->
  keeps_requests (bind m k).
Proof.
  intros Hm Hk w. unfold bind. specialize (Hm w).
  destruct (m w) as [[a|e] w']; cbn [snd] in *; [|exact Hm].
  destruct (Hk a w') as [H1 H2]. destruct Hm as [H3 H4].
  split; congruence.
Qed.

Lemma keeps_for_of {A S : Type} (l : list A) (body : A -> S -> M S) (s : S) :
  (forall x s', keeps_requests (body x s')) -> keeps_requests (for_of l body s).
Proof.
  intros Hbody. revert s. induction l as [|x l IH]; intros s; cbn [for_of].
  - intros w. split; reflexivity.
  - apply keeps_bind; [apply Hbody | intros s'; apply IH].
Qed.

Lemma keeps_addEntry (r : Row) (q : pending) : keeps_requests (addEntry r q).
Proof.
  intros w. rewrite addEntry_run. destruct (record_stream w); split; reflexivity.
Qed.

Lemma keeps_console_log (line : jsstring) : keeps_requests (console_log line).
Proof. intros w. split; reflexivity. Qed.

Lemma keeps_ret {A : Type} (a : A) : keeps_requests (ret a).
Proof. intros w. split; reflexivity. Qed.

(** A turn of the event loop touches the record file and the schedule
    only. *)
Lemma event_loop_turn_frame (q : pending) (w : world) :
  indexes_file (snd (event_loop_turn q w)) = indexes_file w
  /\ addresses_file (snd (event_loop_turn q w)) = addresses_file w
  /\ record_stream (snd (event_loop_turn q w)) = record_stream w
  /\ stop (snd (event_loop_turn q w)) = stop w
  /\ console (snd (event_loop_turn q w)) = console w
  /\ beacon_log (snd (event_loop_turn q w)) = beacon_log w
  /\ explorer_log (snd (event_loop_turn q w)) = explorer_log w.
Proof.
  unfold event_loop_turn. destruct (io_schedule w) as [|n rest];
    [repeat split; reflexivity|].
  cbn [snd]. destruct (firstn n q); repeat split; reflexivity.
Qed.

(** One iteration asks the beacon node for the slot of the iteration,
    and for nothing else. *)
Lemma scan_slot_beacon_log (beacon : number -> result (list Block) * bool)
  (s : number) (q : pending) (w : world) :
  beacon_log (snd (scan_slot beacon s q w)) = beacon_log w ++ [s].
Proof.
  unfold scan_slot, bind at 1, fetchBlock.
  destruct (beacon s) as [res sigint].
  pose proof (event_loop_turn_frame q (set_beacon_log (beacon_log w ++ [s]) w))
    as (_ & _ & _ & _ & _ & Hlog & _).
  destruct (event_loop_turn q (set_beacon_log (beacon_log w ++ [s]) w))
    as [q1 w1]. cbn [snd] in Hlog.
  destruct res as [blocks|e]; [|exact Hlog].
  cbn [fst snd].
  match goal with
  | |- context [for_of blocks ?f q1 ?w2] =>
      assert (Hk : keeps_requests (for_of blocks f q1))
        by (apply keeps_for_of; intros b q'; apply keeps_bind;
            [apply keeps_addEntry
            |intros q''; apply keeps_bind;
             [apply keeps_console_log | intros _; apply keeps_ret]]);
      destruct (Hk w2) as [H1 _]
  end.
  rewrite H1. exact Hlog.
Qed.

Lemma consecutive_cons (z : Z) (k : nat) :
  consecutive z (S k) = Num z :: consecutive (z + 1) k.
Proof.
  unfold consecutive. cbn [seq map]. rewrite Z.add_0_r. f_equal.
  rewrite <- seq_shift, map_map. apply map_ext. intros i. f_equal. lia.
Qed.

(** The slots asked of the beacon node by the loop started at slot [z]
    are consecutive from [z] on; there is at least one when the loop
    condition holds at the start. *)
Lemma scan_loop_beacon_log (beacon : number -> result (list Block) * bool)
  (n : nat) (z : Z) (q : pending) (w : world) :
  slots_left (Num z) = n ->
  exists k,
    beacon_log (snd (scan_loop beacon (Num z) q w))
    = beacon_log w ++ consecutive z k
    /\ (num_le (Num z) toSlot = true -> stop w = false -> (0 < k)%nat).
Proof.
  revert z q w. induction n as [n IH] using lt_wf_ind. intros z q w Hn.
  rewrite scan_loop_eq.
  destruct (num_le (Num z) toSlot) eqn:Hle; cbn [andb].
  2: { exists 0%nat. split; [simpl; rewrite app_nil_r; reflexivity|].
       discriminate. }
  destruct (stop w) eqn:Hstop; cbn [negb].
  { exists 0%nat. split; [simpl; rewrite app_nil_r; reflexivity|].
    discriminate. }
  pose proof (scan_slot_beacon_log beacon (Num z) q w) as Hlog.
  destruct (scan_slot beacon (Num z) q w) as [[q'|e] w'] eqn:Hslot;
    cbn [snd] in Hlog.
  - assert (Hlt : (slots_left (Num (z + 1)) < n)%nat).
    { subst n. unfold slots_left, toSlot, num_le in *.
      apply Z.leb_le in Hle. apply Z2Nat.inj_lt; lia. }
    destruct (IH _ Hlt (z + 1) q' w' eq_refl) as (k & Hk & _).
    exists (S k). cbn [num_add]. rewrite Hk, Hlog, consecutive_cons, <- app_assoc.
    split; [reflexivity | lia].
  - exists 1%nat. cbn [snd]. rewrite Hlog. split; [|lia].
    unfold consecutive. cbn [seq map]. rewrite Z.add_0_r. reflexivity.
Qed.

Lemma In_consecutive (z : Z) (k : nat) (s : number) :
  In s (consecutive z k) -> exists x, s = Num x /\ z <= x.
Proof.
  unfold consecutive. rewrite in_map_iff. intros (i & <- & _).
  eexists. split; [reflexivity | lia].
Qed.

(** [getLastSlot] reads the record file and changes nothing. *)
Lemma getLastSlot_world (w : world) : snd (getLastSlot w) = w.
Proof.
  unfold getLastSlot, bind, readFileSync_record.
  destruct (record_file w) as [c|]; [|reflexivity].
  destruct (option_map trim (last_elem (split newline (trim c)))) as [l|];
    [|reflexivity].
  destruct (_ || _); reflexivity.
Qed.

Lemma getLastSlot_Ok_file (w : world) (o : option number) :
  fst (getLastSlot w) = Ok o -> exists c, record_file w = Some c.
Proof.
  unfold getLastSlot, bind, readFileSync_record.
  destruct (record_file w) as [c|]; [eauto | discriminate].
Qed.

(** What follows the scan in [runScript] sees the world the scan
    left. *)
Lemma scan_phase_snd (beacon : number -> result (list Block) * bool)
  (w : world) :
  snd (scan_phase beacon w) = snd (scan_phase_record beacon w).
Proof.
  unfold scan_phase, bind.
  destruct (scan_phase_record beacon w) as [[q|e] w']; reflexivity.
Qed.

Lemma scan_phase_checkpoint (beacon : number -> result (list Block) * bool)
  (w : world) (last : number) :
  fst (getLastSlot w) = Ok (Some last) ->
  scan_phase_record beacon w
  = scan_loop beacon (num_add last (Num 1)) [] w.
Proof.
  intros H. destruct (getLastSlot_Ok_file w _ H) as [c Hc].
  unfold scan_phase_record, bind at 1, CsvRecord_new. rewrite Hc.
  unfold bind. pose proof (getLastSlot_world w) as Hw.
  destruct (getLastSlot w) as [r w']. simpl in H, Hw. subst. reflexivity.
Qed.

(** C1 as stated fails.  With a checkpoint at slot 5 the scan begins at
    slot 6, not at [max (5 + 1) fromSlot]; with no checkpoint it begins
    at slot 327601, not at [fromSlot]. *)
Lemma resume_counterexample :
  fst (getLastSlot (world_with_record store_at_5)) = Ok (Some (Num 5))
  /\ beacon_log (snd (scan_phase beacon_interrupted (world_with_record store_at_5)))
     = [Num 6]
  /\ Num 6 <> Num (Z.max (5 + 1) 327600)
  /\ fst ((CsvRecord_new ;;; getLastSlot) empty_world) = Ok None
  /\ beacon_log (snd (scan_phase beacon_interrupted empty_world)) = [Num 327601]
  /\ Num 327601 <> fromSlot.
Proof.
  repeat split; try reflexivity; discriminate.
Qed.

(** C1, amended.  When the record store holds a checkpoint, its last row
    being for the (safe integer) slot [last], the slots the scan asks of the
    beacon node are consecutive from [last + 1] on: the scan begins at
    [last + 1] whenever it begins at all, that is when
    [last + 1 <= toSlot] and the script is not yet interrupted, and it
    never fetches slot [last] or an earlier one. *)
Theorem scan_resumes_after_checkpoint
  (beacon : number -> result (list Block) * bool) (w : world) (last : Z) :
  fst (getLastSlot w) = Ok (Some (Num last)) ->
  safe_integer last ->
  exists k,
    beacon_log (snd (scan_phase beacon w))
    = beacon_log w ++ consecutive (last + 1) k
    /\ (num_le (Num (last + 1)) toSlot = true -> stop w = false -> (0 < k)%nat)
    /\ ((0 < k)%nat ->
        hd_error (consecutive (last + 1) k) = Some (Num (last + 1)))
    /\ (forall s, In s (consecutive (last + 1) k) -> num_lt (Num last) s = true).
Proof.
  intros Hlast _.
  rewrite scan_phase_snd, (scan_phase_checkpoint beacon w _ Hlast).
  cbn [num_add].
  destruct (scan_loop_beacon_log beacon _ (last + 1) [] w eq_refl)
    as (k & Hk & Hpos).
  exists k. split; [exact Hk|]. split; [exact Hpos|].
  split.
  { intros Hk0. destruct k as [|k]; [lia|].
    rewrite consecutive_cons. reflexivity. }
  intros s Hs. apply In_consecutive in Hs. destruct Hs as (x & -> & Hx).
  apply Z.ltb_lt. lia.
Qed.

Lemma scan_resumes_after_checkpoint_witness :
  exists k,
    beacon_log (snd (scan_phase beacon_one_block (world_with_record store_near_end)))
    = beacon_log (world_with_record store_near_end)
      ++ consecutive (442797 + 1) k
    /\ (num_le (Num (442797 + 1)) toSlot = true ->
        stop (world_with_record store_near_end) = false -> (0 < k)%nat)
    /\ ((0 < k)%nat ->
        hd_error (consecutive (442797 + 1) k) = Some (Num (442797 + 1)))
    /\ (forall s, In s (consecutive (442797 + 1) k) ->
                  num_lt (Num 442797) s = true).
Proof.
  apply (scan_resumes_after_checkpoint beacon_one_block
           (world_with_record store_near_end) 442797).
  - reflexivity.
  - unfold safe_integer. simpl. lia.
Defined.

Example scan_near_end_ex :
  beacon_log (snd (scan_phase beacon_one_block (world_with_record store_near_end)))
  = [Num 442798; Num 442799].
Proof. reflexivity. Qed.

(** ** The whole run *)

Lemma resolve_indexes_file (explorer : list number -> result (list Deposit))
  (bs : list (list number)) (addresses : list jsstring) (w : world) :
  indexes_file (snd (resolve explorer bs addresses w)) = indexes_file w.
Proof.
  revert addresses w. induction bs as [|b bs IH]; intros addresses w;
    [reflexivity|].
  cbn [resolve]. rewrite resolve_step.
  destruct (explorer b); [rewrite IH|]; reflexivity.
Qed.

Lemma readEntries_world (w : world) (entries : list Row) :
  fst (readEntries w) = Ok entries -> readEntries w = (Ok entries, w).
Proof.
  destruct (record_file w) as [c|] eqn:E.
  - rewrite (readEntries_run w c E). simpl. intros H. rewrite H. reflexivity.
  - rewrite (readEntries_missing w E). discriminate.
Qed.

(** The index list is what the run writes to the file of validator
    indexes, one index per line. *)
Lemma runScript_indexes_file
  (beacon : number -> result (list Block) * bool)
  (explorer : list number -> result (list Deposit))
  (w w1 : world) (entries : list Row) :
  scan_phase beacon w = (Ok tt, w1) ->
  fst (readEntries w1) = Ok entries ->
  indexes_file (snd (runScript beacon explorer w))
  = Some (join [newline]
            (map number_to_string (collectProposerIndexes entries))).
Proof.
  intros Hscan Hread. apply readEntries_world in Hread.
  unfold runScript. unfold bind at 1. rewrite Hscan.
  unfold bind at 1. rewrite Hread.
  unfold bind at 1. unfold console_log at 1.
  unfold bind at 1. unfold writeFileSync_indexes at 1.
  unfold bind at 1. rewrite fetchDepositAddresses_resolve.
  match goal with
  | |- context [resolve explorer ?bs ?a ?w2] =>
      pose proof (resolve_indexes_file explorer bs a w2) as Hres;
      destruct (resolve explorer bs a w2) as [[addresses|e] w3]
  end; cbn [snd] in Hres.
  - unfold bind, console_log, writeFileSync_addresses. cbn [snd].
    cbn [indexes_file set_addresses_file set_console]. rewrite Hres. reflexivity.
  - cbn [snd]. rewrite Hres. reflexivity.
Qed.

(** ** The index list *)

(** C7.  The output index list holds exactly the proposer indexes of the
    entries whose slot lies in the window and whose graffiti matches the
    pattern, case ignored; each appears once, in the order in which it
    was first seen; and this list is what a run that completes its scan
    writes to the file of validator indexes. *)
Theorem collectProposerIndexes_correct (entries : list Row) :
  (forall e, selected e = true
             <-> in_window e /\ contains_ci graffitiToMatch (graffiti e))
  /\ (forall x, In x (collectProposerIndexes entries)
                <-> exists e, In e entries /\ in_window e
                              /\ contains_ci graffitiToMatch (graffiti e)
                              /\ proposerIndex e = x)
  /\ NoDup (collectProposerIndexes entries)
  /\ collectProposerIndexes entries
     = first_seen number_eqb (map proposerIndex (filter selected entries))
  /\ (forall beacon explorer w w1,
         scan_phase beacon w = (Ok tt, w1) ->
         fst (readEntries w1) = Ok entries ->
         indexes_file (snd (runScript beacon explorer w))
         = Some (join [newline]
                   (map number_to_string (collectProposerIndexes entries)))).
Proof.
  split; [exact selected_spec|]. split; [|split; [|split]].
  - intros x. rewrite In_collect. split.
    + intros (e & Hin & Hs & He). apply selected_spec in Hs.
      exists e. tauto.
    + intros (e & Hin & Hw & Hc & He). exists e.
      rewrite selected_spec. tauto.
  - rewrite collect_first_seen.
    apply (NoDup_first_seen number_eqb number_eqb_eq).
  - apply collect_first_seen.
  - intros beacon explorer w w1. apply runScript_indexes_file.
Qed.

Example collectProposerIndexes_ex :
  collectProposerIndexes
    [header_row;
     mkRow (Num 327601) (Num 5) (str "dappnode-x");
     mkRow (Num 327602) (Num 6) (str "other");
     mkRow (Num 327603) (Num 7) (str "DAppNode-y");
     mkRow (Num 327604) (Num 5) (str "dappnode-z");
     mkRow (Num 442800) (Num 8) (str "dappnode")]
  = [Num 5; Num 7].
Proof. reflexivity. Qed.

(** A run on a store with the checkpoint 442797: it asks the slots
    442798 and 442799.  When the write of the first block completes
    while the second is awaited, the first block is among the rows
    aggregated; the second is still queued then. *)
Example runScript_ex :
  indexes_file
    (snd (runScript beacon_one_block explorer_two
            (set_io_schedule [0; 1]%nat (world_with_record store_near_end))))
  = Some (str "7")
  /\ addresses_file
       (snd (runScript beacon_one_block explorer_two
               (set_io_schedule [0; 1]%nat
                  (world_with_record store_near_end))))
     = Some (str "0x27e1")
  /\ indexes_file
       (snd (runScript beacon_one_block explorer_two
               (world_with_record store_near_end)))
     = Some [].
Proof. repeat split; vm_compute; reflexivity. Qed.

(** * Further properties of the code *)

(** ** What one scan iteration does *)

Lemma record_blocks_run (bs : list Block) (q : pending) (w : world) :
  exists w',
    for_of bs
      (fun block q =>
         q' <- addEntry (mkRow (parseInt (block_slot block))
                               (parseInt (block_proposerIndex block))
                               (parseGraffiti (block_graffiti block))) q ;;
         console_log (str "slot " ++ block_slot block) ;;;
         ret q') q w = (Ok (q ++ block_chunks bs), w')
    /\ record_file w' = record_file w
    /\ io_schedule w' = io_schedule w
    /\ console w' = console w ++ progress_lines bs
    /\ beacon_log w' = beacon_log w
    /\ stop w' = stop w
    /\ same_outputs w w'.
Proof.
  revert q w. induction bs as [|b bs IH]; intros q w.
  - exists w. unfold same_outputs. simpl. rewrite !app_nil_r. tauto.
  - cbn [for_of]. unfold bind at 1. unfold bind at 1. rewrite addEntry_run.
    unfold bind at 1. unfold console_log at 1. unfold ret at 1.
    match goal with
    | |- context [for_of bs ?f ?q1 ?w1] =>
        destruct (IH q1 w1)
          as (w' & Hrun & Hrf & Hio & Hco & Hbl & Hsp & Hi & Ha & He)
    end.
    exists w'. rewrite Hrun. unfold block_chunks at 2. cbn [map].
    fold (block_row b). fold (block_chunks bs). rewrite <- app_assoc.
    split; [reflexivity|].
    rewrite Hrf, Hio, Hco, Hbl, Hsp. unfold same_outputs. rewrite Hi, Ha, He.
    unfold progress_lines. cbn [map].
    destruct (record_stream w);
      cbn [record_file console beacon_log stop indexes_file addresses_file
           explorer_log io_schedule set_console set_record_stream];
      rewrite <- ?app_assoc; repeat split; reflexivity.
Qed.

(** What one turn of the event loop does to the stream. *)
Lemma event_loop_turn_run (q : pending) (w : world) :
  fst (event_loop_turn q w) = skipn (hd 0%nat (io_schedule w)) q
  /\ store_text (snd (event_loop_turn q w))
     = store_text w ++ pending_text (firstn (hd 0%nat (io_schedule w)) q)
  /\ io_schedule (snd (event_loop_turn q w)) = tl (io_schedule w)
  /\ (forall c, record_file w = Some c ->
                exists c', record_file (snd (event_loop_turn q w)) = Some c').
Proof.
  unfold event_loop_turn. destruct (io_schedule w) as [|n rest] eqn:E;
    cbn [fst snd hd tl].
  - unfold pending_text. cbn [skipn firstn map List.concat].
    rewrite app_nil_r. split; [reflexivity|]. split; [reflexivity|].
    split; [exact E|]. intros c Hc. exists c. exact Hc.
  - split; [reflexivity|].
    split; [apply (store_text_write_chunks (firstn n q) w)|].
    split; [reflexivity|].
    intros c Hc. destruct (firstn n q); [exists c; exact Hc|].
    eexists. reflexivity.
Qed.

Lemma scan_slot_run (beacon : number -> result (list Block) * bool)
  (s : number) (q : pending) (w : world) :
  exists w',
    scan_slot beacon s q w
    = (scan_result (match fst (beacon s) with
                    | Ok _ => Ok tt
                    | Throw e => Throw e
                    end)
         (skipn (hd 0%nat (io_schedule w)) q
          ++ block_chunks (answer beacon s)), w')
    /\ store_text w'
       = store_text w ++ pending_text (firstn (hd 0%nat (io_schedule w)) q)
    /\ (forall c, record_file w = Some c -> exists c', record_file w' = Some c')
    /\ console w' = console w ++ progress_lines (answer beacon s)
    /\ beacon_log w' = beacon_log w ++ [s]
    /\ stop w' = stop w || snd (beacon s)
    /\ same_outputs w w'.
Proof.
  unfold scan_slot, bind at 1, fetchBlock, answer.
  destruct (beacon s) as [res sigint]; cbn [fst snd].
  set (w0 := set_beacon_log (beacon_log w ++ [s]) w).
  destruct (event_loop_turn_run q w0) as (Hq & Htext & _ & Hfile).
  destruct (event_loop_turn_frame q w0) as (Hi & Ha & _ & Hsp & Hco & Hbl & He).
  destruct (event_loop_turn q w0) as [q1 w1]. cbn [fst snd] in *.
  change (io_schedule w0) with (io_schedule w) in *.
  change (store_text w0) with (store_text w) in *.
  subst q1.
  destruct res as [bs|e]; cbn [fst snd scan_result].
  - match goal with
    | |- context [for_of bs ?f ?q2 ?w2] =>
        destruct (record_blocks_run bs q2 w2)
          as (w' & Hrun & Hrf & _ & Hco' & Hbl' & Hsp' & Hi' & Ha' & He')
    end.
    exists w'. rewrite Hrun. split; [reflexivity|].
    unfold store_text in *. rewrite Hrf. cbn [record_file set_stop].
    split; [exact Htext|]. split; [exact Hfile|].
    rewrite Hco', Hbl', Hsp'. unfold same_outputs. rewrite Hi', Ha', He'.
    cbn [console beacon_log stop indexes_file addresses_file explorer_log
         set_stop].
    rewrite Hco, Hbl, Hsp, Hi, Ha, He. repeat split; reflexivity.
  - eexists. split; [reflexivity|]. unfold progress_lines.
    cbn [map]. rewrite app_nil_r. unfold same_outputs, store_text in *.
    cbn [record_file console beacon_log stop indexes_file addresses_file
         explorer_log set_stop].
    rewrite Hco, Hbl, Hsp, Hi, Ha, He. repeat split; try reflexivity;
      assumption.
Qed.

(** ** The scan loop, slot by slot *)

Lemma slot_at_S (z : Z) (i : nat) : slot_at z (S i) = slot_at (z + 1) i.
Proof. unfold slot_at. f_equal. lia. Qed.

Lemma slot_at_0 (z : Z) : slot_at z 0 = Num z.
Proof. unfold slot_at. f_equal. lia. Qed.

Lemma slots_left_S (z : Z) :
  num_le (Num z) toSlot = true ->
  slots_left (Num z) = S (slots_left (Num (z + 1))).
Proof.
  unfold num_le, slots_left, toSlot. intros H. apply Z.leb_le in H.
  rewrite <- Z2Nat.inj_succ by lia. f_equal. lia.
Qed.

Lemma slots_left_0 (z : Z) :
  num_le (Num z) toSlot = false -> slots_left (Num z) = 0%nat.
Proof.
  unfold num_le, slots_left, toSlot. intros H. apply Z.leb_gt in H. lia.
Qed.

(** Taking and dropping beyond a prefix. *)
Lemma firstn_skipn_beyond {A : Type} (a rest : list A) (m : nat) :
  firstn (List.length a + m) (a ++ rest) = a ++ firstn m rest
  /\ skipn (List.length a + m) (a ++ rest) = skipn m rest.
Proof.
  split; [apply firstn_app_2|].
  rewrite skipn_app, skipn_all2 by apply Nat.le_add_r.
  replace (List.length a + m - List.length a)%nat with m
    by (rewrite Nat.add_comm; symmetry; apply Nat.add_sub).
  reflexivity.
Qed.

Lemma firstn_skipn_cut {A : Type} (n : nat) (q rest : list A) :
  firstn (List.length (firstn n q)) (q ++ rest) = firstn n q
  /\ skipn (List.length (firstn n q)) (q ++ rest) = skipn n q ++ rest.
Proof.
  destruct (firstn_skipn_beyond (firstn n q) (skipn n q ++ rest) 0)
    as [H1 H2].
  rewrite app_assoc, firstn_skipn, Nat.add_0_r in H1, H2.
  cbn [firstn skipn] in H1, H2. rewrite app_nil_r in H1.
  split; assumption.
Qed.

Lemma scan_chunks_cons (beacon : number -> result (list Block) * bool)
  (z : Z) (k : nat) :
  scan_chunks beacon (consecutive z (S k))
  = block_chunks (answer beacon (Num z))
    ++ scan_chunks beacon (consecutive (z + 1) k).
Proof. unfold scan_chunks. rewrite consecutive_cons. reflexivity. Qed.

(** The loop started at slot [z] with the interrupt flag clear and the
    chunks [q] queued: the [k] slots it asks, what it leaves in the world
    and in the stream, and how it ends.  Of the chunks handed to the
    stream, the first [m] are in the file and the others are still
    queued; those of the last slot asked are among the latter. *)
Lemma scan_loop_run (beacon : number -> result (list Block) * bool)
  (n : nat) (z : Z) (q : pending) (w : world) :
  slots_left (Num z) = n -> stop w = false ->
  exists k w' m,
    scan_loop beacon (Num z) q w
    = (scan_result (scan_outcome beacon z k)
         (skipn m (q ++ scan_chunks beacon (consecutive z k))), w')
    /\ (k <= n)%nat /\ ((0 < n)%nat -> (0 < k)%nat)
    /\ beacon_log w' = beacon_log w ++ consecutive z k
    /\ (store_text w'
        = store_text w
          ++ pending_text
               (firstn m (q ++ scan_chunks beacon (consecutive z k)))
        /\ (m <= List.length
                   (q ++ scan_chunks beacon (consecutive z (Nat.pred k))))%nat
        /\ (k = 0%nat -> m = 0%nat)
        /\ (forall c, record_file w = Some c ->
                      exists c', record_file w' = Some c'))
    /\ console w'
       = console w
         ++ flat_map (fun s => progress_lines (answer beacon s))
              (consecutive z k)
    /\ stop w' = scan_interrupted beacon z k
    /\ same_outputs w w'
    /\ (forall i, (S i < k)%nat -> answered_quietly beacon (slot_at z i))
    /\ ((k < n)%nat -> ~ answered_quietly beacon (slot_at z (Nat.pred k))).
Proof.
  revert z q w. induction n as [|n IH]; intros z q w Hn Hstop;
    rewrite scan_loop_eq; rewrite Hstop; cbn [negb]; rewrite andb_true_r.
  - destruct (num_le (Num z) toSlot) eqn:Hle.
    { rewrite (slots_left_S z Hle) in Hn. discriminate Hn. }
    exists 0%nat, w, 0%nat. unfold same_outputs, scan_chunks, pending_text.
    cbn [consecutive seq map flat_map scan_outcome scan_result skipn firstn
         List.concat Nat.pred].
    rewrite !app_nil_r.
    split; [reflexivity|]. split; [apply le_n|]. split; [intros H; exact H|].
    split; [reflexivity|].
    split; [split; [reflexivity|]; split; [apply Nat.le_0_l|];
            split; [reflexivity | intros c Hc; exists c; exact Hc]|].
    split; [reflexivity|].
    split; [exact Hstop|]. split; [repeat split|].
    split; [intros i Hi; inversion Hi | intros Hlt; inversion Hlt].
  - destruct (num_le (Num z) toSlot) eqn:Hle.
    2: { rewrite (slots_left_0 z Hle) in Hn. discriminate Hn. }
    rewrite (slots_left_S z Hle) in Hn. apply Nat.succ_inj in Hn.
    destruct (scan_slot_run beacon (Num z) q w)
      as (w1 & Hrun & Hst & Hkeep & Hco & Hbl & Hsp & Hi & Ha & He).
    rewrite Hrun. rewrite Hstop in Hsp. cbn [orb] in Hsp.
    set (n1 := hd 0%nat (io_schedule w)) in *.
    set (C := block_chunks (answer beacon (Num z))) in *.
    assert (Hq : q = firstn n1 q ++ skipn n1 q)
      by (symmetry; apply firstn_skipn).
    assert (Hlen : (List.length (firstn n1 q) <= List.length q)%nat)
      by (rewrite Hq at 2; rewrite length_app; apply Nat.le_add_r).
    assert (Hone :
              forall r : result unit,
                ~ answered_quietly beacon (Num z) ->
                scan_outcome beacon z 1 = r ->
                stop w1 = scan_interrupted beacon z 1 ->
                exists k w' m,
                  (scan_result r (skipn n1 q ++ C), w1)
                  = (scan_result (scan_outcome beacon z k)
                       (skipn m (q ++ scan_chunks beacon (consecutive z k))),
                     w')
                  /\ (k <= S n)%nat /\ ((0 < S n)%nat -> (0 < k)%nat)
                  /\ beacon_log w' = beacon_log w ++ consecutive z k
                  /\ (store_text w'
                      = store_text w
                        ++ pending_text
                             (firstn m
                                (q ++ scan_chunks beacon (consecutive z k)))
                      /\ (m <= List.length
                                 (q ++ scan_chunks beacon
                                         (consecutive z (Nat.pred k))))%nat
                      /\ (k = 0%nat -> m = 0%nat)
                      /\ (forall c, record_file w = Some c ->
                                    exists c', record_file w' = Some c'))
                  /\ console w'
                     = console w
                       ++ flat_map (fun s => progress_lines (answer beacon s))
                            (consecutive z k)
                  /\ stop w' = scan_interrupted beacon z k
                  /\ same_outputs w w'
                  /\ (forall i, (S i < k)%nat ->
                                answered_quietly beacon (slot_at z i))
                  /\ ((k < S n)%nat ->
                      ~ answered_quietly beacon (slot_at z (Nat.pred k)))).
    { intros r Hnq Hr Hint. exists 1%nat, w1, (List.length (firstn n1 q)).
      rewrite scan_chunks_cons. unfold scan_chunks at 1 2.
      cbn [consecutive seq map flat_map Nat.pred].
      fold C. rewrite !app_nil_r.
      destruct (firstn_skipn_cut n1 q C) as [Hcut1 Hcut2].
      rewrite Hcut1, Hcut2.
      split; [rewrite Hr; reflexivity|].
      split; [apply le_n_S, Nat.le_0_l|]. split; [intros _; apply Nat.lt_0_1|].
      unfold consecutive. cbn [seq map flat_map].
      rewrite Z.add_0_r, ?app_nil_r.
      split; [exact Hbl|].
      split; [split; [exact Hst|]; split; [exact Hlen|];
              split; [discriminate | exact Hkeep]|].
      split; [exact Hco|].
      split; [exact Hint|]. split; [exact (conj Hi (conj Ha He))|].
      split.
      - intros i Hlt. apply Nat.succ_lt_mono in Hlt. inversion Hlt.
      - intros _. cbn [Nat.pred]. rewrite slot_at_0. exact Hnq. }
    destruct (beacon (Num z)) as [[bs|e] sigint] eqn:Hb; cbn [fst snd] in *.
    + destruct sigint.
      * (* interrupted while the slot was fetched: the loop ends here *)
        cbn [scan_result]. cbn [num_add]. rewrite scan_loop_eq, Hsp.
        cbn [negb]. rewrite andb_false_r.
        apply (Hone (Ok tt)).
        -- intros [bs' Hbs']. rewrite Hb in Hbs'. discriminate Hbs'.
        -- unfold scan_outcome. rewrite slot_at_0, Hb. reflexivity.
        -- unfold scan_interrupted. rewrite slot_at_0, Hb. exact Hsp.
      * cbn [scan_result]. cbn [num_add]. clear Hone.
        destruct (IH (z + 1) (skipn n1 q ++ C) w1 Hn Hsp)
          as (k & w' & m & Hloop & Hk & Hpos & Hlog & Hfile & Hcons & Hint
              & Hout & Hquiet & Hlast).
        destruct Hfile as (Hfile & Hm & Hm0 & Hkeep').
        exists (S k), w', (List.length (firstn n1 q) + m)%nat.
        rewrite Hloop.
        destruct Hout as (Hi' & Ha' & He').
        assert (Hout : scan_outcome beacon z (S k) = scan_outcome beacon (z + 1) k).
        { destruct k as [|k]; cbn [scan_outcome].
          - rewrite slot_at_0, Hb. reflexivity.
          - rewrite slot_at_S. reflexivity. }
        assert (Hint' : scan_interrupted beacon z (S k)
                        = scan_interrupted beacon (z + 1) k).
        { destruct k as [|k]; cbn [scan_interrupted].
          - rewrite slot_at_0, Hb. reflexivity.
          - rewrite slot_at_S. reflexivity. }
        assert (Hall : q ++ scan_chunks beacon (consecutive z (S k))
                       = firstn n1 q
                         ++ ((skipn n1 q ++ C)
                             ++ scan_chunks beacon (consecutive (z + 1) k))).
        { rewrite scan_chunks_cons. fold C. rewrite Hq at 1.
          rewrite <- !app_assoc. reflexivity. }
        destruct (firstn_skipn_beyond (firstn n1 q)
                    ((skipn n1 q ++ C)
                     ++ scan_chunks beacon (consecutive (z + 1) k)) m)
          as [Hcut1 Hcut2].
        rewrite Hall, Hcut1, Hcut2.
        split; [rewrite Hout; reflexivity|].
        split; [apply le_n_S; exact Hk|].
        split; [intros _; apply Nat.lt_0_succ|].
        rewrite consecutive_cons. cbn [flat_map].
        split; [rewrite Hlog, Hbl, <- app_assoc; reflexivity|].
        split.
        { split; [rewrite Hfile, Hst, pending_text_app, <- app_assoc;
                  reflexivity|].
          split.
          - cbn [Nat.pred]. destruct k as [|k].
            + rewrite (Hm0 eq_refl), Nat.add_0_r.
              unfold scan_chunks. cbn [consecutive seq map flat_map].
              rewrite app_nil_r. exact Hlen.
            + cbn [Nat.pred] in Hm.
              rewrite scan_chunks_cons. fold C.
              assert (Hlq : List.length q
                            = (List.length (firstn n1 q)
                               + List.length (skipn n1 q))%nat)
                by (rewrite Hq at 1; apply length_app).
              rewrite !length_app in *. rewrite Hlq. lia.
          - split; [discriminate|].
            intros c Hc. destruct (Hkeep c Hc) as [c1 Hc1].
            exact (Hkeep' c1 Hc1). }
        split; [rewrite Hcons, Hco, <- app_assoc; reflexivity|].
        split; [rewrite Hint', Hint; reflexivity|].
        split; [unfold same_outputs; rewrite Hi', Ha', He'; auto|].
        split.
        -- intros [|i] Hlt.
           ++ rewrite slot_at_0. exists bs. exact Hb.
           ++ rewrite slot_at_S. apply Hquiet.
              apply Nat.succ_lt_mono. exact Hlt.
        -- intros Hlt. apply Nat.succ_lt_mono in Hlt.
           destruct k as [|k].
           ++ exfalso. assert (Hn0 : (0 < n)%nat) by exact Hlt.
              apply Hpos in Hn0. inversion Hn0.
           ++ cbn [Nat.pred]. rewrite slot_at_S. apply (Hlast Hlt).
    + apply (Hone (Throw e)).
      * intros [bs' Hbs']. rewrite Hb in Hbs'. discriminate Hbs'.
      * unfold scan_outcome. rewrite slot_at_0, Hb. reflexivity.
      * unfold scan_interrupted. rewrite slot_at_0, Hb. exact Hsp.
Qed.

(** ** The scan phase of a run *)

Lemma CsvRecord_new_run (w : world) :
  CsvRecord_new w
  = (Ok tt,
     match record_file w with
     | Some _ => w
     | None => set_record_file (Some (header ++ [newline])) w
     end).
Proof. unfold CsvRecord_new. destruct (record_file w); reflexivity. Qed.

Lemma CsvRecord_new_file (w : world) :
  exists c, record_file (snd (CsvRecord_new w)) = Some c
            /\ (record_file w = None -> c = header ++ [newline])
            /\ (forall c0, record_file w = Some c0 -> c = c0).
Proof.
  rewrite CsvRecord_new_run. destruct (record_file w) as [c0|] eqn:E; cbn [snd].
  - exists c0. rewrite E. split; [reflexivity|]. split; [discriminate|].
    intros c1 H. injection H as <-. reflexivity.
  - eexists. split; [reflexivity|]. split; [reflexivity | discriminate].
Qed.

Lemma CsvRecord_new_frame (w : world) :
  beacon_log (snd (CsvRecord_new w)) = beacon_log w
  /\ stop (snd (CsvRecord_new w)) = stop w
  /\ console (snd (CsvRecord_new w)) = console w
  /\ same_outputs w (snd (CsvRecord_new w)).
Proof.
  rewrite CsvRecord_new_run. unfold same_outputs.
  destruct (record_file w); cbn [snd]; repeat split; reflexivity.
Qed.

Lemma getLastSlot_run (w : world) (c : jsstring) :
  record_file w = Some c -> exists o, getLastSlot w = (Ok o, w).
Proof.
  intros Hc. pose proof (getLastSlot_world w) as Hw.
  destruct (getLastSlot w) as [[o|e] w'] eqn:E; cbn [snd] in Hw; subst w'.
  - exists o. reflexivity.
  - exfalso. unfold getLastSlot, bind, readFileSync_record in E.
    rewrite Hc in E.
    destruct (option_map trim (last_elem (split newline (trim c))));
      [destruct (_ || _)|]; discriminate E.
Qed.

(** The scan phase is the loop, started at the resume slot on the store
    the constructor leaves, with nothing queued. *)
Lemma scan_phase_loop (beacon : number -> result (list Block) * bool)
  (w : world) :
  scan_phase_record beacon w
  = scan_loop beacon (resume_slot w) [] (snd (CsvRecord_new w)).
Proof.
  unfold scan_phase_record, resume_slot. unfold bind at 1.
  destruct (CsvRecord_new_file w) as (c & Hc & _).
  destruct (CsvRecord_new w) as [r w0] eqn:E.
  rewrite CsvRecord_new_run in E. injection E as <- E. cbn [snd] in *.
  destruct (getLastSlot_run w0 c Hc) as [o Ho].
  unfold bind. rewrite Ho. cbn [fst]. destruct o; reflexivity.
Qed.

Lemma scan_loop_idle (beacon : number -> result (list Block) * bool)
  (s : number) (q : pending) (w : world) :
  stop w = true \/ num_le s toSlot = false ->
  scan_loop beacon s q w = (Ok q, w).
Proof.
  intros H. rewrite scan_loop_eq.
  destruct H as [-> | ->]; [rewrite andb_false_r|]; reflexivity.
Qed.

(** The scan phase, as the loop of a run that starts at the slot [z]
    with the interrupt flag clear. *)
Lemma scan_phase_run (beacon : number -> result (list Block) * bool)
  (w : world) (z : Z) :
  resume_slot w = Num z -> stop w = false ->
  exists k w' m,
    scan_phase_record beacon w
    = (scan_result (scan_outcome beacon z k)
         (skipn m (scan_chunks beacon (consecutive z k))), w')
    /\ scan_phase beacon w = (scan_outcome beacon z k, w')
    /\ (k <= slots_left (Num z))%nat
    /\ ((0 < slots_left (Num z))%nat -> (0 < k)%nat)
    /\ beacon_log w' = beacon_log w ++ consecutive z k
    /\ (store_text w'
        = store_text (snd (CsvRecord_new w))
          ++ pending_text (firstn m (scan_chunks beacon (consecutive z k)))
        /\ (m <= List.length
                   (scan_chunks beacon (consecutive z (Nat.pred k))))%nat
        /\ exists c', record_file w' = Some c')
    /\ console w'
       = console w
         ++ flat_map (fun s => progress_lines (answer beacon s))
              (consecutive z k)
    /\ stop w' = scan_interrupted beacon z k
    /\ same_outputs w w'
    /\ (forall i, (S i < k)%nat -> answered_quietly beacon (slot_at z i))
    /\ ((k < slots_left (Num z))%nat ->
        ~ answered_quietly beacon (slot_at z (Nat.pred k))).
Proof.
  intros Hz Hstop.
  destruct (CsvRecord_new_frame w) as (Hbl0 & Hst0 & Hco0 & Hi0 & Ha0 & He0).
  destruct (CsvRecord_new_file w) as (c0 & Hc0 & _).
  rewrite <- Hst0 in Hstop.
  destruct (scan_loop_run beacon _ z [] (snd (CsvRecord_new w)) eq_refl Hstop)
    as (k & w' & m & Hloop & Hk & Hpos & Hlog & (Hfile & Hm & _ & Hkeep)
        & Hcons & Hint & (Hi & Ha & He) & Hquiet & Hlast).
  cbn [app] in *.
  exists k, w', m.
  assert (Hrec : scan_phase_record beacon w
                 = (scan_result (scan_outcome beacon z k)
                      (skipn m (scan_chunks beacon (consecutive z k))), w')).
  { rewrite scan_phase_loop, Hz. exact Hloop. }
  split; [exact Hrec|].
  split.
  { unfold scan_phase, bind. rewrite Hrec.
    destruct (scan_outcome beacon z k) as [[]|e]; reflexivity. }
  split; [exact Hk|]. split; [exact Hpos|].
  split; [rewrite Hlog, Hbl0; reflexivity|].
  split; [split; [exact Hfile|]; split; [exact Hm | exact (Hkeep c0 Hc0)]|].
  split; [rewrite Hcons, Hco0; reflexivity|].
  split; [exact Hint|].
  split; [unfold same_outputs; rewrite Hi, Ha, He; auto|].
  split; assumption.
Qed.

(** A scan phase that asks nothing of the beacon node. *)
Lemma scan_phase_idle (beacon : number -> result (list Block) * bool)
  (w : world) :
  stop w = true \/ num_le (resume_slot w) toSlot = false ->
  scan_phase_record beacon w = (Ok [], snd (CsvRecord_new w))
  /\ scan_phase beacon w = CsvRecord_new w.
Proof.
  intros H.
  assert (Hrec : scan_phase_record beacon w = (Ok [], snd (CsvRecord_new w))).
  { rewrite scan_phase_loop. apply scan_loop_idle.
    destruct (CsvRecord_new_frame w) as (_ & Hst0 & _).
    rewrite Hst0. exact H. }
  split; [exact Hrec|].
  unfold scan_phase, bind. rewrite Hrec, CsvRecord_new_run. reflexivity.
Qed.

(** Either the scan phase asks nothing, or it is the loop from an
    integer slot on with the interrupt flag clear. *)
Lemma scan_phase_cases (w : world) :
  (stop w = true \/ num_le (resume_slot w) toSlot = false)
  \/ (stop w = false /\ exists z, resume_slot w = Num z).
Proof.
  destruct (stop w); [left; left; reflexivity|].
  destruct (resume_slot w) as [z|].
  - right. split; [reflexivity | exists z; reflexivity].
  - left. right. reflexivity.
Qed.

Lemma In_consecutive_le (z : Z) (k : nat) (s : number) :
  (k <= slots_left (Num z))%nat -> In s (consecutive z k) ->
  num_le (Num z) s = true /\ num_le s toSlot = true.
Proof.
  unfold consecutive, slots_left, toSlot. intros Hk Hin.
  apply in_map_iff in Hin. destruct Hin as (i & <- & Hi).
  apply in_seq in Hi. unfold num_le. split; apply Z.leb_le; lia.
Qed.

Lemma last_elem_app_consecutive (l : list number) (z : Z) (k : nat) :
  last_elem (l ++ consecutive z (S k)) = Some (slot_at z k).
Proof.
  unfold last_elem, consecutive. rewrite seq_S, map_app, app_assoc.
  cbn [map]. rewrite length_app. cbn [List.length].
  rewrite Nat.add_1_r. cbn [Nat.sub]. rewrite Nat.sub_0_r.
  rewrite nth_error_app2 by apply le_n. rewrite Nat.sub_diag. reflexivity.
Qed.

(** X1.  A scan that starts at the safe-integer slot [z] with the
    interrupt flag clear asks the beacon node for consecutive slots from
    [z] on, none beyond [toSlot], and at least [z] itself when
    [z <= toSlot].  Every slot before the last one asked was answered
    with no interrupt meanwhile; if the last one asked is before
    [toSlot], its request failed or an interrupt arrived while it was
    awaited.  The scan ends with the error of that last request, or
    normally; the interrupt flag ends up set exactly when an interrupt
    arrived during the last request. *)
Theorem scan_stops_at_first_trouble
  (beacon : number -> result (list Block) * bool) (w : world) (z : Z) :
  resume_slot w = Num z -> safe_integer z -> stop w = false ->
  exists k,
    beacon_log (snd (scan_phase beacon w)) = beacon_log w ++ consecutive z k
    /\ (forall s, In s (consecutive z k) -> num_le s toSlot = true)
    /\ (num_le (Num z) toSlot = true -> (0 < k)%nat)
    /\ (forall i, (S i < k)%nat -> answered_quietly beacon (slot_at z i))
    /\ ((0 < k)%nat -> num_lt (slot_at z (Nat.pred k)) toSlot = true ->
        ~ answered_quietly beacon (slot_at z (Nat.pred k)))
    /\ fst (scan_phase beacon w) = scan_outcome beacon z k
    /\ stop (snd (scan_phase beacon w)) = scan_interrupted beacon z k.
Proof.
  intros Hz _ Hstop.
  destruct (scan_phase_run beacon w z Hz Hstop)
    as (k & w' & m & _ & Hloop & Hk & Hpos & Hlog & _ & _ & Hint & _
        & Hquiet & Hlast).
  exists k. rewrite Hloop. cbn [fst snd].
  split; [exact Hlog|].
  split; [intros s Hs; apply (In_consecutive_le z k s Hk Hs)|].
  split; [intros Hle; apply Hpos; rewrite (slots_left_S z Hle);
          apply Nat.lt_0_succ|].
  split; [exact Hquiet|].
  split; [|split; [reflexivity | exact Hint]].
  intros Hk0 Hlt. apply Hlast.
  unfold num_lt, slot_at, slots_left, toSlot in *. apply Z.ltb_lt in Hlt. lia.
Qed.

Lemma scan_stops_at_first_trouble_witness :
  exists k,
    beacon_log (snd (scan_phase beacon_failing_last
                       (world_with_record store_near_end)))
    = beacon_log (world_with_record store_near_end) ++ consecutive 442798 k
    /\ (forall s, In s (consecutive 442798 k) -> num_le s toSlot = true)
    /\ (num_le (Num 442798) toSlot = true -> (0 < k)%nat)
    /\ (forall i, (S i < k)%nat ->
                  answered_quietly beacon_failing_last (slot_at 442798 i))
    /\ ((0 < k)%nat -> num_lt (slot_at 442798 (Nat.pred k)) toSlot = true ->
        ~ answered_quietly beacon_failing_last (slot_at 442798 (Nat.pred k)))
    /\ fst (scan_phase beacon_failing_last (world_with_record store_near_end))
       = scan_outcome beacon_failing_last 442798 k
    /\ stop (snd (scan_phase beacon_failing_last
                    (world_with_record store_near_end)))
       = scan_interrupted beacon_failing_last 442798 k.
Proof.
  apply (scan_stops_at_first_trouble beacon_failing_last
           (world_with_record store_near_end) 442798).
  - reflexivity.
  - unfold safe_integer. simpl. lia.
  - reflexivity.
Defined.

(** The scan leaves the output files and the explorer alone. *)
Lemma scan_appends_blocks_frame
  (beacon : number -> result (list Block) * bool) (w : world) :
  same_outputs w (snd (scan_phase beacon w))
  /\ (stop (snd (CsvRecord_new w)) = stop w).
Proof.
  destruct (CsvRecord_new_frame w) as (_ & Hst0 & _ & Hout0).
  split; [|exact Hst0].
  destruct (scan_phase_cases w) as [Hidle | (Hstop & z & Hz)].
  - destruct (scan_phase_idle beacon w Hidle) as [_ ->]. exact Hout0.
  - destruct (scan_phase_run beacon w z Hz Hstop)
      as (k & w' & m & _ & Hloop & _ & _ & _ & _ & _ & _ & Hout & _).
    rewrite Hloop. exact Hout.
Qed.

Lemma removelast_consecutive (z : Z) (k : nat) :
  removelast (consecutive z k) = consecutive z (Nat.pred k).
Proof.
  destruct k as [|k]; [reflexivity|].
  unfold consecutive. rewrite seq_S, map_app. cbn [map Nat.pred].
  apply removelast_last.
Qed.

(** What the scan phase leaves in the world and in the stream. *)
Lemma scan_phase_effect
  (beacon : number -> result (list Block) * bool) (w : world) :
  exists fetched m,
    beacon_log (snd (scan_phase_record beacon w)) = beacon_log w ++ fetched
    /\ store_text (snd (scan_phase_record beacon w))
       = store_text (snd (CsvRecord_new w))
         ++ pending_text (firstn m (scan_chunks beacon fetched))
    /\ (m <= List.length (scan_chunks beacon (removelast fetched)))%nat
    /\ (forall q, fst (scan_phase_record beacon w) = Ok q ->
                  q = skipn m (scan_chunks beacon fetched))
    /\ (exists c, record_file (snd (scan_phase_record beacon w)) = Some c)
    /\ console (snd (scan_phase_record beacon w))
       = console w ++ flat_map (fun s => progress_lines (answer beacon s)) fetched
    /\ same_outputs w (snd (scan_phase_record beacon w)).
Proof.
  destruct (scan_phase_cases w) as [Hidle | (Hstop & z & Hz)].
  - destruct (scan_phase_idle beacon w Hidle) as [-> _].
    destruct (CsvRecord_new_frame w) as (Hbl0 & _ & Hco0 & Hout0).
    destruct (CsvRecord_new_file w) as (c0 & Hc0 & _).
    exists [], 0%nat. unfold scan_chunks, pending_text.
    cbn [fst snd flat_map firstn skipn removelast map List.concat List.length].
    rewrite !app_nil_r.
    split; [exact Hbl0|]. split; [reflexivity|]. split; [apply le_n|].
    split; [intros q Hq; injection Hq as <-; reflexivity|].
    split; [exists c0; exact Hc0|]. split; [exact Hco0 | exact Hout0].
  - destruct (scan_phase_run beacon w z Hz Hstop)
      as (k & w' & m & Hrec & _ & _ & _ & Hlog & (Hfile & Hm & Hkeep) & Hcons
          & _ & Hout & _).
    exists (consecutive z k), m. rewrite Hrec. cbn [fst snd].
    rewrite removelast_consecutive.
    split; [exact Hlog|]. split; [exact Hfile|]. split; [exact Hm|].
    split.
    { intros q Hq. destruct (scan_outcome beacon z k); [|discriminate Hq].
      injection Hq as <-. reflexivity. }
    split; [exact Hkeep|]. split; [exact Hcons | exact Hout].
Qed.

Lemma store_text_CsvRecord_new (w : world) :
  store_text (snd (CsvRecord_new w))
  = match record_file w with
    | Some c => c
    | None => header ++ [newline]
    end.
Proof.
  rewrite CsvRecord_new_run. unfold store_text.
  destruct (record_file w) as [c|] eqn:E; cbn [snd]; [rewrite E|];
    reflexivity.
Qed.


Lemma bind_Throw {A B : Type} (m : M A) (k : A -> M B) (w w' : world)
  (e : error) :
  m w = (Throw e, w') -> bind m k w = (Throw e, w').
Proof. intros H. unfold bind. rewrite H. reflexivity. Qed.

(** X3.  When the scan fails, the run ends with the error of the scan,
    in the world the scan left: no output file is written and the
    explorer is not asked.  The error is the one of the request for the
    last slot asked. *)
Theorem failed_scan_aborts_run
  (beacon : number -> result (list Block) * bool)
  (explorer : list number -> result (list Deposit)) (w : world) (e : error) :
  fst (scan_phase beacon w) = Throw e ->
  runScript beacon explorer w = (Throw e, snd (scan_phase beacon w))
  /\ same_outputs w (snd (runScript beacon explorer w))
  /\ exists s, last_elem (beacon_log (snd (scan_phase beacon w))) = Some s
               /\ fst (beacon s) = Throw e.
Proof.
  intros Hthrow.
  assert (Hrun : runScript beacon explorer w = (Throw e, snd (scan_phase beacon w))).
  { unfold runScript. apply bind_Throw.
    destruct (scan_phase beacon w) as [r w']. cbn [fst snd] in *.
    rewrite Hthrow. reflexivity. }
  split; [exact Hrun|]. rewrite Hrun. cbn [snd].
  destruct (scan_appends_blocks_frame beacon w) as [Hout _].
  split; [exact Hout|].
  destruct (scan_phase_cases w) as [Hidle | (Hstop & z & Hz)].
  { destruct (scan_phase_idle beacon w Hidle) as [_ Hscan].
    rewrite Hscan, CsvRecord_new_run in Hthrow. discriminate Hthrow. }
  destruct (scan_phase_run beacon w z Hz Hstop)
    as (k & w' & m & _ & Hloop & _ & _ & Hlog & _).
  rewrite Hloop in *. cbn [fst snd] in *. rewrite Hlog.
  destruct k as [|k]; [discriminate Hthrow|].
  exists (slot_at z k). split; [apply last_elem_app_consecutive|].
  cbn [scan_outcome] in Hthrow.
  destruct (fst (beacon (slot_at z k))); [discriminate|].
  injection Hthrow as ->. reflexivity.
Qed.

Lemma failed_scan_aborts_run_witness :
  runScript beacon_failing_last explorer_none (world_with_record store_near_end)
  = (Throw RequestError,
     snd (scan_phase beacon_failing_last (world_with_record store_near_end)))
  /\ same_outputs (world_with_record store_near_end)
       (snd (runScript beacon_failing_last explorer_none
               (world_with_record store_near_end)))
  /\ exists s,
       last_elem (beacon_log (snd (scan_phase beacon_failing_last
                                     (world_with_record store_near_end))))
       = Some s
       /\ fst (beacon_failing_last s) = Throw RequestError.
Proof.
  apply (failed_scan_aborts_run beacon_failing_last explorer_none
           (world_with_record store_near_end) RequestError).
  vm_compute. reflexivity.
Defined.

Lemma trimEnd_all_whitespace (ws : jsstring) :
  all_whitespace ws -> trimEnd ws = [].
Proof.
  unfold all_whitespace. induction ws as [|c ws IH]; [reflexivity|].
  cbn [forallb trimEnd]. intros H. apply andb_prop in H. destruct H as [Hc Hws].
  rewrite (IH Hws), Hc. reflexivity.
Qed.

Lemma getLastSlot_no_rows (w : world) (c : jsstring) :
  record_file w = Some c ->
  trim c = [] \/ trim c = header ->
  getLastSlot w = (Ok None, w).
Proof.
  intros Hfile Htrim. unfold getLastSlot, bind, readFileSync_record.
  rewrite Hfile. destruct Htrim as [-> | ->]; reflexivity.
Qed.

(** X4.  A store without rows holds no checkpoint, and the scan of a run
    on it starts at slot 327601, the slot after [fromSlot]: that is the
    first slot asked of the beacon node unless the run is already
    interrupted. *)
Theorem no_rows_scan_start
  (beacon : number -> result (list Block) * bool) (w : world) :
  no_rows w ->
  fst (getLastSlot (snd (CsvRecord_new w))) = Ok None
  /\ resume_slot w = Num 327601
  /\ (stop w = false ->
      exists k,
        beacon_log (snd (scan_phase beacon w))
        = beacon_log w ++ Num 327601 :: consecutive 327602 k).
Proof.
  intros Hno.
  assert (Hnone : getLastSlot (snd (CsvRecord_new w))
                  = (Ok None, snd (CsvRecord_new w))).
  { rewrite CsvRecord_new_run.
    destruct Hno as [Hf | [(ws & Hf & Hws) | (ws & Hf & Hws)]];
      rewrite Hf; cbn [snd].
    - apply (getLastSlot_no_rows _ (header ++ [newline])); [reflexivity|].
      right. reflexivity.
    - apply (getLastSlot_no_rows _ ws Hf). left.
      unfold trim. rewrite (trimEnd_all_whitespace ws Hws). reflexivity.
    - apply (getLastSlot_no_rows _ (header ++ ws) Hf). right.
      unfold trim. rewrite trimEnd_app, (trimEnd_all_whitespace ws Hws).
      reflexivity. }
  assert (Hres : resume_slot w = Num 327601).
  { unfold resume_slot. rewrite Hnone. reflexivity. }
  split; [rewrite Hnone; reflexivity|]. split; [exact Hres|].
  intros Hstop.
  destruct (scan_phase_run beacon w 327601 Hres Hstop)
    as (k & w' & m & _ & Hloop & _ & Hpos & Hlog & _).
  rewrite Hloop. cbn [snd]. rewrite Hlog.
  destruct k as [|k].
  - exfalso. assert (H0 : (0 < slots_left (Num 327601))%nat).
    { rewrite (slots_left_S 327601 eq_refl). apply Nat.lt_0_succ. }
    apply Hpos in H0. inversion H0.
  - exists k. rewrite consecutive_cons. reflexivity.
Qed.

Lemma no_rows_scan_start_witness :
  fst (getLastSlot (snd (CsvRecord_new empty_world))) = Ok None
  /\ resume_slot empty_world = Num 327601
  /\ (stop empty_world = false ->
      exists k,
        beacon_log (snd (scan_phase beacon_interrupted empty_world))
        = beacon_log empty_world ++ Num 327601 :: consecutive 327602 k).
Proof.
  apply (no_rows_scan_start beacon_interrupted empty_world).
  left. reflexivity.
Defined.

(** X5.  When the run is already interrupted, or the slot after the
    checkpoint is not a number or lies beyond [toSlot], the scan asks
    nothing of the beacon node and appends nothing: the scan phase does
    no more than the constructor.  The run still goes on to the
    aggregation, and writes the index list of the rows in the store. *)
Theorem scan_skipped
  (beacon : number -> result (list Block) * bool)
  (explorer : list number -> result (list Deposit)) (w : world) :
  stop w = true \/ num_le (resume_slot w) toSlot = false ->
  scan_phase beacon w = CsvRecord_new w
  /\ exists entries,
       fst (readEntries (snd (CsvRecord_new w))) = Ok entries
       /\ indexes_file (snd (runScript beacon explorer w))
          = Some (join [newline]
                    (map number_to_string (collectProposerIndexes entries))).
Proof.
  intros H.
  assert (Hscan : scan_phase beacon w = CsvRecord_new w)
    by apply (scan_phase_idle beacon w H).
  split; [exact Hscan|].
  destruct (CsvRecord_new_file w) as (c & Hc & _).
  exists (map parse_row (split newline (trim c))).
  assert (Hread : fst (readEntries (snd (CsvRecord_new w)))
                  = Ok (map parse_row (split newline (trim c)))).
  { rewrite (readEntries_run _ c Hc). reflexivity. }
  split; [exact Hread|].
  apply (runScript_indexes_file beacon explorer w (snd (CsvRecord_new w)));
    [|exact Hread].
  rewrite Hscan, CsvRecord_new_run. reflexivity.
Qed.

Lemma scan_skipped_witness :
  scan_phase beacon_one_block (world_with_record store_bad_checkpoint)
  = CsvRecord_new (world_with_record store_bad_checkpoint)
  /\ exists entries,
       fst (readEntries
              (snd (CsvRecord_new (world_with_record store_bad_checkpoint))))
       = Ok entries
       /\ indexes_file
            (snd (runScript beacon_one_block explorer_none
                    (world_with_record store_bad_checkpoint)))
          = Some (join [newline]
                    (map number_to_string (collectProposerIndexes entries))).
Proof.
  apply (scan_skipped beacon_one_block explorer_none
           (world_with_record store_bad_checkpoint)).
  right. reflexivity.
Defined.

(** ** The record store as a whole *)

(** X6.  The constructor never fails.  It leaves an existing record file
    and the rest of the world as they are, and creates a missing file
    with the header line; running it again changes nothing.  After it,
    [getLastSlot] and [readEntries] return; on a missing file they throw
    [ENOENT]. *)
Theorem constructor_idempotent (w : world) :
  fst (CsvRecord_new w) = Ok tt
  /\ (forall c, record_file w = Some c -> snd (CsvRecord_new w) = w)
  /\ (record_file w = None ->
      snd (CsvRecord_new w) = set_record_file (Some (header ++ [newline])) w)
  /\ CsvRecord_new (snd (CsvRecord_new w)) = CsvRecord_new w
  /\ (exists o, fst (getLastSlot (snd (CsvRecord_new w))) = Ok o)
  /\ (exists rows, fst (readEntries (snd (CsvRecord_new w))) = Ok rows)
  /\ (record_file w = None ->
      fst (getLastSlot w) = Throw ENOENT /\ fst (readEntries w) = Throw ENOENT).
Proof.
  rewrite CsvRecord_new_run.
  split; [reflexivity|].
  split; [intros c Hc; rewrite Hc; reflexivity|].
  split; [intros Hc; rewrite Hc; reflexivity|].
  destruct (CsvRecord_new_file w) as (c & Hc & _).
  rewrite CsvRecord_new_run in Hc.
  split.
  { rewrite CsvRecord_new_run. cbn [snd] in *. rewrite Hc. reflexivity. }
  split.
  { destruct (getLastSlot_run _ c Hc) as [o Ho]. exists o. rewrite Ho.
    reflexivity. }
  split.
  { eexists. rewrite (readEntries_run _ c Hc). reflexivity. }
  intros Hnone. split.
  - unfold getLastSlot, bind, readFileSync_record. rewrite Hnone. reflexivity.
  - rewrite (readEntries_missing w Hnone). reflexivity.
Qed.

Lemma record_file_drained (q : pending) (w : world) (c : jsstring) :
  record_file w = Some c ->
  record_file (write_chunks q w) = Some (c ++ pending_text q).
Proof.
  intros Hc. destruct q as [|x q].
  - cbn [write_chunks]. unfold pending_text. cbn [map List.concat].
    rewrite app_nil_r. exact Hc.
  - rewrite record_file_write_chunks by discriminate.
    unfold store_text. rewrite Hc. reflexivity.
Qed.

Lemma addEntries_run (rows : list Row) (q : pending) (w : world) :
  exists w',
    addEntries rows q w
    = (Ok (q ++ map (fun r => row_line r ++ [newline]) rows), w')
    /\ record_file w' = record_file w.
Proof.
  revert q w. induction rows as [|r rows IH]; intros q w.
  - exists w. cbn [map]. rewrite app_nil_r. split; reflexivity.
  - unfold addEntries in *. cbn [for_of]. unfold bind. rewrite addEntry_run.
    match goal with
    | |- context [for_of rows addEntry ?q1 ?w1] =>
        destruct (IH q1 w1) as (w' & Hrun & Hfile)
    end.
    exists w'. rewrite Hrun, Hfile. cbn [map]. rewrite <- app_assoc.
    split; [reflexivity|]. destruct (record_stream w); reflexivity.
Qed.

(** The text the file holds for the chunks of well-formed rows. *)
Lemma pending_text_rows (rows : list Row) :
  Forall (fun r => well_formed_utf16 (graffiti r) = true) rows ->
  pending_text (map (fun r => row_line r ++ [newline]) rows)
  = flat_map (fun r => row_line r ++ [newline]) rows.
Proof.
  induction 1 as [|r rows Hr _ IH]; [reflexivity|].
  unfold pending_text in *. cbn [map List.concat flat_map].
  rewrite IH, written_text_row_chunk_well_formed by exact Hr. reflexivity.
Qed.

(** The lines of a text made of terminated lines. *)
Lemma split_terminated_lines (init : list jsstring) (lastl : jsstring) :
  Forall (fun l => ~ In newline l) init -> ~ In newline lastl ->
  split newline (flat_map (fun l => l ++ [newline]) init ++ lastl)
  = init ++ [lastl].
Proof.
  intros Hinit Hlast. induction Hinit as [|l init Hl _ IH]; cbn [flat_map app].
  - apply split_no_sep. exact Hlast.
  - rewrite <- !app_assoc. cbn [app]. rewrite split_app, IH.
    rewrite (split_no_sep newline l Hl). reflexivity.
Qed.

Lemma trimStart_not_whitespace (s : jsstring) (c : char) (r : jsstring) :
  s = c :: r -> is_whitespace c = false -> trimStart s = s.
Proof. intros -> Hc. cbn [trimStart]. rewrite Hc. reflexivity. Qed.

(** The lines read from a text of terminated lines that starts with a
    code unit other than white space and whose last line does not end
    with white space. *)
Lemma lines_of_terminated_text (init : list jsstring) (lastl : jsstring)
  (c : char) (r : jsstring) :
  flat_map (fun l => l ++ [newline]) init ++ lastl = c :: r ->
  is_whitespace c = false ->
  Forall (fun l => ~ In newline l) init -> ~ In newline lastl ->
  lastl <> [] -> trimEnd lastl = lastl ->
  split newline (trim (flat_map (fun l => l ++ [newline]) (init ++ [lastl])))
  = init ++ [lastl].
Proof.
  intros Hhead Hc Hinit Hlast Hne Hend. unfold trim.
  rewrite flat_map_app. cbn [flat_map]. rewrite app_nil_r.
  rewrite !app_assoc, trimEnd_app. change (trimEnd [newline]) with (@nil char).
  rewrite trimEnd_fixed_app by assumption.
  erewrite trimStart_not_whitespace; [|exact Hhead|exact Hc].
  apply split_terminated_lines; assumption.
Qed.

Lemma last_elem_snoc {A : Type} (l : list A) (x : A) :
  last_elem (l ++ [x]) = Some x.
Proof.
  unfold last_elem. rewrite length_app. cbn [List.length].
  rewrite Nat.add_1_r. cbn [Nat.sub]. rewrite Nat.sub_0_r.
  rewrite nth_error_app2 by apply le_n. rewrite Nat.sub_diag. reflexivity.
Qed.

Lemma well_formed_row_line (r : Row) :
  well_formed_row r ->
  ~ In newline (row_line r) /\ parse_row (row_line r) = r
  /\ well_formed_utf16 (graffiti r) = true.
Proof.
  intros (s & i & Hs & _ & Hi & _ & Hnl & Hwf). split; [|split].
  - exact (row_line_no_newline r s i Hs Hi Hnl).
  - exact (parse_row_row_line r s i Hs Hi).
  - exact Hwf.
Qed.

(** X7.  A store that is created and filled by the script reads back
    whole once the write stream has drained: after the constructor on a
    world without record file, [addEntry] for each row of a list and the
    draining of the stream, [readEntries] returns the row of the header
    followed by exactly the rows of the list, in order, as long as the
    rows hold safe integers, every graffiti is well-formed UTF-16
    without a newline and the graffiti of the last row does not end with
    white space. *)
Theorem store_round_trip (w : world) (rows : list Row) :
  record_file w = None ->
  Forall well_formed_row rows ->
  (forall r, last_elem rows = Some r -> ~ ends_in_whitespace (graffiti r)) ->
  fst ((CsvRecord_new ;;;
        q <- addEntries rows [] ;; drain q ;;; readEntries) w)
  = Ok (header_row :: rows).
Proof.
  intros Hnone Hrows Hlast.
  unfold bind at 1. rewrite CsvRecord_new_run, Hnone.
  destruct (addEntries_run rows []
              (set_record_file (Some (header ++ [newline])) w))
    as (w' & Hrun & Hfile).
  cbn [app record_file set_record_file] in Hrun, Hfile.
  unfold bind at 1. rewrite Hrun.
  unfold bind, drain.
  assert (Hwf : Forall (fun r => well_formed_utf16 (graffiti r) = true) rows).
  { revert Hrows. apply Forall_impl. intros r Hr.
    apply (well_formed_row_line r Hr). }
  pose proof (record_file_drained
                (map (fun r => row_line r ++ [newline]) rows) w' _ Hfile)
    as Hdrained.
  rewrite (pending_text_rows rows Hwf) in Hdrained.
  rewrite (readEntries_run _ _ Hdrained). cbn [fst].
  f_equal.
  assert (Hmap : map parse_row (header :: map row_line rows)
                 = header_row :: rows).
  { cbn [map]. f_equal. rewrite map_map.
    clear Hlast Hrun Hfile Hdrained Hwf.
    induction Hrows as [|r rows Hr _ IH]; [reflexivity|].
    cbn [map]. rewrite IH. f_equal. apply (well_formed_row_line r Hr). }
  rewrite <- Hmap. f_equal.
  assert (Hnl : Forall (fun l => ~ In newline l) (map row_line rows)).
  { apply Forall_map. revert Hrows. apply Forall_impl.
    intros r Hr. apply (well_formed_row_line r Hr). }
  assert (Hflat : flat_map (fun r => row_line r ++ [newline]) rows
                  = flat_map (fun l => l ++ [newline]) (map row_line rows)).
  { clear. induction rows as [|r rows IH]; [reflexivity|].
    cbn [map flat_map]. rewrite IH. reflexivity. }
  rewrite Hflat.
  change (header ++ [newline]) with
    (flat_map (fun l => l ++ [newline]) [header]).
  rewrite <- flat_map_app.
  destruct rows as [|r0 rows0] using rev_ind.
  - reflexivity.
  - clear IHrows0. rewrite map_app in *. cbn [map] in *.
    apply Forall_app in Hnl. destruct Hnl as [Hnl Hnl0].
    apply Forall_app in Hrows. destruct Hrows as [_ Hr0].
    inversion Hr0 as [|? ? Hwf0 _]; subst.
    destruct Hwf0 as (s & i & Hs & _ & Hi & _ & Hg & _).
    specialize (Hlast r0 (last_elem_snoc rows0 r0)).
    rewrite app_assoc.
    apply (lines_of_terminated_text ([header] ++ map row_line rows0)
             (row_line r0) (chr "s")
             (tl (flat_map (fun l => l ++ [newline])
                    ([header] ++ map row_line rows0) ++ row_line r0))).
    + reflexivity.
    + reflexivity.
    + constructor; [|exact Hnl]. vm_compute. intuition discriminate.
    + inversion Hnl0; assumption.
    + rewrite row_line_eq. intros E. apply app_eq_nil in E.
      destruct E as [_ E]. discriminate E.
    + exact (row_line_trimEnd r0 s i Hs Hi Hlast).
Qed.

Lemma safe_integer_small (z : Z) : Z.abs z <= 1000000 -> safe_integer z.
Proof. unfold safe_integer. intros H. change (2 ^ 53 - 1) with 9007199254740991. lia. Qed.

Lemma store_round_trip_witness :
  fst ((CsvRecord_new ;;;
        q <- addEntries three_rows [] ;; drain q ;;; readEntries) empty_world)
  = Ok (header_row :: three_rows).
Proof.
  apply (store_round_trip empty_world three_rows).
  - reflexivity.
  - repeat constructor.
    + exists 327601, 5.
      split; [reflexivity|]. split; [apply safe_integer_small; simpl; lia|].
      split; [reflexivity|]. split; [apply safe_integer_small; simpl; lia|].
      split; [|reflexivity].
      simpl. intros H. repeat (destruct H as [H|H]; [discriminate H|]).
      destruct H.
    + exists 327602, 6.
      split; [reflexivity|]. split; [apply safe_integer_small; simpl; lia|].
      split; [reflexivity|]. split; [apply safe_integer_small; simpl; lia|].
      split; [|reflexivity].
      simpl. intros H. repeat (destruct H as [H|H]; [discriminate H|]).
      destruct H.
    + exists 327604, 5.
      split; [reflexivity|]. split; [apply safe_integer_small; simpl; lia|].
      split; [reflexivity|]. split; [apply safe_integer_small; simpl; lia|].
      split; [|reflexivity].
      simpl. intros H. repeat (destruct H as [H|H]; [discriminate H|]).
      destruct H.
  - intros r Hr. injection Hr as <-. intros (p & c & H & Hc).
    change (graffiti (mkRow (Num 327604) (Num 5) (str "DAppNode, y,z")))
      with (str "DAppNode, y," ++ [chr "z"]) in H.
    apply app_inj_tail in H. destruct H as [_ <-]. discriminate Hc.
Defined.

(** ** The checkpoint *)

Lemma In_trimEnd (s : jsstring) (x : char) : In x (trimEnd s) -> In x s.
Proof.
  induction s as [|c s IH]; cbn [trimEnd]; [tauto|].
  destruct (trimEnd s) as [|y t].
  - destruct (is_whitespace c); [intros [] | intros [<-|[]]; left; reflexivity].
  - intros [<-|H]; [left; reflexivity | right; apply IH; exact H].
Qed.

Lemma trimEnd_cons_not_whitespace (c : char) (s : jsstring) :
  is_whitespace c = false -> trimEnd (c :: s) = c :: trimEnd s.
Proof.
  intros Hc. cbn [trimEnd]. destruct (trimEnd s); [rewrite Hc|]; reflexivity.
Qed.

Lemma trimEnd_idem (s : jsstring) : trimEnd (trimEnd s) = trimEnd s.
Proof.
  induction s as [|c s IH]; [reflexivity|]. cbn [trimEnd].
  destruct (trimEnd s) as [|y t] eqn:E.
  - destruct (is_whitespace c) eqn:Hc; [reflexivity|].
    cbn [trimEnd]. rewrite Hc. reflexivity.
  - cbn [trimEnd] in *. rewrite IH. reflexivity.
Qed.

(** The lines of a complete text followed by one more line, whose own
    trailing white space is trimmed away. *)
Lemma lines_after_append_trimmed (old row : jsstring) (c : char) (r : jsstring) :
  line_complete old ->
  trimEnd row = c :: r -> is_whitespace c = false ->
  ~ In newline row ->
  exists lines,
    split newline (trim (old ++ row ++ [newline])) = lines ++ [trimEnd row].
Proof.
  intros Hold Hrow Hc Hnl. unfold trim.
  rewrite app_assoc, trimEnd_app.
  change (trimEnd [newline]) with (@nil char).
  rewrite trimEnd_app, Hrow, <- Hrow.
  rewrite (trimStart_app old (trimEnd row))
    by (apply (trimStart_not_whitespace _ c r Hrow Hc)).
  assert (Hnl' : ~ In newline (trimEnd row))
    by (intros H; apply Hnl, In_trimEnd; exact H).
  destruct (trimStart_suffix old) as (p & Hp & _).
  destruct (trimStart old) as [|y t] eqn:Et using rev_ind.
  - exists []. simpl. apply split_no_sep. exact Hnl'.
  - clear IHt.
    assert (Hy : y = newline).
    { destruct Hold as [-> | [q Hq]].
      - destruct t; discriminate Et.
      - rewrite Hq, app_assoc in Hp. apply app_inj_tail in Hp.
        destruct Hp as [_ Hp]. symmetry. exact Hp. }
    subst y. exists (split newline t).
    rewrite <- app_assoc. simpl. rewrite split_app.
    rewrite (split_no_sep newline (trimEnd row) Hnl'). reflexivity.
Qed.

(** The checkpoint of a store whose text ends with the line of a row. *)
Lemma getLastSlot_last_line (w : world) (old : jsstring) (r : Row) (s : Z) :
  record_file w = Some (old ++ row_line r ++ [newline]) ->
  line_complete old ->
  slot r = Num s ->
  ~ In newline (graffiti r) ->
  fst (getLastSlot w) = Ok (Some (Num s)).
Proof.
  intros Hfile Hold Hs Hg.
  unfold getLastSlot, bind, readFileSync_record. rewrite Hfile. cbn [fst].
  destruct (number_to_string_head s) as (c & t & Hhead & Hc).
  pose (rest := number_to_string (proposerIndex r) ++ comma :: graffiti r).
  assert (Hrow : row_line r = c :: t ++ comma :: rest).
  { rewrite row_line_eq, Hs, Hhead. reflexivity. }
  assert (Hcomma : is_whitespace comma = false) by reflexivity.
  assert (Htrim : trimEnd (row_line r) = c :: t ++ comma :: trimEnd rest).
  { rewrite Hrow, (trimEnd_cons_not_whitespace c _ Hc), trimEnd_app.
    rewrite (trimEnd_cons_not_whitespace comma rest Hcomma). reflexivity. }
  assert (Hnl : ~ In newline (row_line r)).
  { rewrite row_line_eq, Hs. intros H.
    apply in_app_or in H. destruct H as [H|[H|H]].
    - revert H. apply number_to_string_no_newline.
    - discriminate H.
    - apply in_app_or in H. destruct H as [H|[H|H]].
      + revert H. apply number_to_string_no_newline.
      + discriminate H.
      + exact (Hg H). }
  destruct (lines_after_append_trimmed old (row_line r) c
              (t ++ comma :: trimEnd rest) Hold Htrim Hc Hnl) as [lines Hl].
  rewrite Hl, last_elem_snoc. cbn [option_map].
  assert (Hlast : trim (trimEnd (row_line r)) = trimEnd (row_line r)).
  { unfold trim. rewrite trimEnd_idem.
    apply (trimStart_not_whitespace _ c _ Htrim Hc). }
  rewrite Hlast, Htrim. cbn [orb].
  assert (Hnot : jsstring_eqb (c :: t ++ comma :: trimEnd rest) header = false).
  { assert (Hin : In c (number_to_string (Num s)))
      by (rewrite Hhead; left; reflexivity).
    apply number_to_string_chars in Hin.
    unfold header. cbn [join app str map list_ascii_of_string jsstring_eqb].
    replace (char_eqb c (N_of_ascii "s")) with false; [reflexivity|].
    symmetry. apply char_eqb_neq. intros ->.
    destruct Hin as [H|H]; discriminate H. }
  rewrite Hnot.
  change (c :: t ++ comma :: trimEnd rest)
    with ((c :: t) ++ comma :: trimEnd rest).
  rewrite split_app, <- Hhead.
  rewrite (split_no_sep comma (number_to_string (Num s)))
    by (apply number_to_string_no; left; reflexivity).
  cbn [app hd_error parseInt_elem ret fst].
  rewrite parseInt_number_to_string. reflexivity.
Qed.

Lemma getLastSlot_fst_file (w w' : world) :
  record_file w' = record_file w -> fst (getLastSlot w') = fst (getLastSlot w).
Proof.
  intros H. unfold getLastSlot, bind, readFileSync_record. rewrite H.
  destruct (record_file w) as [c|]; [|reflexivity].
  destruct (option_map trim (last_elem (split newline (trim c)))) as [l|];
    [|reflexivity].
  destruct (_ || _); reflexivity.
Qed.



(** X9.  Reading a line: when a line has at least three comma-separated
    fields, the graffiti of its row is everything after the second
    comma, later commas included; with only two fields the graffiti is
    empty, and with a single field the proposer index is [NaN] as well. *)
Theorem parse_row_fields :
  (forall a b g : jsstring,
      ~ In comma a -> ~ In comma b ->
      parse_row (a ++ comma :: b ++ comma :: g)
      = mkRow (parseInt a) (parseInt b) g)
  /\ (forall a b : jsstring,
         ~ In comma a -> ~ In comma b ->
         parse_row (a ++ comma :: b) = mkRow (parseInt a) (parseInt b) [])
  /\ (forall a : jsstring,
         ~ In comma a -> parse_row a = mkRow (parseInt a) NaN []).
Proof.
  split; [|split].
  - intros a b g Ha Hb. unfold parse_row.
    rewrite !split_app, (split_no_sep comma a Ha), (split_no_sep comma b Hb).
    cbn [app nth_error skipn parseInt_elem]. change separator with [comma].
    rewrite join_split. reflexivity.
  - intros a b Ha Hb. unfold parse_row.
    rewrite split_app, (split_no_sep comma a Ha), (split_no_sep comma b Hb).
    reflexivity.
  - intros a Ha. unfold parse_row. rewrite (split_no_sep comma a Ha).
    reflexivity.
Qed.

(** ** The text of a graffiti *)

Lemma until_zero_nonzero (bs : buffer) :
  Forall (fun b => (0 < b < 256)%N) (map Byte.to_N (until_zero bs)).
Proof.
  induction bs as [|b bs IH]; cbn [until_zero]; [constructor|].
  destruct (N.eqb_spec (Byte.to_N b) 0) as [E|E]; [constructor|].
  cbn [map]. constructor; [|exact IH].
  pose proof (Byte.to_N_bounded b). lia.
Qed.

Lemma utf8_lead_ok (b : N) :
  (0 < b < 256)%N ->
  ~ In 0%N (fst (utf8_lead b)) /\ utf8_state_ok (snd (utf8_lead b)).
Proof.
  intros Hb.
  assert (H : utf8_lead_check b = true).
  { apply (forall_below utf8_lead_check 256); [vm_compute; reflexivity | lia]. }
  unfold utf8_lead_check in H.
  destruct (N.eqb_spec b 0) as [E|_]; [lia|]. cbn [orb] in H.
  apply andb_prop in H. destruct H as [H1 H2]. split.
  - intros Hin. apply negb_true_iff in H1.
    assert (Hex : existsb (N.eqb 0) (fst (utf8_lead b)) = true).
    { apply existsb_exists. exists 0%N. split; [exact Hin | reflexivity]. }
    rewrite Hex in H1. discriminate H1.
  - destruct (snd (utf8_lead b)) as [s|]; [|exact I]. cbn [utf8_state_ok].
    apply orb_true_iff in H2. destruct H2 as [H2|H2]; apply N.ltb_lt in H2; lia.
Qed.

Lemma code_units_nonzero (cp : N) : (0 < cp)%N -> ~ In 0%N (code_units cp).
Proof.
  intros Hcp. unfold code_units. destruct (N.ltb_spec cp 65536).
  - intros [H0|[]]. lia.
  - intros [H0|[H0|[]]]; n_divmod.
Qed.

Lemma utf8_decode_nonzero (bs : list N) (st : option utf8_state) :
  Forall (fun b => (0 < b < 256)%N) bs -> utf8_state_ok st ->
  ~ In 0%N (utf8_decode_from st bs).
Proof.
  intros Hbs. revert st. induction Hbs as [|b bs Hb _ IH]; intros st Hst.
  - destruct st; cbn [utf8_decode_from]; [intros [H|[]]; discriminate H | tauto].
  - cbn [utf8_decode_from].
    destruct (utf8_lead_ok b Hb) as [Hout Hst'].
    destruct st as [s|].
    + destruct ((u_lower s <=? b) && (b <=? u_upper s))%N eqn:Hrange.
      * apply andb_prop in Hrange. destruct Hrange as [Hlo _].
        apply N.leb_le in Hlo. cbn [utf8_state_ok] in Hst.
        assert (Hcp : (0 < u_cp s * 64 + (b - 128))%N) by lia.
        destruct (u_needed s) as [|[|n]].
        -- apply IH. cbn [utf8_state_ok u_cp]. left. exact Hcp.
        -- intros Hin. apply in_app_or in Hin. destruct Hin as [Hin|Hin].
           ++ exact (code_units_nonzero _ Hcp Hin).
           ++ exact (IH None I Hin).
        -- apply IH. cbn [utf8_state_ok u_cp]. left. exact Hcp.
      * destruct (utf8_lead b) as [out st']. cbn [fst snd] in *.
        intros [H|Hin]; [discriminate H|].
        apply in_app_or in Hin. destruct Hin as [Hin|Hin];
          [exact (Hout Hin) | exact (IH st' Hst' Hin)].
    + destruct (utf8_lead b) as [out st']. cbn [fst snd] in *.
      intros Hin. apply in_app_or in Hin. destruct Hin as [Hin|Hin];
        [exact (Hout Hin) | exact (IH st' Hst' Hin)].
Qed.

(** X10.  Whatever text [parseGraffiti] is given, well-formed base64 or
    not, its result is the UTF-8 decoding of the decoded bytes before
    the first zero byte, and it contains no NUL character. *)
Theorem parseGraffiti_no_nul (text : jsstring) :
  parseGraffiti text
  = Buffer_toString_utf8 (until_zero (Buffer_from_base64 text))
  /\ ~ In 0%N (parseGraffiti text).
Proof.
  assert (H : parseGraffiti text
              = Buffer_toString_utf8 (until_zero (Buffer_from_base64 text))).
  { unfold parseGraffiti, Buffer_entries.
    exact (f_equal Buffer_toString_utf8
             (scan_before_zero (Buffer_from_base64 text) [])). }
  split; [exact H|]. rewrite H. unfold Buffer_toString_utf8.
  apply utf8_decode_nonzero; [apply until_zero_nonzero | exact I].
Qed.

(** ** The end of a run *)

Lemma jsstring_eqb_spec (a b : jsstring) : jsstring_eqb a b = true <-> a = b.
Proof. apply jsstring_eqb_eq. Qed.


(** The run up to the resolver, once the scan has ended normally. *)
Lemma runScript_after_scan
  (beacon : number -> result (list Block) * bool)
  (explorer : list number -> result (list Deposit))
  (w w1 : world) (entries : list Row) :
  scan_phase beacon w = (Ok tt, w1) ->
  fst (readEntries w1) = Ok entries ->
  runScript beacon explorer w
  = (addresses <- (fun w2 =>
                     resolve explorer
                       (batches (collectProposerIndexes entries)) [] w2) ;;
     console_log (str "Eth1 addresses: "
                  ++ length_string (Set_of jsstring_eqb addresses)
                  ++ str " (total " ++ length_string addresses ++ str ")") ;;;
     writeFileSync_addresses (join [newline] (Set_of jsstring_eqb addresses)))
      (set_indexes_file
         (Some (join [newline]
                  (map number_to_string (collectProposerIndexes entries))))
         (set_console
            (console w1
             ++ [str "Proposer indexes: "
                 ++ length_string (collectProposerIndexes entries)]) w1)).
Proof.
  intros Hscan Hread. apply readEntries_world in Hread.
  unfold runScript. unfold bind at 1. rewrite Hscan.
  unfold bind at 1. rewrite Hread.
  unfold bind at 1. unfold console_log at 1.
  unfold bind at 1. unfold writeFileSync_indexes at 1.
  unfold bind at 1 3. rewrite fetchDepositAddresses_resolve. reflexivity.
Qed.

(** X11.  When the scan ends normally and no request to the explorer
    fails, the run ends normally; the file of addresses holds the
    addresses collected from the valid deposits, each once, in the order
    in which they were first collected, one per line, and the last line
    printed counts the unique and the collected addresses. *)
Theorem run_writes_unique_addresses
  (beacon : number -> result (list Block) * bool)
  (explorer : list number -> result (list Deposit))
  (w w1 : world) (entries : list Row) :
  scan_phase beacon w = (Ok tt, w1) ->
  fst (readEntries w1) = Ok entries ->
  all_answered explorer (batches (collectProposerIndexes entries)) ->
  let addresses :=
    collected (answered explorer (batches (collectProposerIndexes entries))) in
  let unique := first_seen jsstring_eqb addresses in
  fst (runScript beacon explorer w) = Ok tt
  /\ addresses_file (snd (runScript beacon explorer w))
     = Some (join [newline] unique)
  /\ NoDup unique
  /\ (forall a, In a unique <-> In a addresses)
  /\ last_elem (console (snd (runScript beacon explorer w)))
     = Some (str "Eth1 addresses: " ++ length_string unique
             ++ str " (total " ++ length_string addresses ++ str ")").
Proof.
  intros Hscan Hread Hall. cbv zeta.
  rewrite (runScript_after_scan beacon explorer w w1 entries Hscan Hread).
  unfold bind. rewrite (resolve_all_answered _ _ _ _ Hall).
  cbn [app]. rewrite (Set_of_first_seen jsstring_eqb jsstring_eqb_spec).
  unfold console_log, writeFileSync_addresses. cbn [fst snd].
  split; [reflexivity|]. split; [reflexivity|].
  split; [apply (NoDup_first_seen jsstring_eqb jsstring_eqb_spec)|].
  split; [intros a; apply (In_first_seen jsstring_eqb jsstring_eqb_spec)|].
  cbn [console set_addresses_file set_console]. apply last_elem_snoc.
Qed.

Lemma run_writes_unique_addresses_witness :
  let addresses :=
    collected (answered explorer_two
                 (batches (collectProposerIndexes
                             [header_row;
                              mkRow (Num 327700) (Num 5) (str "dappnode");
                              mkRow (Num 442799) (Num 6) (str "x")]))) in
  let unique := first_seen jsstring_eqb addresses in
  fst (runScript beacon_one_block explorer_two (world_with_record store_finished))
  = Ok tt
  /\ addresses_file
       (snd (runScript beacon_one_block explorer_two
               (world_with_record store_finished)))
     = Some (join [newline] unique)
  /\ NoDup unique
  /\ (forall a, In a unique <-> In a addresses)
  /\ last_elem
       (console (snd (runScript beacon_one_block explorer_two
                        (world_with_record store_finished))))
     = Some (str "Eth1 addresses: " ++ length_string unique
             ++ str " (total " ++ length_string addresses ++ str ")").
Proof.
  apply (run_writes_unique_addresses beacon_one_block explorer_two
           (world_with_record store_finished)
           (world_with_record store_finished)).
  - reflexivity.
  - reflexivity.
  - intros b Hb. eexists. reflexivity.
Defined.



Lemma collect_none_selected (entries : list Row) :
  (forall e, In e entries -> selected e = false) ->
  collectProposerIndexes entries = [].
Proof.
  intros Hnone. induction entries as [|e entries IH]; [reflexivity|].
  rewrite collect_skips_unselected by (apply Hnone; left; reflexivity).
  apply IH. intros e' He'. apply Hnone. right. exact He'.
Qed.

(** X15.  When no row of the store is selected by the filter, the run
    ends normally without asking the explorer anything, and writes two
    empty output files. *)
Theorem no_match_no_request
  (beacon : number -> result (list Block) * bool)
  (explorer : list number -> result (list Deposit))
  (w w1 : world) (entries : list Row) :
  scan_phase beacon w = (Ok tt, w1) ->
  fst (readEntries w1) = Ok entries ->
  (forall e, In e entries -> selected e = false) ->
  fst (runScript beacon explorer w) = Ok tt
  /\ indexes_file (snd (runScript beacon explorer w)) = Some []
  /\ addresses_file (snd (runScript beacon explorer w)) = Some []
  /\ explorer_log (snd (runScript beacon explorer w)) = explorer_log w1.
Proof.
  intros Hscan Hread Hnone.
  rewrite (runScript_after_scan beacon explorer w w1 entries Hscan Hread).
  rewrite (collect_none_selected entries Hnone).
  repeat split.
Qed.

Lemma no_match_no_request_witness :
  fst (runScript beacon_empty explorer_down (world_with_record store_near_end))
  = Ok tt
  /\ indexes_file
       (snd (runScript beacon_empty explorer_down
               (world_with_record store_near_end))) = Some []
  /\ addresses_file
       (snd (runScript beacon_empty explorer_down
               (world_with_record store_near_end))) = Some []
  /\ explorer_log
       (snd (runScript beacon_empty explorer_down
               (world_with_record store_near_end)))
     = explorer_log (snd (scan_phase beacon_empty
                            (world_with_record store_near_end))).
Proof.
  apply (no_match_no_request beacon_empty explorer_down
           (world_with_record store_near_end)
           (snd (scan_phase beacon_empty (world_with_record store_near_end)))
           [header_row; mkRow (Num 442797) (Num 5) (str "abc")]).
  - reflexivity.
  - reflexivity.
  - intros e [<-|[<-|[]]]; reflexivity.
Defined.

(** ** Resuming after a scan *)

Lemma scan_chunks_blocks (beacon : number -> result (list Block) * bool)
  (fetched : list number) :
  scan_chunks beacon fetched = block_chunks (flat_map (answer beacon) fetched).
Proof.
  unfold scan_chunks, block_chunks.
  induction fetched as [|s fetched IH]; [reflexivity|]. cbn [flat_map].
  rewrite IH, map_app. reflexivity.
Qed.

(** The text the file holds for the chunks of blocks is made of
    terminated lines. *)
Lemma line_complete_block_chunks (text : jsstring) (bl : list Block) :
  line_complete text -> line_complete (text ++ pending_text (block_chunks bl)).
Proof.
  intros Ht. destruct bl as [|b bl] using rev_ind.
  - unfold block_chunks, pending_text. cbn [map List.concat].
    rewrite app_nil_r. exact Ht.
  - right. unfold block_chunks. rewrite map_app, pending_text_app.
    cbn [map]. unfold pending_text at 2. cbn [map List.concat].
    rewrite app_nil_r, written_text_row_chunk.
    eexists. rewrite !app_assoc. reflexivity.
Qed.

Lemma resume_slot_of_checkpoint (w : world) (c : jsstring) (n : number) :
  record_file w = Some c -> fst (getLastSlot w) = Ok (Some n) ->
  resume_slot w = num_add n (Num 1).
Proof.
  intros Hc Hn. unfold resume_slot. rewrite CsvRecord_new_run, Hc. cbn [snd].
  rewrite Hn. reflexivity.
Qed.

(** X13.  After a scan that ended normally and recorded at least one
    block, and once the write stream has drained, the checkpoint of the
    store is the slot of the last block recorded (the slot the block
    itself states), so that the next run resumes at the slot after it;
    the slots asked after that block, which had no block, are asked
    again by the next run. *)
Theorem checkpoint_after_scan
  (beacon : number -> result (list Block) * bool) (w : world)
  (fetched : list number) (q : pending) (bl : list Block) (b : Block)
  (s : Z) :
  line_complete (store_text w) ->
  beacon_log (snd (scan_phase_record beacon w)) = beacon_log w ++ fetched ->
  fst (scan_phase_record beacon w) = Ok q ->
  flat_map (answer beacon) fetched = bl ++ [b] ->
  parseInt (block_slot b) = Num s -> safe_integer s ->
  ~ In newline (parseGraffiti (block_graffiti b)) ->
  fst (getLastSlot (snd (drain q (snd (scan_phase_record beacon w)))))
  = Ok (Some (Num s))
  /\ resume_slot (snd (drain q (snd (scan_phase_record beacon w))))
     = Num (s + 1).
Proof.
  intros Hold Hlog Hq Hblocks Hs _ Hg.
  destruct (scan_phase_effect beacon w)
    as (fetched' & m & Hlog' & Htext & _ & Hqueue & [c Hc] & _).
  rewrite Hlog in Hlog'. apply app_inv_head in Hlog'. subst fetched'.
  specialize (Hqueue q Hq).
  assert (Hfile : record_file (snd (drain q (snd (scan_phase_record beacon w))))
                  = Some ((store_text (snd (CsvRecord_new w))
                           ++ pending_text (block_chunks bl))
                          ++ row_line (mkRow (slot (block_row b))
                                         (proposerIndex (block_row b))
                                         (sanitize (graffiti (block_row b))))
                          ++ [newline])).
  { unfold drain. cbn [snd]. rewrite (record_file_drained q _ c Hc).
    unfold store_text in Htext at 1. rewrite Hc in Htext.
    rewrite Htext, Hqueue, <- app_assoc, <- pending_text_app, firstn_skipn.
    rewrite scan_chunks_blocks, Hblocks. unfold block_chunks at 1.
    rewrite map_app, pending_text_app. fold (block_chunks bl).
    cbn [map]. unfold pending_text at 2. cbn [map List.concat].
    rewrite app_nil_r, written_text_row_chunk, <- !app_assoc. reflexivity. }
  assert (Hcheck : fst (getLastSlot
                          (snd (drain q (snd (scan_phase_record beacon w)))))
                   = Ok (Some (Num s))).
  { apply (getLastSlot_last_line _ _ _ s Hfile).
    - apply line_complete_block_chunks. rewrite store_text_CsvRecord_new.
      unfold store_text in Hold.
      destruct (record_file w); [exact Hold|].
      right. exists header. reflexivity.
    - exact Hs.
    - cbn [graffiti block_row]. intros Hin. apply In_sanitize in Hin.
      destruct Hin as [Hin|Hin]; [exact (Hg Hin) | discriminate Hin]. }
  split; [exact Hcheck|].
  exact (resume_slot_of_checkpoint _ _ _ Hfile Hcheck).
Qed.

Lemma checkpoint_after_scan_witness :
  fst (getLastSlot
         (snd (drain [str "442799,7,dappnode, x
"]
                 (snd (scan_phase_record beacon_one_block
                         (set_io_schedule [0; 1]%nat
                            (world_with_record store_near_end)))))))
  = Ok (Some (Num 442799))
  /\ resume_slot
       (snd (drain [str "442799,7,dappnode, x
"]
               (snd (scan_phase_record beacon_one_block
                       (set_io_schedule [0; 1]%nat
                          (world_with_record store_near_end))))))
     = Num (442799 + 1).
Proof.
  apply (checkpoint_after_scan beacon_one_block
           (set_io_schedule [0; 1]%nat (world_with_record store_near_end))
           [Num 442798; Num 442799]
           [str "442799,7,dappnode, x
"]
           [mkBlock (str "442798") (str "7") (str "ZGFwcG5vZGUsIHgAAAA=")]
           (mkBlock (str "442799") (str "7") (str "ZGFwcG5vZGUsIHgAAAA="))
           442799).
  - right. exists (header ++ [newline] ++ str "442797,5,abc"). reflexivity.
  - reflexivity.
  - reflexivity.
  - reflexivity.
  - reflexivity.
  - apply safe_integer_small. simpl. lia.
  - vm_compute. intros H. repeat (destruct H as [H|H]; [discriminate H|]).
    destruct H.
Defined.

(** X14.  A scan that was answered no block at all leaves the text of
    the record file as the constructor found or created it, and with it
    the checkpoint: the next run starts its scan at the same slot and
    asks for the same slots again. *)
Theorem empty_slots_are_asked_again
  (beacon : number -> result (list Block) * bool) (w : world)
  (fetched : list number) :
  beacon_log (snd (scan_phase beacon w)) = beacon_log w ++ fetched ->
  (forall s, In s fetched -> answer beacon s = []) ->
  record_file (snd (scan_phase beacon w)) = record_file (snd (CsvRecord_new w))
  /\ resume_slot (snd (scan_phase beacon w)) = resume_slot w.
Proof.
  rewrite scan_phase_snd. intros Hlog Hempty.
  destruct (scan_phase_effect beacon w)
    as (fetched' & m & Hlog' & Htext & _ & _ & [c Hc] & _).
  rewrite Hlog in Hlog'. apply app_inv_head in Hlog'. subst fetched'.
  assert (Hnone : scan_chunks beacon fetched = []).
  { clear Hlog Htext. unfold scan_chunks.
    induction fetched as [|s fetched IH]; [reflexivity|].
    cbn [flat_map]. rewrite (Hempty s (or_introl eq_refl)), IH; [reflexivity|].
    intros s' Hs'. apply Hempty. right. exact Hs'. }
  rewrite Hnone in Htext. unfold pending_text in Htext.
  rewrite firstn_nil in Htext. cbn [map List.concat] in Htext.
  rewrite app_nil_r in Htext.
  destruct (CsvRecord_new_file w) as (c0 & Hc0 & _).
  assert (Hsame : record_file (snd (scan_phase_record beacon w))
                  = record_file (snd (CsvRecord_new w))).
  { unfold store_text in Htext. rewrite Hc, Hc0 in Htext.
    rewrite Hc, Hc0, Htext. reflexivity. }
  split; [exact Hsame|].
  unfold resume_slot at 1.
  rewrite CsvRecord_new_run, Hc. cbn [snd].
  rewrite (getLastSlot_fst_file (snd (CsvRecord_new w)) _ Hsame).
  reflexivity.
Qed.

Lemma empty_slots_are_asked_again_witness :
  record_file (snd (scan_phase beacon_empty (world_with_record store_near_end)))
  = record_file (snd (CsvRecord_new (world_with_record store_near_end)))
  /\ resume_slot (snd (scan_phase beacon_empty
                         (world_with_record store_near_end)))
     = resume_slot (world_with_record store_near_end).
Proof.
  apply (empty_slots_are_asked_again beacon_empty
           (world_with_record store_near_end) [Num 442798; Num 442799]).
  - reflexivity.
  - intros s _. reflexivity.
Defined.

(** ** A newline in the graffiti *)

(** C10 as stated fails in its second half: the line written for the
    graffiti "ab" followed by a newline is read back as one record, not
    as several; the trim has removed the newline. *)
Lemma newline_split_counterexample :
  In newline (str "ab
")
  /\ fst ((q <- addEntry (mkRow (Num 1) (Num 2) (str "ab
")) [] ;;
          drain q ;;; readEntries) (world_with_record (header ++ [newline])))
     = Ok [header_row; mkRow (Num 1) (Num 2) (str "ab")].
Proof. split; [right; right; left; reflexivity | reflexivity]. Qed.

(** C10, amended.  A record whose graffiti contains a newline is never
    read back.  Read in the same tick as [addEntry], the record is not
    among the rows, being still queued; read once the stream has
    drained, none of the rows has the graffiti of the record, so none is
    equal to it.  For a well-formed graffiti appended to a store whose
    text is empty or ends with a newline, the rows read back are those
    of the store followed by the records of the written line.  These
    are two or more when something other than white space follows the
    first newline of the graffiti: one record whose graffiti is the text
    before that newline, then those of the rest.  When only white space
    follows, the trim removes it and the written line is read back as
    one record, whose graffiti is the text before the newline without
    its trailing white space. *)
Theorem newline_graffiti_not_read_back (w : world) (q : pending) (r : Row) :
  In newline (graffiti r) ->
  (forall rows,
      fst ((q' <- addEntry r q ;; readEntries) w) = Ok rows -> ~ In r rows)
  /\ (exists rows,
         fst ((q' <- addEntry r q ;; drain q' ;;; readEntries) w) = Ok rows
         /\ (forall r', In r' rows -> graffiti r' <> graffiti r)
         /\ ~ In r rows)
  /\ (forall g1 g2 : jsstring,
         line_complete (handed_text w q) ->
         well_formed_utf16 (graffiti r) = true ->
         graffiti r = g1 ++ newline :: g2 -> ~ In newline g1 ->
         (trimEnd g2 <> [] ->
          exists first after,
            fst ((q' <- addEntry r q ;; drain q' ;;; readEntries) w)
            = Ok (map parse_row (complete_lines (handed_text w q))
                  ++ first :: after)
            /\ graffiti first = g1
            /\ after = map parse_row (split newline (trimEnd g2))
            /\ after <> [])
         /\ (trimEnd g2 = [] ->
             exists only,
               fst ((q' <- addEntry r q ;; drain q' ;;; readEntries) w)
               = Ok (map parse_row (complete_lines (handed_text w q))
                     ++ [only])
               /\ graffiti only = trimEnd g1)).
Proof.
  intros Hnl.
  assert (Hread : forall content r',
             In r' (map parse_row (split newline (trim content))) ->
             graffiti r' <> graffiti r).
  { intros content r' Hr' Heq. apply (rows_read_have_no_newline _ _ Hr').
    rewrite Heq. exact Hnl. }
  split; [|split].
  - intros rows. rewrite readEntries_at_once, readEntries_fst.
    destruct (record_file w) as [content|]; [|discriminate].
    intros H. injection H as <-. intros Hin.
    exact (Hread content r Hin eq_refl).
  - eexists. split; [apply readEntries_after_drain|].
    split; [apply Hread|]. intros Hin. exact (Hread _ r Hin eq_refl).
  - intros g1 g2 Hold Hwf Hg Hg1.
    destruct (row_head_shape r) as ((c & t & Hhead & Hc) & Hend & Hnh & Hparse).
    rewrite readEntries_after_drain,
      (written_text_row_chunk_well_formed r Hwf), row_line_head.
    rewrite (lines_after_chunk _ _ _ c t Hold Hhead Hc Hend), Hg.
    assert (Hline : forall g, ~ In newline g -> ~ In newline (row_head r ++ g)).
    { intros g Hn H. apply in_app_or in H. destruct H as [H|H];
        [exact (Hnh H) | exact (Hn H)]. }
    split.
    + intros Hg2. rewrite trimEnd_app.
      assert (Ht : trimEnd (newline :: g2) = newline :: trimEnd g2).
      { cbn [trimEnd]. destruct (trimEnd g2); [contradiction | reflexivity]. }
      rewrite Ht, app_assoc, split_app.
      rewrite (split_no_sep newline _ (Hline g1 Hg1)).
      rewrite map_app. cbn [map app].
      eexists. eexists. split; [reflexivity|].
      split; [apply Hparse|]. split; [reflexivity|].
      intros E. apply map_eq_nil in E. exact (split_not_nil _ _ E).
    + intros Hg2. rewrite trimEnd_app.
      assert (Ht : trimEnd (newline :: g2) = []).
      { cbn [trimEnd]. rewrite Hg2. reflexivity. }
      rewrite Ht.
      assert (Hn : ~ In newline (trimEnd g1))
        by (intros H; apply Hg1, In_trimEnd; exact H).
      rewrite (split_no_sep newline _ (Hline _ Hn)), map_app. cbn [map].
      eexists. split; [reflexivity | apply Hparse].
Qed.

Lemma newline_graffiti_not_read_back_witness :
  (forall rows,
      fst ((q' <- addEntry (mkRow (Num 1) (Num 2) (str "a
b")) [] ;; readEntries)
             (world_with_record (header ++ [newline]))) = Ok rows ->
      ~ In (mkRow (Num 1) (Num 2) (str "a
b")) rows)
  /\ (exists rows,
         fst ((q' <- addEntry (mkRow (Num 1) (Num 2) (str "a
b")) [] ;;
               drain q' ;;; readEntries)
                (world_with_record (header ++ [newline]))) = Ok rows
         /\ (forall r', In r' rows -> graffiti r' <> str "a
b")
         /\ ~ In (mkRow (Num 1) (Num 2) (str "a
b")) rows)
  /\ (forall g1 g2 : jsstring,
         line_complete (handed_text (world_with_record (header ++ [newline])) []) ->
         well_formed_utf16 (str "a
b") = true ->
         str "a
b" = g1 ++ newline :: g2 -> ~ In newline g1 ->
         (trimEnd g2 <> [] ->
          exists first after,
            fst ((q' <- addEntry (mkRow (Num 1) (Num 2) (str "a
b")) [] ;;
                  drain q' ;;; readEntries)
                   (world_with_record (header ++ [newline])))
            = Ok (map parse_row
                    (complete_lines
                       (handed_text (world_with_record (header ++ [newline]))
                          []))
                  ++ first :: after)
            /\ graffiti first = g1
            /\ after = map parse_row (split newline (trimEnd g2))
            /\ after <> [])
         /\ (trimEnd g2 = [] ->
             exists only,
               fst ((q' <- addEntry (mkRow (Num 1) (Num 2) (str "a
b")) [] ;;
                     drain q' ;;; readEntries)
                      (world_with_record (header ++ [newline])))
               = Ok (map parse_row
                       (complete_lines
                          (handed_text
                             (world_with_record (header ++ [newline])) []))
                     ++ [only])
               /\ graffiti only = trimEnd g1)).
Proof.
  apply (newline_graffiti_not_read_back
           (world_with_record (header ++ [newline])) []
           (mkRow (Num 1) (Num 2) (str "a
b"))).
  simpl. right. left. reflexivity.
Defined.

(** The store of the counterexample to C9 is what a scan leaves, once
    the stream has drained, when the beacon node answers a block whose
    proposer index does not read as a number. *)
Example store_odd_index_ex :
  record_file
    (snd ((q <- scan_phase_record beacon_odd_index ;; drain q) empty_world))
  = Some store_odd_index
  /\ indexes_file
       (snd (runScript beacon_odd_index explorer_none empty_world))
     = Some [].
Proof. split; vm_compute; reflexivity. Qed.
